(** * PacketRouteSim: the path-finding and animation engine of
      client/src/pages/simulator.tsx, embedded in Rocq.

    Conventions of the embedding.
    - A JavaScript [number] that the program only ever adds and compares
      (edge costs, tentative distances, timestamps) is an integer of [Z];
      [Infinity] is a separate constructor.  Numbers that are scaled by a
      fraction (canvas positions, [Math.random()] draws, animation
      progress) are exact rationals of [Q].
    - [Map<string, V>] is a [gmap string V]; [Map.get] of an absent key is
      [None], the JavaScript [undefined].
    - [Set<string>] is iterated in insertion order by [forEach], so it is a
      duplicate-free [list string] in insertion order.
    - A [while] loop whose number of iterations is not bounded by the text
      of the loop takes a [fuel] argument and answers [None] when the fuel
      runs out before the loop condition turns false. *)

From Stdlib Require Import QArith Qround Qminmax Qpower.
From stdpp Require Import gmap strings list fin_maps pretty.

Local Open Scope Z_scope.

(** ** shared/schema.ts *)

Inductive NodeType := router | source | destination.

(** The identifier type is a parameter: the interfaces declare [id: string],
    and [dijkstra] is called on such networks; the generator stores
    [labels[i]], which is [undefined] past the end of the alphabet, so its
    raw output carries [option string] identifiers. *)
Record NetworkNode (Id : Type) := mkNode {
  node_id : Id;
  node_label : Id;
  node_x : Q;
  node_y : Q;
  node_type : NodeType
}.
Arguments mkNode {Id}.
Arguments node_id {Id}.
Arguments node_label {Id}.
Arguments node_x {Id}.
Arguments node_y {Id}.
Arguments node_type {Id}.

Record NetworkEdge (Id : Type) := mkEdge {
  edge_from : Id;
  edge_to : Id;
  edge_cost : Z
}.
Arguments mkEdge {Id}.
Arguments edge_from {Id}.
Arguments edge_to {Id}.
Arguments edge_cost {Id}.

#[export] Instance NetworkEdge_eq_dec {Id} `{EqDecision Id} :
  EqDecision (NetworkEdge Id).
Proof. solve_decision. Defined.

Record Network (Id : Type) := mkNetwork {
  nodes : list (NetworkNode Id);
  edges : list (NetworkEdge Id)
}.
Arguments mkNetwork {Id}.
Arguments nodes {Id}.
Arguments edges {Id}.

(** [from] and [to] of a segment are the results of [Array.find(...)!]: the
    non-null assertion is erased at run time, so they are options. *)
Record PathSegment := mkSeg {
  seg_from : option (NetworkNode string);
  seg_to : option (NetworkNode string);
  seg_edge : NetworkEdge string
}.

Record SimulationState := mkSim {
  sourceNodeId : option string;
  destinationNodeId : option string;
  path : list PathSegment;
  isAnimating : bool;
  isComplete : bool;
  message : string
}.

(** ** Numbers with [Infinity] *)

Inductive num := Fin (z : Z) | Infinity.

Definition num_ltb (a b : num) : bool :=
  match a, b with
  | Fin p, Fin q => p <? q
  | Fin _, Infinity => true
  | Infinity, _ => false
  end.

(** [a + c] of lines 54 and 64, over the integers.  The code adds binary64
    numbers: the two agree as long as the sum is an integer of at most 53
    bits, and every statement on the value of a sum keeps the costs within
    that range. *)
Definition num_add (a : num) (c : Z) : num :=
  match a with
  | Fin p => Fin (p + c)
  | Infinity => Infinity
  end.

(** [a < b] where either side may be [undefined] (or [NaN]): false then. *)
Definition js_lt (a b : option num) : bool :=
  match a, b with
  | Some p, Some q => num_ltb p q
  | _, _ => false
  end.

(** ** [Set<string>] in insertion order *)

Definition set_add (s : list string) (k : string) : list string :=
  if bool_decide (k ∈ s) then s else s ++ [k].

Definition set_delete (s : list string) (k : string) : list string :=
  filter (λ k', k' ≠ k) s.

Definition set_has (s : list string) (k : string) : bool :=
  bool_decide (k ∈ s).

(** ** dijkstra (simulator.tsx, lines 14-95) *)

(** Everything the function can reach: its argument and its three
    collections. *)
Record DState := mkDState {
  network : Network string;
  distances : gmap string num;
  previous : gmap string (option string);
  unvisited : list string
}.

(** Lines 24-28, the body of [network.nodes.forEach]. *)
Definition init_node (sourceId : string) (st : DState)
    (node : NetworkNode string) : DState :=
  {| network := network st;
     distances :=
       <[node_id node :=
           if decide (node_id node = sourceId) then Fin 0 else Infinity]>
         (distances st);
     previous := <[node_id node := None]> (previous st);
     unvisited := set_add (unvisited st) (node_id node) |}.

Definition init_state (net : Network string) (sourceId : string) : DState :=
  fold_left (init_node sourceId) (nodes net)
    {| network := net; distances := ∅; previous := ∅; unvisited := [] |}.

(** Lines 36-42, the body of [unvisited.forEach]; the accumulator is
    [(currentNode, minDistance)]. *)
Definition scan_min (st : DState) (acc : option string * num)
    (nodeId : string) : option string * num :=
  match distances st !! nodeId with
  | Some dist => if num_ltb dist (snd acc) then (Some nodeId, dist) else acc
  | None => acc
  end.

Definition find_min (st : DState) : option string * num :=
  fold_left (scan_min st) (unvisited st) (None, Infinity).

(** Lines 53-58 and 63-68: relax one direction of an edge.  Were
    [distances.get(currentNode)] undefined, [newDist] would be [NaN] and the
    comparison false. *)
Definition relax (currentNode neighbor : string) (c : Z) (st : DState)
    : DState :=
  if set_has (unvisited st) neighbor then
    match distances st !! currentNode with
    | Some d =>
        let newDist := num_add d c in
        if js_lt (Some newDist) (distances st !! neighbor) then
          {| network := network st;
             distances := <[neighbor := newDist]> (distances st);
             previous := <[neighbor := Some currentNode]> (previous st);
             unvisited := unvisited st |}
        else st
    | None => st
    end
  else st.

(** Lines 50-71, the body of [network.edges.forEach]. *)
Definition relax_edge (currentNode : string) (st : DState)
    (edge : NetworkEdge string) : DState :=
  let st1 :=
    if decide (edge_from edge = currentNode)
    then relax currentNode (edge_to edge) (edge_cost edge) st else st in
  if decide (edge_to edge = currentNode)
  then relax currentNode (edge_from edge) (edge_cost edge) st1 else st1.

Definition visit (currentNode : string) (st : DState) : DState :=
  fold_left (relax_edge currentNode) (edges (network st))
    {| network := network st;
       distances := distances st;
       previous := previous st;
       unvisited := set_delete (unvisited st) currentNode |}.

(** Lines 31-72.  [!currentNode] holds for [null] and for the empty
    string. *)
Fixpoint main_loop (fuel : nat) (destId : string) (st : DState)
    : option DState :=
  match fuel with
  | O => None
  | S fuel' =>
      match unvisited st with
      | [] => Some st
      | _ :: _ =>
          match find_min st with
          | (None, _) => Some st
          | (Some currentNode, minDistance) =>
              if decide (currentNode = "") then Some st
              else match minDistance with
                   | Infinity => Some st
                   | Fin _ =>
                       if decide (currentNode = destId) then Some st
                       else main_loop fuel' destId (visit currentNode st)
                   end
          end
      end
  end.

(** [Map.get(key)] where the key itself may be [undefined]. *)
Definition map_get {V} (m : gmap string V) (key : option string) : option V :=
  match key with
  | Some k => m !! k
  | None => None
  end.

(** The predicate of [network.edges.find] on lines 80-84 and 155-159. *)
Definition joins {Id} `{EqDecision Id} (a b : Id) (e : NetworkEdge Id) : bool :=
  bool_decide (edge_from e = a ∧ edge_to e = b)
  || bool_decide (edge_to e = a ∧ edge_from e = b).

Definition find_node (net : Network string) (key : option string)
    : option (NetworkNode string) :=
  List.find (λ n, bool_decide (Some (node_id n) = key)) (nodes net).

Definition find_edge (net : Network string) (prev current : option string)
    : option (NetworkEdge string) :=
  List.find
    (λ e, bool_decide (Some (edge_from e) = prev ∧ Some (edge_to e) = current)
          || bool_decide (Some (edge_to e) = prev ∧ Some (edge_from e) = current))
    (edges net).

(** Lines 78-92.  [previous.get(current) !== null] is true both for a
    string and for [undefined]; [current] becomes [undefined] when it is
    assigned such a [prev]. *)
Fixpoint rebuild (fuel : nat) (st : DState) (current : option string)
    (acc : list PathSegment) : option (list PathSegment) :=
  match fuel with
  | O => None
  | S fuel' =>
      match map_get (previous st) current with
      | Some None => Some acc
      | got =>
          let prev : option string := mjoin got in
          let acc' :=
            match find_edge (network st) prev current with
            | Some edge =>
                {| seg_from := find_node (network st) prev;
                   seg_to := find_node (network st) current;
                   seg_edge := edge |} :: acc
            | None => acc
            end in
          rebuild fuel' st prev acc'
      end
  end.

(** The whole function, with the final store next to the returned path. *)
Definition dijkstra_run (fuel : nat) (net : Network string)
    (sourceId destId : string) : option (DState * list PathSegment) :=
  st ← main_loop fuel destId (init_state net sourceId);
  p ← rebuild fuel st (Some destId) [];
  Some (st, p).

Definition dijkstra (fuel : nat) (net : Network string)
    (sourceId destId : string) : option (list PathSegment) :=
  snd <$> dijkstra_run fuel net sourceId destId.

(** ** getDefaultNetwork (lines 178-199) *)

Definition getDefaultNetwork : Network string :=
  {| nodes :=
       [ mkNode "A" "A" (150#1) (250#1) router;
         mkNode "B" "B" (300#1) (150#1) router;
         mkNode "C" "C" (300#1) (350#1) router;
         mkNode "D" "D" (500#1) (100#1) router;
         mkNode "E" "E" (500#1) (300#1) router;
         mkNode "F" "F" (700#1) (200#1) router ];
     edges :=
       [ mkEdge "A" "B" 7; mkEdge "A" "C" 9; mkEdge "B" "D" 10;
         mkEdge "B" "C" 10; mkEdge "C" "E" 2; mkEdge "D" "F" 15;
         mkEdge "D" "E" 6; mkEdge "E" "F" 7 ] |}.

Definition total_cost (p : list PathSegment) : Z :=
  foldr (λ seg sum, edge_cost (seg_edge seg) + sum) 0 p.

(** ** handleSendPacket (lines 388-421) *)

(** [!value] for a [string | null]: true for [null] and for the empty
    string. *)
Definition falsy (value : option string) : bool :=
  match value with
  | None => true
  | Some v => bool_decide (v = "")
  end.

(** [path.reduce((sum, seg) => sum + seg.edge.cost, 0)], over the
    integers. *)
Definition reduce_cost (p : list PathSegment) : Z :=
  fold_left (λ sum seg, sum + edge_cost (seg_edge seg)) p 0.

(** The handler, as a function of the network and the simulation state it
    closes over, to the state after its [setState]; [None] when [dijkstra]
    has not returned within [fuel]. *)
Definition handleSendPacket (fuel : nat) (net : Network string)
    (state : SimulationState) : option SimulationState :=
  if falsy (sourceNodeId state) || falsy (destinationNodeId state)
  then Some state
  else if decide (sourceNodeId state = destinationNodeId state) then
    Some {| sourceNodeId := sourceNodeId state;
            destinationNodeId := destinationNodeId state;
            path := path state;
            isAnimating := isAnimating state;
            isComplete := false;
            message := "Source and destination must be different nodes" |}
  else
    match sourceNodeId state, destinationNodeId state with
    | Some src, Some dst =>
        match dijkstra fuel net src dst with
        | None => None
        | Some [] =>
            Some {| sourceNodeId := sourceNodeId state;
                    destinationNodeId := destinationNodeId state;
                    path := path state;
                    isAnimating := isAnimating state;
                    isComplete := false;
                    message := "No path found between selected nodes" |}
        | Some p =>
            let totalCost := reduce_cost p in
            Some {| sourceNodeId := sourceNodeId state;
                    destinationNodeId := destinationNodeId state;
                    path := p;
                    isAnimating := true;
                    isComplete := false;
                    message :=
                      "Calculating route using Dijkstra's Algorithm... Total cost: "
                      +:+ pretty totalCost |}
        end
    | _, _ => Some state
    end.

(** ** Paths of a network, for the statements *)

Section Graph.
Context {Id : Type} `{EqDecision Id}.

Definition is_node (net : Network Id) (a : Id) : Prop :=
    a ∈ map node_id (nodes net).

  (** [e] is an edge of the network between [a] and [b], in either
      direction. *)
Definition hop (net : Network Id) (a b : Id) (e : NetworkEdge Id) : Prop :=
    e ∈ edges net ∧ joins a b e = true.

  (** [walk net a b c]: a path of the network from node [a] to node [b],
      through nodes of the network, whose edges cost [c] in total. *)
Inductive walk (net : Network Id) (a : Id) : Id → Z → Prop :=
  | walk_here : is_node net a → walk net a a 0
  | walk_step b b' e c :
      walk net a b c → hop net b b' e → is_node net b' →
      walk net a b' (c + edge_cost e).

Definition reachable (net : Network Id) (a b : Id) : Prop :=
    ∃ c, walk net a b c.

Definition min_cost (net : Network Id) (a b : Id) (c : Z) : Prop :=
    walk net a b c ∧ ∀ c', walk net a b c' → c ≤ c'.

Definition connected (net : Network Id) : Prop :=
    ∀ a b, is_node net a → is_node net b → reachable net a b.

  (** Among the edges between the same two nodes, the one [find] meets
      first is a cheapest one. *)
Definition first_edge_cheapest (net : Network Id) : Prop :=
    ∀ a b e e0,
      hop net a b e → List.find (joins a b) (edges net) = Some e0 →
      edge_cost e0 ≤ edge_cost e.

Definition no_parallel_edges (net : Network Id) : Prop :=
    ∀ i j e e', edges net !! i = Some e → edges net !! j = Some e' →
      joins (edge_from e) (edge_to e) e' = true → i = j.
End Graph.

(** A sequence of segments that leads from node [a] to node [b]: each
    segment carries the two node records and an edge between them, and each
    segment starts where the one before it ends. *)
Inductive route (net : Network string) (a : string)
    : string → list PathSegment → Prop :=
| route_nil : route net a a []
| route_snoc b b' p nb nb' e :
    route net a b p →
    nb ∈ nodes net → node_id nb = b →
    nb' ∈ nodes net → node_id nb' = b' →
    hop net b b' e →
    route net a b' (p ++ [mkSeg (Some nb) (Some nb') e]).

Fixpoint chained (p : list PathSegment) : Prop :=
  match p with
  | s1 :: ((s2 :: _) as rest) => seg_to s1 = seg_from s2 ∧ chained rest
  | _ => True
  end.

(** ** generateRandomNetwork (lines 102-172) *)

Definition labels : list string :=
  ["A"; "B"; "C"; "D"; "E"; "F"; "G"; "H"; "I"; "J"].

Definition minDistance : Q := 100 # 1.

(** A computation that calls [Math.random()]: it is given the number of
    calls made so far and answers its value with the new number of calls,
    or [None] when a [TypeError] was thrown. *)
Definition Gen (A : Type) : Type := nat → option (A * nat).

#[export] Instance gen_ret : MRet Gen := λ A a k, Some (a, k).
#[export] Instance gen_bind : MBind Gen := λ A B f m k,
  match m k with
  | Some (a, k') => f a k'
  | None => None
  end.

(** Reading a property of [undefined] throws. *)
Definition defined {A} (o : option A) : Gen A := λ k,
  match o with
  | Some a => Some (a, k)
  | None => None
  end.

(** [arr[i]] for a number [i] that is an integer. *)
Definition js_nth {A} (arr : list A) (i : Z) : option A :=
  if decide (0 ≤ i) then arr !! Z.to_nat i else None.

(** A counted [for] loop over the indices [idxs], threading [a]. *)
Fixpoint for_each {A} (body : A → nat → Gen A) (idxs : list nat) (a : A)
    : Gen A :=
  match idxs with
  | [] => mret a
  | i :: rest => a' ← body a i; for_each body rest a'
  end.

Record Placement := mkPlacement {
  p_x : Q;
  p_y : Q;
  validPosition : bool;
  attempts : nat
}.

Section Generator.
  (** [random k] is what the call number [k] of [Math.random()] returns. *)
Variable random : nat → Q.

Definition Math_random : Gen Q := λ k, Some (random k, S k).

  (** Lines 120-124; [Math.sqrt(dx*dx + dy*dy) >= minDistance] is read over
      the reals, where it says [dx*dx + dy*dy >= minDistance^2].  The code
      evaluates it in binary64, and may decide a candidate within a rounding
      error of the distance 100 the other way. *)
Definition far_enough (x y : Q) (node : NetworkNode (option string))
      : bool :=
    let dx := (node_x node - x)%Q in
    let dy := (node_y node - y)%Q in
    Qle_bool (minDistance * minDistance) (dx * dx + dy * dy).

  (** Lines 115-127.  [budget] is [100 - attempts]. *)
Fixpoint place (budget : nat) (placed : list (NetworkNode (option string)))
      (p : Placement) : Gen Placement :=
    match budget with
    | O => mret p
    | S budget' =>
        if validPosition p then mret p
        else
          r1 ← Math_random;
          r2 ← Math_random;
          let x := ((100 # 1) + r1 * (700 # 1))%Q in
          let y := ((80 # 1) + r2 * (400 # 1))%Q in
          place budget' placed
            {| p_x := x; p_y := y;
               validPosition := forallb (far_enough x y) placed;
               attempts := S (attempts p) |}
    end.

  (** Lines 110-135, the body of the first [for] loop. *)
Definition place_node (placed : list (NetworkNode (option string)))
      (i : nat) : Gen (list (NetworkNode (option string))) :=
    p ← place 100 placed
          {| p_x := 0; p_y := 0; validPosition := false; attempts := 0 |};
    mret (placed ++ [mkNode (labels !! i) (labels !! i) (p_x p) (p_y p) router]).

  (** [Math.floor(Math.random() * 15) + 5]. *)
Definition random_cost : Gen Z :=
    r ← Math_random; mret (Qfloor (r * (15 # 1)) + 5).

  (** Lines 140-145, the body of the second [for] loop. *)
Definition tree_step (placed : list (NetworkNode (option string)))
      (es : list (NetworkEdge (option string))) (i : nat)
      : Gen (list (NetworkEdge (option string))) :=
    r ← Math_random;
    let j := Qfloor (r * inject_Z (Z.of_nat i)) in
    ni ← defined (placed !! i);
    nj ← defined (js_nth placed j);
    c ← random_cost;
    mret (es ++ [mkEdge (node_id ni) (node_id nj) c]).

Definition spanning_tree (placed : list (NetworkNode (option string)))
      : Gen (list (NetworkEdge (option string))) :=
    for_each (tree_step placed) (seq 1 (length placed - 1)) [].

  (** Lines 151-168, the body of the third [for] loop. *)
Definition extra_step (placed : list (NetworkNode (option string)))
      (es : list (NetworkEdge (option string))) (i : nat)
      : Gen (list (NetworkEdge (option string))) :=
    r1 ← Math_random;
    let from := js_nth placed (Qfloor (r1 * inject_Z (Z.of_nat (length placed)))) in
    r2 ← Math_random;
    let to := js_nth placed (Qfloor (r2 * inject_Z (Z.of_nat (length placed)))) in
    from ← defined from;
    to ← defined to;
    if decide (node_id from ≠ node_id to) then
      if existsb (joins (node_id from) (node_id to)) es then mret es
      else
        c ← random_cost;
        mret (es ++ [mkEdge (node_id from) (node_id to) c])
    else mret es.

Definition generateRandomNetwork (nodeCount : nat)
      : Gen (Network (option string)) :=
    placed ← for_each place_node (seq 0 nodeCount) [];
    tree ← spanning_tree placed;
    r ← Math_random;
    let additionalEdges := Qfloor (r * (3 # 1)) + 2 in
    es ← for_each (extra_step placed) (seq 0 (Z.to_nat additionalEdges)) tree;
    mret {| nodes := placed; edges := es |}.
End Generator.

(** ** binary64 arithmetic *)

(** A JavaScript number is a binary64 number.  A finite one is kept as the
    rational it stands for, and an operation of the code is the exact
    operation followed by [round64], the rounding to the nearest binary64
    number, to the even one at a tie. *)

(** [2^e], for every integer [e]. *)
Definition pow2 (e : Z) : Q := ((2 # 1) ^ e)%Q.

(** The binade of [q > 0]: the [e] with [2^e <= q < 2^(e+1)]. *)
Definition ilog2 (q : Q) : Z :=
  let e0 := Z.log2 (Qnum q) - Z.log2 (Zpos (Qden q)) in
  if Qle_bool (pow2 e0) q then e0 else e0 - 1.

(** The integer nearest to [t], the even one when two are as near. *)
Definition round_half_even (t : Q) : Z :=
  let f := Qfloor t in
  match Qcompare (t - inject_Z f) (1 # 2) with
  | Lt => f
  | Gt => f + 1
  | Eq => if Z.even f then f else f + 1
  end.

(** For [q > 0].  The binary64 numbers around [q] are the multiples of
    [2^s] with [s = max(e - 52, -1074)], [e] the binade of [q] (a significand
    of 53 bits, subnormal numbers below [2^-1022]); [None] is [Infinity],
    which the rounding gives from [2^1024 - 2^970] on. *)
Definition round64_pos (q : Q) : option Q :=
  let s := Z.max (ilog2 q - 52) (-1074) in
  let r := (inject_Z (round_half_even (q / pow2 s)) * pow2 s)%Q in
  if Qle_bool (pow2 1024) r then None else Some r.

(** [None] is [Infinity] for a positive [q] and [-Infinity] for a negative
    one. *)
Definition round64 (q : Q) : option Q :=
  match Qcompare q 0 with
  | Eq => Some 0%Q
  | Gt => round64_pos q
  | Lt => option_map Qopp (round64_pos (- q))
  end.

(** [q] is a binary64 number: rounding leaves it as it is. *)
Definition binary64 (q : Q) : Prop :=
  ∃ r, round64 q = Some r ∧ (r == q)%Q.

(** [path.reduce((sum, seg) => sum + seg.edge.cost, 0)] of line 411 as
    binary64 computes it, every sum rounded; [None] is [Infinity].
    [reduce_cost] is this sum over the integers. *)
Definition reduce_cost64 (p : list PathSegment) : option Q :=
  fold_left
    (λ sum seg, s ← sum; round64 (s + inject_Z (edge_cost (seg_edge seg))))
    p (Some 0%Q).

(** ** renderNetwork, the packet (lines 317-348) *)

(** What the last block of [renderNetwork] puts on the canvas: nothing, or
    the packet at [(x, y)], found on segment [index] at [fraction];
    [RenderError] when a property of [undefined] is read.

    [segmentProgress] is the binary64 product (line 319).  [Math.floor] is
    exact, and so is the subtraction of line 321, the difference of a
    binary64 number and its floor being a binary64 number.  When the product
    is [Infinity] so is its floor, and the test of line 323 fails.  [x] and
    [y] are the real numbers of which lines 325-328 compute the binary64
    approximations. *)
Inductive Drawn :=
| NoPacket
| PacketAt (index : Z) (fraction x y : Q)
| RenderError.

Definition renderPacket (state : SimulationState) (packetProgress : Q)
    : Drawn :=
  if isAnimating state
     && bool_decide (0 < length (path state))%nat
     && (if Qlt_le_dec 0 packetProgress then true else false)
  then
    let totalSegments := inject_Z (Z.of_nat (length (path state))) in
    match round64 (packetProgress * totalSegments) with
    | Some segmentProgress =>
        let currentSegmentIndex := Qfloor segmentProgress in
        let segmentFraction :=
          (segmentProgress - inject_Z currentSegmentIndex)%Q in
        if decide (currentSegmentIndex < Z.of_nat (length (path state))) then
          match js_nth (path state) currentSegmentIndex with
          | Some segment =>
              match seg_from segment, seg_to segment with
              | Some f, Some t =>
                  PacketAt currentSegmentIndex segmentFraction
                    (node_x f + (node_x t - node_x f) * segmentFraction)%Q
                    (node_y f + (node_y t - node_y f) * segmentFraction)%Q
              | _, _ => RenderError
              end
          | None => RenderError
          end
        else NoPacket
    | None => NoPacket
    end
  else NoPacket.

(** ** animatePacket (lines 357-382) *)

Definition duration : Z := 2500.

Inductive Event :=
| Rendered (progress : Q)
| Scheduled
| Completed.

(** [animationRef.current], the simulation state, what the run has done so
    far, and the next handle [requestAnimationFrame] hands out. *)
Record Clock := mkClock {
  animationRef : option nat;
  sim : SimulationState;
  log : list Event;
  next_handle : nat
}.

Definition progress_at (startTime now : Z) : Q :=
  Qmin (inject_Z (now - startTime) / inject_Z duration) 1.

(** Lines 361-379, the callback, run when the clock reads [now].  The
    message is the text of line 376 as the source file has it, in UTF-8. *)
Definition animate (startTime now : Z) (c : Clock) : Clock :=
  let progress := progress_at startTime now in
  if Qlt_le_dec progress 1 then
    {| animationRef := Some (next_handle c);
       sim := sim c;
       log := log c ++ [Rendered progress; Scheduled];
       next_handle := S (next_handle c) |}
  else
    {| animationRef := None;
       sim := {| sourceNodeId := sourceNodeId (sim c);
                 destinationNodeId := destinationNodeId (sim c);
                 path := path (sim c);
                 isAnimating := false;
                 isComplete := true;
                 message := "Packet Delivered Successfully! âœ“" |};
       log := log c ++ [Rendered progress; Completed];
       next_handle := next_handle c |}.

(** Line 381. *)
Definition animatePacket (c : Clock) : Clock :=
  {| animationRef := Some (next_handle c);
     sim := sim c;
     log := log c ++ [Scheduled];
     next_handle := S (next_handle c) |}.

(** A display frame at time [now]: the callback runs when one is
    scheduled. *)
Definition frame (startTime : Z) (c : Clock) (now : Z) : Clock :=
  match animationRef c with
  | Some _ => animate startTime now c
  | None => c
  end.

(** A run: [animatePacket] at [startTime], then the frames in order. *)
Definition clock_run (startTime : Z) (frames : list Z) (c : Clock) : Clock :=
  fold_left (frame startTime) frames (animatePacket c).

Definition is_completed (e : Event) : bool :=
  match e with
  | Completed => true
  | _ => false
  end.

Definition completions (l : list Event) : nat :=
  length (List.filter is_completed l).

(** ** Notions used in the proofs about [dijkstra] *)

Definition ids (net : Network string) : list string := map node_id (nodes net).

(** Why the loop was left. *)
Definition stopped (destId : string) (st : DState) : Prop :=
  unvisited st = [] ∨
  match find_min st with
  | (None, _) => True
  | (Some c, m) => c = "" ∨ m = Infinity ∨ c = destId
  end.

(** The unvisited set and the keys of [previous] are node ids. *)
Definition keys_ok (st : DState) : Prop :=
  (∀ k, k ∈ unvisited st → k ∈ ids (network st)) ∧
  (∀ k, is_Some (previous st !! k) → k ∈ ids (network st)).

(** [vis] lists the nodes taken out of [unvisited], the latest first;
    [age vis k] is the position of [k] counted from the end of [vis], and 0
    when [k] is not in [vis]. *)
Fixpoint age (vis : list string) (k : string) : nat :=
  match vis with
  | [] => 0
  | a :: l => if decide (a = k) then S (length l) else age l k
  end.

(** [p] was visited, and before [v] was (if [v] was at all). *)
Definition older (vis : list string) (p v : string) : Prop :=
  (0 < age vis p)%nat ∧ (age vis v = 0%nat ∨ (age vis p < age vis v)%nat).

(** The relaxations that [relax_edge u] performs on an edge, in order: the
    neighbour with the edge. *)
Definition targets (u : string) (e : NetworkEdge string)
    : list (string * NetworkEdge string) :=
  (if decide (edge_from e = u) then [(edge_to e, e)] else [])
  ++ (if decide (edge_to e = u) then [(edge_from e, e)] else []).

Definition relax_to (u : string) (st : DState)
    (t : string * NetworkEdge string) : DState :=
  relax u (t.1) (edge_cost (t.2)) st.

(** The loop invariant of lines 31-72 for network [g] and source [s], when
    the nodes of [vis] have been visited. *)
Record Inv (g : Network string) (s : string) (vis : list string)
    (st : DState) : Prop := mkInv {
  inv_net : network st = g;
  inv_unv : ∀ k, k ∈ unvisited st ↔ k ∈ ids g ∧ k ∉ vis;
  inv_vis : ∀ k, k ∈ vis → k ∈ ids g;
  inv_nodup : NoDup vis;
  inv_dom : ∀ k, k ∈ ids g → is_Some (distances st !! k);
  inv_key : ∀ k, is_Some (distances st !! k) → k ∈ ids g;
  inv_src_d : distances st !! s = Some (Fin 0);
  inv_src_p : previous st !! s = Some None;
  inv_done : ∀ v, v ∈ vis →
    ∃ z, distances st !! v = Some (Fin z) ∧ min_cost g s v z;
  inv_relaxed : ∀ v z w e,
    v ∈ vis → distances st !! v = Some (Fin z) → hop g v w e → w ∈ ids g →
    ∃ z', distances st !! w = Some (Fin z') ∧ z' ≤ z + edge_cost e;
  inv_prev : ∀ v z, distances st !! v = Some (Fin z) → v ≠ s →
    ∃ p zp e, previous st !! v = Some (Some p) ∧
              distances st !! p = Some (Fin zp) ∧
              hop g p v e ∧ z = zp + edge_cost e ∧ older vis p v
}.

(** What the relaxations [ts], all from [u] at distance [z], have done to
    turn store [a] into store [b]. *)
Definition relaxed_from (u : string) (z : Z)
    (ts : list (string * NetworkEdge string)) (a b : DState) : Prop :=
  network b = network a ∧ unvisited b = unvisited a ∧
  (∀ k, (distances b !! k = distances a !! k ∧
         previous b !! k = previous a !! k)
        ∨ (k ∈ unvisited a ∧
           ∃ e dk, (k, e) ∈ ts ∧
                distances b !! k = Some (Fin (z + edge_cost e)) ∧
                previous b !! k = Some (Some u) ∧
                distances a !! k = Some dk ∧
                num_ltb (Fin (z + edge_cost e)) dk = true)) ∧
  (∀ k dk, distances a !! k = Some dk →
           ∃ dk', distances b !! k = Some dk' ∧ num_ltb dk dk' = false) ∧
  (∀ w e dw, (w, e) ∈ ts → w ∈ unvisited a → distances a !! w = Some dw →
             ∃ z', distances b !! w = Some (Fin z') ∧ z' ≤ z + edge_cost e).

(** How many turns of the reconstruction loop the node [v] may need. *)
Definition turns (vis : list string) (v : string) : nat :=
  if decide (v ∈ vis) then age vis v else S (length vis).

(** Two nodes joined by two edges of different cost, the dearer one
    first. *)
Definition parallel_network : Network string :=
  {| nodes := [ mkNode "A" "A" (0#1) (0#1) router;
                mkNode "B" "B" (100#1) (0#1) router ];
     edges := [ mkEdge "A" "B" 10; mkEdge "A" "B" 1 ] |}.

(** A check of [first_edge_cheapest] that computes. *)
Definition first_edge_cheapest_check (net : Network string) : bool :=
  forallb
    (λ e, match List.find (joins (edge_from e) (edge_to e)) (edges net) with
          | Some e0 => edge_cost e0 <=? edge_cost e
          | None => true
          end)
    (edges net).

(** A segment of a returned path carries the first edge of the network,
    in edge order, between the two ids it was looked up for. *)
Definition first_match (net : Network string) (seg : PathSegment) : Prop :=
  ∃ a b, List.find (joins a b) (edges net) = Some (seg_edge seg) ∧
         seg_from seg = find_node net (Some a) ∧
         seg_to seg = find_node net (Some b).

(** ** Notions used in the proofs about [generateRandomNetwork] *)

(** Two sources of draws: always 0, and always 15/16. *)
Definition random_low : nat → Q := λ _, 0%Q.
Definition random_high : nat → Q := λ _, (15 # 16)%Q.

(** Every draw of [Math.random()] lies in [0, 1). *)
Definition unit_range (random : nat → Q) : Prop :=
  ∀ k, (0 <= random k)%Q ∧ (random k < 1)%Q.

(** The position that attempt number [j] (from 0) draws when the attempts
    start at call [k], and whether it is far enough from the placed
    nodes. *)
Definition candidate (random : nat → Q) (k j : nat) : Q * Q :=
  (((100 # 1) + random (k + 2 * j)%nat * (700 # 1))%Q,
   ((80 # 1) + random (k + 2 * j + 1)%nat * (400 # 1))%Q).

Definition candidate_ok (random : nat → Q)
    (placed : list (NetworkNode (option string))) (k j : nat) : bool :=
  forallb (far_enough (candidate random k j).1 (candidate random k j).2) placed.

(** ** Notions used in the proofs about the animation *)

(** One segment from A to B of the default network. *)
Definition segment_A_B : PathSegment :=
  mkSeg (Some (mkNode "A" "A" (150#1) (250#1) router))
        (Some (mkNode "B" "B" (300#1) (150#1) router))
        (mkEdge "A" "B" 7).

(** The frames of a run that find a callback scheduled: those up to and
    including the first one at which [duration] has elapsed. *)
Fixpoint live_frames (startTime : Z) (frames : list Z) : list Z :=
  match frames with
  | [] => []
  | t :: rest =>
      if decide (t - startTime < duration)
      then t :: live_frames startTime rest
      else [t]
  end.

(** What the callback appends to the log at a live frame. *)
Definition frame_events (startTime t : Z) : list Event :=
  [Rendered (progress_at startTime t);
   if decide (t - startTime < duration) then Scheduled else Completed].

(** Some frame comes once [duration] has elapsed. *)
Definition finishes (startTime : Z) (frames : list Z) : bool :=
  existsb (λ t, bool_decide (duration ≤ t - startTime)) frames.

(** ** Notions used in the further properties *)

(** What every store of the main loop satisfies, whatever the network: no
    hypothesis on costs, ids or edges. *)
Record Shape (g : Network string) (s : string) (vis : list string)
    (st : DState) : Prop := mkShape {
  sh_net : network st = g;
  sh_unv : ∀ k, k ∈ unvisited st → k ∈ ids g ∧ k ∉ vis;
  sh_vis : ∀ k, k ∈ vis → k ∈ ids g;
  sh_nodup : NoDup vis;
  sh_pdom : ∀ k, k ∈ ids g → is_Some (previous st !! k);
  sh_pkey : ∀ k, is_Some (previous st !! k) → k ∈ ids g;
  sh_done : ∀ v, v ∈ vis → ∃ z, distances st !! v = Some (Fin z);
  sh_reach : ∀ v z, distances st !! v = Some (Fin z) → reachable g s v;
  sh_null : ∀ v z, distances st !! v = Some (Fin z) →
                   previous st !! v = Some None → v = s;
  sh_prev : ∀ v p, previous st !! v = Some (Some p) →
    (∃ z, distances st !! v = Some (Fin z)) ∧ older vis p v ∧
    ∃ e, hop g p v e
}.

(** A segment is resolved: its two node records are nodes of the network
    and its edge is an edge of the network between their ids. *)
Definition resolved (net : Network string) (seg : PathSegment) : Prop :=
  ∃ nf nt, seg_from seg = Some nf ∧ seg_to seg = Some nt ∧
           nf ∈ nodes net ∧ nt ∈ nodes net ∧
           hop net (node_id nf) (node_id nt) (seg_edge seg).

(** The drawing area of the generator: [100 <= x < 800], [80 <= y < 480]. *)
Definition in_canvas {Id} (nd : NetworkNode Id) : Prop :=
  (100 # 1 <= node_x nd)%Q ∧ (node_x nd < 800 # 1)%Q ∧
  (80 # 1 <= node_y nd)%Q ∧ (node_y nd < 480 # 1)%Q.

(** The square of the distance between a point and a node. *)
Definition distance2 {Id} (x y : Q) (nd : NetworkNode Id) : Q :=
  ((node_x nd - x) * (node_x nd - x) + (node_y nd - y) * (node_y nd - y))%Q.

(** ** A generated network as the interfaces type it *)

(** [Network] of shared/schema.ts declares ids and labels as strings: a
    network is read at that type when none of them is [undefined]. *)
Definition typed_node (nd : NetworkNode (option string))
    : option (NetworkNode string) :=
  match node_id nd, node_label nd with
  | Some i, Some l =>
      Some (mkNode i l (node_x nd) (node_y nd) (node_type nd))
  | _, _ => None
  end.

Definition typed_edge (e : NetworkEdge (option string))
    : option (NetworkEdge string) :=
  match edge_from e, edge_to e with
  | Some f, Some t => Some (mkEdge f t (edge_cost e))
  | _, _ => None
  end.

Definition typed (net : Network (option string)) : option (Network string) :=
  ns ← mapM typed_node (nodes net);
  es ← mapM typed_edge (edges net);
  Some (mkNetwork ns es).

(** ** The highlight of an edge (renderNetwork, lines 240-244) *)

(** The predicate of [state.path.some]: [&&] and [||] read [seg.to.id] only
    when the comparison before it holds, and reading [.id] of [undefined]
    throws ([None]). *)
Definition seg_matches (edge : NetworkEdge string) (seg : PathSegment)
    : option bool :=
  match seg_from seg with
  | None => None
  | Some nf =>
      let second :=
        if bool_decide (node_id nf = edge_to edge) then
          match seg_to seg with
          | None => None
          | Some nt => Some (bool_decide (node_id nt = edge_from edge))
          end
        else Some false in
      if bool_decide (node_id nf = edge_from edge) then
        match seg_to seg with
        | None => None
        | Some nt =>
            if bool_decide (node_id nt = edge_to edge) then Some true
            else second
        end
      else second
  end.

(** [some] stops at the first segment that matches. *)
Fixpoint isInPath (p : list PathSegment) (edge : NetworkEdge string)
    : option bool :=
  match p with
  | [] => Some false
  | seg :: rest =>
      match seg_matches edge seg with
      | None => None
      | Some true => Some true
      | Some false => isInPath rest edge
      end
  end.

(** ** binary64 rounding *)

Lemma pow2_pos e : (0 < pow2 e)%Q.
Proof. unfold pow2. by apply Qpower_0_lt. Qed.

Lemma pow2_add a b : (pow2 (a + b) == pow2 a * pow2 b)%Q.
Proof. unfold pow2. by apply Qpower_plus. Qed.

Lemma pow2_Z e : 0 ≤ e → (pow2 e == inject_Z (2 ^ e))%Q.
Proof. intros He. unfold pow2. by rewrite Zpower_Qpower. Qed.

Lemma pow2_le a b : a ≤ b → (pow2 a <= pow2 b)%Q.
Proof.
  intros Hab. replace b with (a + (b - a)) by lia. rewrite pow2_add.
  rewrite <- (Qmult_1_r (pow2 a)) at 1.
  apply Qmult_le_l; [apply pow2_pos |].
  rewrite pow2_Z by lia. change 1%Q with (inject_Z 1). rewrite <- Zle_Qle.
  pose proof (Z.pow_pos_nonneg 2 (b - a)). lia.
Qed.

Lemma pow2_lt a b : a < b → (pow2 a < pow2 b)%Q.
Proof.
  intros Hab. replace b with (a + (b - a)) by lia. rewrite pow2_add.
  rewrite <- (Qmult_1_r (pow2 a)) at 1.
  apply Qmult_lt_l; [apply pow2_pos |].
  rewrite pow2_Z by lia. change 1%Q with (inject_Z 1). rewrite <- Zlt_Qlt.
  apply Z.pow_gt_1; lia.
Qed.

Lemma pow2_lt_inv a b : (pow2 a < pow2 b)%Q → a < b.
Proof.
  intros Hlt. destruct (Z_lt_le_dec a b) as [? | Hle]; [done |].
  apply pow2_le in Hle. exfalso. apply (Qlt_irrefl (pow2 a)).
  eapply Qlt_le_trans; eauto.
Qed.

Lemma Q_as_div (q : Q) : (q == inject_Z (Qnum q) / inject_Z (Zpos (Qden q)))%Q.
Proof. destruct q as [a b]. simpl. apply Qmake_Qdiv. Qed.

Lemma ilog2_spec (q : Q) :
  (0 < q)%Q → (pow2 (ilog2 q) <= q)%Q ∧ (q < pow2 (ilog2 q + 1))%Q.
Proof.
  intros Hq.
  assert (0 < Qnum q) as Ha.
  { destruct q as [a b]. unfold Qlt in Hq. simpl in *. lia. }
  set (a := Qnum q) in *. set (b := Zpos (Qden q)).
  assert (0 < b) as Hb by (unfold b; lia).
  pose proof (Z.log2_spec a Ha) as [Ha1 Ha2].
  pose proof (Z.log2_spec b Hb) as [Hb1 Hb2].
  pose proof (Z.log2_nonneg a) as Hla. pose proof (Z.log2_nonneg b) as Hlb.
  set (la := Z.log2 a) in *. set (lb := Z.log2 b) in *.
  assert (0 < inject_Z b)%Q as HbQ.
  { change 0%Q with (inject_Z 0). by rewrite <- Zlt_Qlt. }
  assert (pow2 (la - lb - 1) <= q)%Q as Hlow.
  { rewrite (Q_as_div q). fold a b. apply Qle_shift_div_l; [done |].
    apply Qle_trans with (pow2 (la - lb - 1) * pow2 (lb + 1))%Q.
    - apply Qmult_le_l; [apply pow2_pos |].
      rewrite pow2_Z by lia. rewrite <- Zle_Qle.
      replace (lb + 1) with (Z.succ lb) by lia. lia.
    - rewrite <- pow2_add. replace (la - lb - 1 + (lb + 1)) with la by lia.
      rewrite pow2_Z by lia. by rewrite <- Zle_Qle. }
  assert (q < pow2 (la - lb + 1))%Q as Hhigh.
  { rewrite (Q_as_div q). fold a b. apply Qlt_shift_div_r; [done |].
    apply Qlt_le_trans with (pow2 (la - lb + 1) * pow2 lb)%Q.
    - rewrite <- pow2_add. replace (la - lb + 1 + lb) with (Z.succ la) by lia.
      rewrite pow2_Z by lia. by rewrite <- Zlt_Qlt.
    - apply Qmult_le_l; [apply pow2_pos |].
      rewrite pow2_Z by lia. by rewrite <- Zle_Qle. }
  unfold ilog2. fold a b la lb.
  destruct (Qle_bool (pow2 (la - lb)) q) eqn:Hc.
  - apply Qle_bool_iff in Hc. split; [done |]. done.
  - split; [done |]. replace (la - lb - 1 + 1) with (la - lb) by lia.
    apply Qnot_le_lt. intros Hle. apply Qle_bool_iff in Hle. congruence.
Qed.

Lemma ilog2_unique (q : Q) (e : Z) :
  (pow2 e <= q)%Q → (q < pow2 (e + 1))%Q → ilog2 q = e.
Proof.
  intros Hlo Hhi.
  assert (0 < q)%Q as Hq by (eapply Qlt_le_trans; [apply pow2_pos | done]).
  destruct (ilog2_spec q Hq) as [Hlo' Hhi'].
  assert (e < ilog2 q + 1) as H1.
  { apply pow2_lt_inv. eapply Qle_lt_trans; eauto. }
  assert (ilog2 q < e + 1) as H2.
  { apply pow2_lt_inv. eapply Qle_lt_trans; eauto. }
  lia.
Qed.

Lemma round_half_even_ge_floor t : Qfloor t ≤ round_half_even t.
Proof.
  unfold round_half_even. destruct (Qcompare _ _); [| lia..].
  destruct (Z.even _); lia.
Qed.

Lemma round_half_even_le t :
  (inject_Z (round_half_even t) <= t + (1 # 2))%Q.
Proof.
  pose proof (Qfloor_le t) as Hf. unfold round_half_even.
  assert (inject_Z (Qfloor t) <= t + (1 # 2))%Q as Hdown.
  { rewrite <- (Qplus_0_r (inject_Z (Qfloor t))).
    apply Qplus_le_compat; [done | discriminate]. }
  assert ((1 # 2 <= t - inject_Z (Qfloor t))%Q →
          (inject_Z (Qfloor t + 1) <= t + (1 # 2))%Q) as Hup.
  { intros Hh. rewrite inject_Z_plus.
    pose proof (Qplus_le_compat _ _ _ _ Hh
                  (Qle_refl (inject_Z (Qfloor t) + (1 # 2)))) as Hsum.
    assert (inject_Z (Qfloor t) + inject_Z 1
            == (1 # 2) + (inject_Z (Qfloor t) + (1 # 2)))%Q as -> by ring.
    assert (t + (1 # 2)
            == t - inject_Z (Qfloor t) + (inject_Z (Qfloor t) + (1 # 2)))%Q
      as -> by ring.
    exact Hsum. }
  destruct (Qcompare (t - inject_Z (Qfloor t)) (1 # 2)) eqn:Hc.
  - apply Qeq_alt in Hc.
    destruct (Z.even _); [done |]. apply Hup. rewrite Hc. apply Qle_refl.
  - done.
  - apply Qgt_alt in Hc. apply Hup. by apply Qlt_le_weak.
Qed.

Lemma round_half_even_ge_int t z :
  (inject_Z z <= t)%Q → z ≤ round_half_even t.
Proof.
  intros Hz. apply Qfloor_resp_le in Hz. rewrite Qfloor_Z in Hz.
  pose proof (round_half_even_ge_floor t). lia.
Qed.

Lemma round_half_even_lt_half t z :
  (t < inject_Z z - (1 # 2))%Q → round_half_even t ≤ z - 1.
Proof.
  intros Ht. pose proof (round_half_even_le t) as Hle.
  assert (inject_Z (round_half_even t) < inject_Z z)%Q as Hlt.
  { eapply Qle_lt_trans; [exact Hle |].
    apply (Qplus_lt_l _ _ (- (1 # 2))).
    assert (t + (1 # 2) + - (1 # 2) == t)%Q as -> by ring. done. }
  rewrite <- Zlt_Qlt in Hlt. lia.
Qed.

Lemma round64_positive q : (0 < q)%Q → round64 q = round64_pos q.
Proof.
  intros Hq. unfold round64. apply Qgt_alt in Hq. by rewrite Hq.
Qed.

Lemma round64_pos_nonneg q r :
  (0 < q)%Q → round64_pos q = Some r → (0 <= r)%Q.
Proof.
  intros Hq. unfold round64_pos. cbv zeta.
  destruct (Qle_bool _ _); [done |]. intros [= <-].
  apply Qmult_le_0_compat; [| apply Qlt_le_weak, pow2_pos].
  change 0%Q with (inject_Z 0). rewrite <- Zle_Qle.
  apply round_half_even_ge_int. simpl.
  apply Qle_shift_div_l; [apply pow2_pos |].
  rewrite Qmult_0_l. by apply Qlt_le_weak.
Qed.

Lemma round64_nonneg q r : (0 <= q)%Q → round64 q = Some r → (0 <= r)%Q.
Proof.
  intros Hq. destruct (Qle_lt_or_eq _ _ Hq) as [Hlt | Heq].
  - rewrite round64_positive by done. by apply round64_pos_nonneg.
  - unfold round64. symmetry in Heq. apply Qeq_alt in Heq. rewrite Heq.
    intros [= <-]. apply Qle_refl.
Qed.

(** An integer of at most 53 bits is a multiple of the unit [2^s] of every
    binade it can be rounded in. *)
Lemma int_multiple (n s : Z) :
  s ≤ 0 → (inject_Z n == inject_Z (n * 2 ^ (- s)) * pow2 s)%Q.
Proof.
  intros Hs. rewrite inject_Z_mult, <- pow2_Z by lia.
  rewrite <- Qmult_assoc, <- pow2_add. replace (- s + s) with 0 by lia.
  unfold pow2. simpl. ring.
Qed.

(** Below an integer [n] by more than half a unit, the rounding stays below
    [n]: the product of [n] and a binary64 number below 1 is such. *)
Lemma round64_pos_below (q : Q) (n : Z) :
  (0 < q)%Q → 1 ≤ n < 2 ^ 53 →
  (q <= inject_Z n * (1 - pow2 (-53)))%Q →
  ∃ r, round64_pos q = Some r ∧ (0 <= r)%Q ∧ (r < inject_Z n)%Q.
Proof.
  intros Hq Hn Hle.
  destruct (ilog2_spec q Hq) as [Hlo Hhi].
  set (e := ilog2 q) in *.
  assert (0 < inject_Z n)%Q as HnQ.
  { change 0%Q with (inject_Z 0). rewrite <- Zlt_Qlt. lia. }
  assert (q < inject_Z n)%Q as Hqn.
  { eapply Qle_lt_trans; [exact Hle |].
    rewrite <- (Qmult_1_r (inject_Z n)) at 2.
    apply Qmult_lt_l; [done |].
    apply (Qplus_lt_l _ _ (pow2 (-53))).
    assert (1 - pow2 (-53) + pow2 (-53) == 1)%Q as -> by ring.
    rewrite <- (Qplus_0_r 1) at 1. apply Qplus_lt_r. apply pow2_pos. }
  assert (e ≤ 52) as He.
  { assert (e < 53); [| lia]. apply pow2_lt_inv.
    eapply Qle_lt_trans; [exact Hlo |]. eapply Qlt_trans; [exact Hqn |].
    rewrite pow2_Z by lia. rewrite <- Zlt_Qlt. lia. }
  set (s := Z.max (e - 52) (-1074)).
  assert (s ≤ 0) as Hs by (unfold s; lia).
  assert (pow2 (s + 52) < inject_Z n)%Q as Hunit.
  { destruct (Z.max_spec (e - 52) (-1074)) as [[_ Hm] | [_ Hm]]; fold s in Hm.
    - rewrite Hm. apply Qlt_le_trans with 1%Q; [| ].
      + change 1%Q with (pow2 0). by apply pow2_lt.
      + change 1%Q with (inject_Z 1). rewrite <- Zle_Qle. lia.
    - rewrite Hm. replace (e - 52 + 52) with e by lia.
      eapply Qle_lt_trans; eauto. }
  set (m := n * 2 ^ (- s)).
  pose proof (int_multiple n s Hs) as Hnm. fold m in Hnm.
  assert (q / pow2 s < inject_Z m - (1 # 2))%Q as Ht.
  { apply Qlt_shift_div_r; [apply pow2_pos |].
    assert ((inject_Z m - (1 # 2)) * pow2 s
            == inject_Z n - pow2 (s + 52) * pow2 (-53))%Q as ->.
    { rewrite Hnm, <- pow2_add. replace (s + 52 + -53) with (-1 + s) by lia.
      rewrite pow2_add.
      assert (pow2 (-1) == 1 # 2)%Q as -> by reflexivity. ring. }
    eapply Qle_lt_trans; [exact Hle |].
    assert (inject_Z n * (1 - pow2 (-53))
            == inject_Z n - inject_Z n * pow2 (-53))%Q as -> by ring.
    apply Qplus_lt_r. apply Qopp_lt_compat.
    apply Qmult_lt_r; [apply pow2_pos | done]. }
  apply round_half_even_lt_half in Ht.
  set (k := round_half_even (q / pow2 s)) in *.
  assert (0 ≤ k) as Hk.
  { apply round_half_even_ge_int. simpl.
    apply Qle_shift_div_l; [apply pow2_pos |].
    rewrite Qmult_0_l. by apply Qlt_le_weak. }
  assert (inject_Z k * pow2 s < inject_Z n)%Q as Hr.
  { rewrite Hnm. apply Qmult_lt_r; [apply pow2_pos |].
    rewrite <- Zlt_Qlt. lia. }
  exists (inject_Z k * pow2 s)%Q. split_and!.
  - unfold round64_pos. fold e s k. cbv zeta.
    destruct (Qle_bool (pow2 1024) (inject_Z k * pow2 s)) eqn:Hc; [| done].
    exfalso. apply Qle_bool_iff in Hc. apply (Qlt_irrefl (pow2 1024)).
    eapply Qle_lt_trans; [exact Hc |]. eapply Qlt_trans; [exact Hr |].
    apply Qlt_trans with (pow2 53).
    + rewrite pow2_Z by lia. rewrite <- Zlt_Qlt. lia.
    + by apply pow2_lt.
  - apply Qmult_le_0_compat; [| apply Qlt_le_weak, pow2_pos].
    change 0%Q with (inject_Z 0). by rewrite <- Zle_Qle.
  - done.
Qed.

(** From an integer [n] of at most 53 bits on, the rounding is at least
    [n]. *)
Lemma round64_pos_above (q : Q) (n : Z) (r : Q) :
  (0 < q)%Q → 0 ≤ n < 2 ^ 53 → (inject_Z n <= q)%Q →
  round64_pos q = Some r → (inject_Z n <= r)%Q.
Proof.
  intros Hq Hn Hle. unfold round64_pos. cbv zeta.
  destruct (ilog2_spec q Hq) as [Hlo Hhi].
  set (e := ilog2 q) in *. set (s := Z.max (e - 52) (-1074)).
  destruct (Qle_bool _ _); [done |]. intros [= <-].
  destruct (Z_le_gt_dec s 0) as [Hs | Hs].
  - rewrite (int_multiple n s Hs) at 1.
    apply Qmult_le_r; [apply pow2_pos |]. rewrite <- Zle_Qle.
    apply round_half_even_ge_int.
    apply Qle_shift_div_l; [apply pow2_pos |].
    by rewrite <- (int_multiple n s Hs).
  - assert (s = e - 52) as Hse by (unfold s in *; lia).
    apply Qle_trans with (pow2 e).
    + apply Qlt_le_weak. apply Qlt_le_trans with (pow2 53).
      * rewrite pow2_Z by lia. rewrite <- Zlt_Qlt. lia.
      * apply pow2_le. lia.
    + replace e with (52 + s) at 1 by lia. rewrite pow2_add.
      apply Qmult_le_r; [apply pow2_pos |].
      rewrite pow2_Z by lia. rewrite <- Zle_Qle.
      apply round_half_even_ge_int.
      apply Qle_shift_div_l; [apply pow2_pos |].
      rewrite <- pow2_Z by lia. rewrite <- pow2_add.
      by replace (52 + s) with e by lia.
Qed.

(** The largest binary64 number below 1 is [1 - 2^-53]. *)
Lemma binary64_below_one (p : Q) :
  binary64 p → (p < 1)%Q → (p <= 1 - pow2 (-53))%Q.
Proof.
  intros (r & Hr & Hrp) Hp1.
  assert (1 # 2 <= 1 - pow2 (-53))%Q as Hhalf.
  { apply (Qplus_le_l _ _ (pow2 (-53) - (1 # 2))).
    assert ((1 # 2) + (pow2 (-53) - (1 # 2)) == pow2 (-53))%Q as -> by ring.
    assert (1 - pow2 (-53) + (pow2 (-53) - (1 # 2)) == pow2 (-1))%Q as ->.
    { assert (pow2 (-1) == 1 # 2)%Q as -> by reflexivity. ring. }
    apply pow2_le. lia. }
  destruct (Qlt_le_dec (1 # 2) p) as [Hlow | Hlow].
  2: { eapply Qle_trans; eauto. }
  assert (0 < p)%Q as Hp0 by (eapply Qlt_trans; [| exact Hlow]; reflexivity).
  rewrite round64_positive in Hr by done.
  assert (ilog2 p = -1) as He.
  { apply ilog2_unique.
    - assert (pow2 (-1) == 1 # 2)%Q as -> by reflexivity.
      by apply Qlt_le_weak.
    - done. }
  unfold round64_pos in Hr. rewrite He in Hr. cbv zeta in Hr.
  change (Z.max (-1 - 52) (-1074)) with (-53) in Hr.
  set (k := round_half_even (p / pow2 (-53))) in *.
  destruct (Qle_bool _ _); [done |]. apply (inj Some) in Hr. subst r.
  assert (inject_Z k < inject_Z (2 ^ 53))%Q as Hk.
  { apply (Qmult_lt_r _ _ (pow2 (-53))); [apply pow2_pos |].
    rewrite Hrp. rewrite <- pow2_Z by lia. rewrite <- pow2_add.
    change (pow2 (53 + -53)) with (pow2 0). done. }
  rewrite <- Zlt_Qlt in Hk. rewrite <- Hrp.
  apply (Qplus_le_l _ _ (pow2 (-53))).
  assert (1 - pow2 (-53) + pow2 (-53) == pow2 53 * pow2 (-53))%Q as ->.
  { rewrite <- pow2_add. change (pow2 (53 + -53)) with 1%Q. ring. }
  assert (inject_Z k * pow2 (-53) + pow2 (-53)
          == inject_Z (k + 1) * pow2 (-53))%Q as ->.
  { rewrite inject_Z_plus. change (inject_Z 1) with 1%Q. ring. }
  apply Qmult_le_r; [apply pow2_pos |].
  rewrite pow2_Z by lia. rewrite <- Zle_Qle. lia.
Qed.

Lemma round_half_even_int (t : Q) (k : Z) :
  (t == inject_Z k)%Q → round_half_even t = k.
Proof.
  intros Ht. unfold round_half_even.
  assert (Qfloor t = k) as -> by (rewrite (Qfloor_comp _ _ Ht); apply Qfloor_Z).
  assert (Qcompare (t - inject_Z k) (1 # 2) = Lt) as ->; [| done].
  apply Qlt_alt. assert (t - inject_Z k == 0)%Q as ->; [| done].
  rewrite Ht. ring.
Qed.

(** An integer of at most 53 bits, and [2^53], are binary64 numbers. *)
Lemma round64_pos_int (n : Z) :
  0 < n ≤ 2 ^ 53 →
  ∃ r, round64_pos (inject_Z n) = Some r ∧ (r == inject_Z n)%Q.
Proof.
  intros Hn.
  assert (0 < inject_Z n)%Q as HnQ.
  { change 0%Q with (inject_Z 0). rewrite <- Zlt_Qlt. lia. }
  destruct (ilog2_spec _ HnQ) as [Hlo Hhi].
  set (e := ilog2 (inject_Z n)) in *.
  assert (0 ≤ e) as He0.
  { assert (0 < e + 1); [| lia]. apply pow2_lt_inv.
    eapply Qle_lt_trans; [| exact Hhi].
    change (pow2 0) with (inject_Z 1). rewrite <- Zle_Qle. lia. }
  assert (2 ^ e ≤ n) as Hen.
  { rewrite pow2_Z in Hlo by done. by rewrite <- Zle_Qle in Hlo. }
  assert (e ≤ 53) as He.
  { destruct (Z_le_gt_dec e 53) as [? | Hgt]; [done |].
    pose proof (Z.pow_le_mono_r 2 54 e ltac:(lia) ltac:(lia)). lia. }
  set (s := Z.max (e - 52) (-1074)).
  assert (s = e - 52) as Hs by (unfold s; lia).
  assert (∃ m, n = m * 2 ^ Z.max s 0) as [m Hm].
  { destruct (Z_le_gt_dec s 0) as [Hs0 | Hs0].
    - exists n. rewrite Z.max_r by done. lia.
    - assert (e = 53) as He53 by lia. rewrite He53 in Hen.
      exists (2 ^ 52). replace (Z.max s 0) with 1 by lia. lia. }
  set (k := m * 2 ^ (Z.max s 0 - s)).
  assert (inject_Z n == inject_Z k * pow2 s)%Q as Hnk.
  { unfold k. rewrite Hm at 1. rewrite !inject_Z_mult.
    rewrite <- !pow2_Z by lia. rewrite <- Qmult_assoc, <- pow2_add.
    by replace (Z.max s 0 - s + s) with (Z.max s 0) by lia. }
  assert (inject_Z n / pow2 s == inject_Z k)%Q as Ht.
  { rewrite Hnk. field. apply Qnot_eq_sym, Qlt_not_eq, pow2_pos. }
  pose proof (round_half_even_int _ _ Ht) as Hround.
  exists (inject_Z k * pow2 s)%Q. split; [| by symmetry].
  unfold round64_pos. fold e s. cbv zeta. rewrite Hround.
  destruct (Qle_bool (pow2 1024) (inject_Z k * pow2 s)) eqn:Hc; [| done].
  exfalso. apply Qle_bool_iff in Hc. rewrite <- Hnk in Hc.
  apply (Qlt_irrefl (pow2 1024)). eapply Qle_lt_trans; [exact Hc |].
  apply Qle_lt_trans with (pow2 53).
  - rewrite pow2_Z by lia. rewrite <- Zle_Qle. lia.
  - by apply pow2_lt.
Qed.

Lemma round64_int (n : Z) :
  0 ≤ n ≤ 2 ^ 53 → ∃ r, round64 (inject_Z n) = Some r ∧ (r == inject_Z n)%Q.
Proof.
  intros Hn. destruct (decide (n = 0)) as [-> | Hne].
  - by exists 0%Q.
  - rewrite round64_positive.
    + apply round64_pos_int. lia.
    + change 0%Q with (inject_Z 0). rewrite <- Zlt_Qlt. lia.
Qed.

(** Rounding depends on the number only, not on the fraction that stands for
    it. *)
Lemma round_half_even_comp (t t' : Q) :
  (t == t')%Q → round_half_even t = round_half_even t'.
Proof.
  intros Ht. unfold round_half_even.
  rewrite (Qfloor_comp _ _ Ht).
  assert (t - inject_Z (Qfloor t') == t' - inject_Z (Qfloor t'))%Q as Hd
    by (by rewrite Ht).
  by rewrite (Qcompare_comp _ _ Hd _ _ (Qeq_refl (1 # 2))).
Qed.

Lemma round64_pos_comp (q q' : Q) :
  (0 < q)%Q → (q == q')%Q → round64_pos q = round64_pos q'.
Proof.
  intros Hq Heq. destruct (ilog2_spec q Hq) as [Hlo Hhi].
  assert (ilog2 q' = ilog2 q) as He.
  { apply ilog2_unique; by rewrite <- Heq. }
  unfold round64_pos. rewrite He. cbv zeta.
  assert (q / pow2 (Z.max (ilog2 q - 52) (-1074))
          == q' / pow2 (Z.max (ilog2 q - 52) (-1074)))%Q as Ht
    by (unfold Qdiv; apply Qmult_comp; [exact Heq | reflexivity]).
  by rewrite (round_half_even_comp _ _ Ht).
Qed.

Lemma round64_comp (q q' : Q) : (q == q')%Q → round64 q = round64 q'.
Proof.
  intros Heq. unfold round64.
  rewrite (Qcompare_comp _ _ Heq _ _ (Qeq_refl 0)).
  destruct (Qcompare q' 0) eqn:Hc; [done | |].
  - f_equal. apply round64_pos_comp; [| by rewrite Heq].
    rewrite Heq. apply Qlt_alt in Hc.
    apply (Qplus_lt_l _ _ q'). by ring_simplify.
  - apply Qgt_alt in Hc. apply round64_pos_comp; [by rewrite Heq | done].
Qed.

(** The binary64 sum of two integers whose sum lies between 0 and [2^53] is
    their sum. *)
Lemma add64_exact (a b : Z) :
  0 ≤ a + b ≤ 2 ^ 53 →
  ∃ r, round64 (inject_Z a + inject_Z b) = Some r ∧ (r == inject_Z (a + b))%Q.
Proof.
  intros Hab. destruct (round64_int (a + b) Hab) as (r & Hr & Heq).
  exists r. split; [| done]. rewrite <- Hr.
  apply round64_comp. by rewrite inject_Z_plus.
Qed.

(** Past [2^53] the binary64 sum is not the sum of the integers:
    [(2^53 + 2) + 1] is [2^53 + 4]. *)
Lemma add64_rounds :
  ∃ r, round64 (inject_Z (2 ^ 53 + 2) + inject_Z 1) = Some r ∧
       (r == inject_Z (2 ^ 53 + 4))%Q.
Proof. eexists. split; [vm_compute; reflexivity | reflexivity]. Qed.

(** A multiple [m * 2^s] of a unit no smaller than the least one, with [m]
    of at most 53 bits (or [2^53]), is a binary64 number unless it
    overflows. *)
Lemma round64_pos_multiple (m s : Z) :
  0 < m ≤ 2 ^ 53 → -1074 ≤ s →
  (inject_Z m * pow2 s < pow2 1024)%Q →
  ∃ r, round64_pos (inject_Z m * pow2 s) = Some r ∧
       (r == inject_Z m * pow2 s)%Q.
Proof.
  intros Hm Hs Hfin. set (q := (inject_Z m * pow2 s)%Q) in *.
  assert (0 < inject_Z m)%Q as HmQ.
  { change 0%Q with (inject_Z 0). rewrite <- Zlt_Qlt. lia. }
  assert (0 < q)%Q as Hq.
  { unfold q. apply Qmult_lt_0_compat; [done | apply pow2_pos]. }
  pose proof (Z.log2_spec m ltac:(lia)) as [Hl1 Hl2].
  pose proof (Z.log2_nonneg m) as Hl0.
  set (l := Z.log2 m) in *.
  assert (l ≤ 53) as Hl.
  { destruct (Z_le_gt_dec l 53) as [? | Hgt]; [done |].
    pose proof (Z.pow_le_mono_r 2 54 l ltac:(lia) ltac:(lia)). lia. }
  assert (ilog2 q = l + s) as He.
  { apply ilog2_unique; unfold q.
    - rewrite pow2_add. apply Qmult_le_r; [apply pow2_pos |].
      rewrite pow2_Z by done. by rewrite <- Zle_Qle.
    - replace (l + s + 1) with (Z.succ l + s) by lia. rewrite pow2_add.
      apply Qmult_lt_r; [apply pow2_pos |].
      rewrite pow2_Z by lia. by rewrite <- Zlt_Qlt. }
  set (s' := Z.max (l + s - 52) (-1074)).
  assert (∃ k, (q == inject_Z k * pow2 s')%Q) as [k Hk].
  { destruct (Z_le_gt_dec s' s) as [Hle | Hgt].
    - exists (m * 2 ^ (s - s')). unfold q.
      rewrite inject_Z_mult, <- pow2_Z by lia.
      rewrite <- Qmult_assoc, <- pow2_add.
      by replace (s - s' + s') with s by lia.
    - assert (l = 53 ∧ s' = s + 1) as [Hl53 Hs'] by (unfold s' in *; lia).
      assert (m = 2 ^ 53) as -> by (rewrite Hl53 in Hl1; lia).
      exists (2 ^ 52). unfold q. rewrite Hs'.
      rewrite <- !pow2_Z by lia. rewrite <- !pow2_add.
      by replace (53 + s) with (52 + (s + 1)) by lia. }
  assert (q / pow2 s' == inject_Z k)%Q as Ht.
  { rewrite Hk. field. apply Qnot_eq_sym, Qlt_not_eq, pow2_pos. }
  pose proof (round_half_even_int _ _ Ht) as Hround.
  exists (inject_Z k * pow2 s')%Q. split; [| by symmetry].
  unfold round64_pos. rewrite He. fold s'. cbv zeta. rewrite Hround.
  destruct (Qle_bool (pow2 1024) (inject_Z k * pow2 s')) eqn:Hc; [| done].
  exfalso. apply Qle_bool_iff in Hc. rewrite <- Hk in Hc.
  apply (Qlt_irrefl (pow2 1024)). eapply Qle_lt_trans; eauto.
Qed.

(** What the rounding returns is such a multiple. *)
Lemma round64_pos_shape (q r : Q) :
  (0 < q)%Q → round64_pos q = Some r →
  ∃ k s, r = (inject_Z k * pow2 s)%Q ∧ 0 ≤ k ≤ 2 ^ 53 ∧ -1074 ≤ s.
Proof.
  intros Hq. unfold round64_pos. cbv zeta.
  destruct (ilog2_spec q Hq) as [Hlo Hhi].
  set (e := ilog2 q) in *. set (s := Z.max (e - 52) (-1074)).
  destruct (Qle_bool _ _); [done |]. intros [= <-].
  exists (round_half_even (q / pow2 s)), s. split; [done |].
  split; [| unfold s; lia]. split.
  - apply round_half_even_ge_int. simpl.
    apply Qle_shift_div_l; [apply pow2_pos |].
    rewrite Qmult_0_l. by apply Qlt_le_weak.
  - assert (q / pow2 s < inject_Z (2 ^ 53))%Q as Ht.
    { apply Qlt_shift_div_r; [apply pow2_pos |].
      eapply Qlt_le_trans; [exact Hhi |].
      rewrite <- pow2_Z by lia. rewrite <- pow2_add.
      apply pow2_le. unfold s. lia. }
    pose proof (round_half_even_le (q / pow2 s)) as Hle.
    assert (inject_Z (round_half_even (q / pow2 s)) < inject_Z (2 ^ 53 + 1))%Q
      as Hlt.
    { eapply Qle_lt_trans; [exact Hle |].
      rewrite inject_Z_plus.
      apply Qlt_le_trans with (inject_Z (2 ^ 53) + (1 # 2))%Q.
      - by apply Qplus_lt_l.
      - apply Qplus_le_r. discriminate. }
    rewrite <- Zlt_Qlt in Hlt. lia.
Qed.

(** The subtraction of line 321 is exact: what a binary64 number exceeds its
    floor by is a binary64 number. *)
Lemma fraction_binary64 (q sp : Q) :
  (0 < q)%Q → round64 q = Some sp →
  binary64 (sp - inject_Z (Qfloor sp)).
Proof.
  intros Hq Hsp. rewrite round64_positive in Hsp by done.
  destruct (round64_pos_shape q sp Hq Hsp) as (k & s & -> & Hk & Hs).
  set (sp := (inject_Z k * pow2 s)%Q).
  destruct (Z_le_gt_dec 0 s) as [Hs0 | Hs0].
  - assert (sp == inject_Z (k * 2 ^ s))%Q as Hint.
    { unfold sp. rewrite inject_Z_mult.
      apply Qmult_comp; [reflexivity | by apply pow2_Z]. }
    assert (sp - inject_Z (Qfloor sp) == 0)%Q as Hzero.
    { rewrite (Qfloor_comp _ _ Hint), Qfloor_Z, Hint. ring. }
    exists 0%Q. split; [| by symmetry].
    by rewrite (round64_comp _ _ Hzero).
  - set (D := 2 ^ (- s)).
    assert (0 < D) as HD by (apply Z.pow_pos_nonneg; lia).
    assert (sp == inject_Z k / inject_Z D)%Q as Hdiv.
    { unfold sp, D. rewrite <- pow2_Z by lia.
      replace s with (- - s) at 1 by lia. unfold pow2 at 1.
      rewrite Qpower_opp. reflexivity. }
    assert (Qfloor sp = k / D) as Hfl.
    { rewrite (Qfloor_comp _ _ Hdiv). symmetry. apply Zdiv_Qdiv. }
    assert (sp - inject_Z (Qfloor sp) == inject_Z (k mod D) * pow2 s)%Q
      as Hfrac.
    { rewrite Hfl. unfold sp.
      assert (inject_Z (k / D) == inject_Z (D * (k / D)) * pow2 s)%Q as ->.
      { rewrite inject_Z_mult.
        assert (inject_Z D == pow2 (- s))%Q as ->
          by (unfold D; symmetry; apply pow2_Z; lia).
        assert (pow2 (- s) * inject_Z (k / D) * pow2 s
                == inject_Z (k / D) * (pow2 (- s) * pow2 s))%Q as -> by ring.
        rewrite <- pow2_add. replace (- s + s) with 0 by lia.
        change (pow2 0) with 1%Q. ring. }
      assert (inject_Z (k mod D) == inject_Z k - inject_Z (D * (k / D)))%Q
        as ->.
      { rewrite (Z.mod_eq k D) by lia.
        unfold Zminus. rewrite inject_Z_plus, inject_Z_opp. reflexivity. }
      ring. }
    pose proof (Z.mod_pos_bound k D HD) as Hmod.
    pose proof (Z.mod_le k D ltac:(lia) HD) as Hmodle.
    destruct (decide (k mod D = 0)) as [Hz | Hnz].
    + rewrite Hz in Hfrac.
      assert (sp - inject_Z (Qfloor sp) == 0)%Q as Hzero
        by (rewrite Hfrac; ring).
      exists 0%Q. split; [| by symmetry].
      by rewrite (round64_comp _ _ Hzero).
    + destruct (round64_pos_multiple (k mod D) s) as (r & Hr & Heq);
        [lia | done | |].
      { apply Qlt_trans with 1%Q; [| change 1%Q with (pow2 0); by apply pow2_lt].
        assert (1 == inject_Z D * pow2 s)%Q as ->.
        { unfold D. rewrite <- pow2_Z by lia. rewrite <- pow2_add.
          by replace (- s + s) with 0 by lia. }
        apply Qmult_lt_r; [apply pow2_pos |]. rewrite <- Zlt_Qlt. lia. }
      exists r. split; [| by rewrite Heq, Hfrac].
      rewrite (round64_comp _ _ Hfrac). rewrite round64_positive; [done |].
      apply Qmult_lt_0_compat; [| apply pow2_pos].
      change 0%Q with (inject_Z 0). rewrite <- Zlt_Qlt. lia.
Qed.

(** * Theorems *)

(** ** Numbers *)

Ltac num_cases :=
  repeat match goal with
         | n : num |- _ => destruct n
         end;
  simpl in *; try done;
  repeat match goal with
         | H : (_ <? _) = true |- _ => apply Z.ltb_lt in H
         | H : (_ <? _) = false |- _ => apply Z.ltb_ge in H
         | |- (_ <? _) = true => apply Z.ltb_lt
         | |- (_ <? _) = false => apply Z.ltb_ge
         end;
  try lia.

Lemma num_ltb_trans_ge a b c :
  num_ltb a b = true → num_ltb c b = false → num_ltb a c = true.
Proof. intros; num_cases. Qed.

Lemma num_ltb_trans a b c :
  num_ltb a b = true → num_ltb b c = true → num_ltb a c = true.
Proof. intros; num_cases. Qed.

Lemma num_ltb_irrefl a : num_ltb a a = false.
Proof. num_cases. Qed.

Lemma num_ltb_fin a b : num_ltb a b = true → ∃ z, a = Fin z.
Proof. destruct a; [eauto | done]. Qed.

(** ** The insertion-ordered set *)

Lemma set_add_elem s k k' : k' ∈ set_add s k ↔ k' ∈ s ∨ k' = k.
Proof.
  unfold set_add. case_bool_decide.
  - split; [auto | intros [?| ->]; done].
  - rewrite elem_of_app, list_elem_of_singleton. done.
Qed.

Lemma set_add_NoDup s k : NoDup s → NoDup (set_add s k).
Proof.
  intros Hs. unfold set_add. case_bool_decide; [done |].
  apply NoDup_app. split_and!; [done | | apply NoDup_singleton].
  intros x Hx ->%list_elem_of_singleton. done.
Qed.

Lemma set_delete_elem s k k' : k' ∈ set_delete s k ↔ k' ∈ s ∧ k' ≠ k.
Proof. unfold set_delete. rewrite list_elem_of_filter. tauto. Qed.

Lemma set_delete_NoDup s k : NoDup s → NoDup (set_delete s k).
Proof. apply NoDup_filter. Qed.

Lemma set_delete_length s k :
  k ∈ s → (length (set_delete s k) < length s)%nat.
Proof.
  unfold set_delete. induction s as [| a s IH]; intros Hk.
  - by apply elem_of_nil in Hk.
  - rewrite filter_cons. case_decide as Ha.
    + simpl. apply elem_of_cons in Hk as [-> | Hk]; [done |].
      specialize (IH Hk). lia.
    + pose proof (length_filter (λ k', k' ≠ k) s). simpl. lia.
Qed.

Lemma set_has_true s k : set_has s k = true ↔ k ∈ s.
Proof. unfold set_has. by rewrite bool_decide_eq_true. Qed.

(** ** Initialisation (lines 24-28) *)

Lemma init_fold_network s ns st :
  network (fold_left (init_node s) ns st) = network st.
Proof. revert st. induction ns as [| n ns IH]; intros st; simpl; [done |]. by rewrite IH. Qed.

Lemma init_fold_distances s ns st k :
  distances (fold_left (init_node s) ns st) !! k =
  if decide (k ∈ map node_id ns)
  then Some (if decide (k = s) then Fin 0 else Infinity)
  else distances st !! k.
Proof.
  revert st. induction ns as [| n ns IH]; intros st; simpl; [done |].
  rewrite IH. simpl.
  destruct (decide (k ∈ map node_id ns)) as [Hin | Hin];
    destruct (decide (k ∈ node_id n :: map node_id ns)) as [Hin' | Hin'];
    try done.
  - exfalso. apply Hin', elem_of_cons. auto.
  - apply elem_of_cons in Hin' as [-> | ?]; [| done].
    by rewrite lookup_insert_eq.
  - rewrite lookup_insert_ne; [done |].
    intros <-. apply Hin', elem_of_cons. auto.
Qed.

Lemma init_fold_previous s ns st k :
  previous (fold_left (init_node s) ns st) !! k =
  if decide (k ∈ map node_id ns) then Some None else previous st !! k.
Proof.
  revert st. induction ns as [| n ns IH]; intros st; simpl; [done |].
  rewrite IH. simpl.
  destruct (decide (k ∈ map node_id ns)) as [Hin | Hin];
    destruct (decide (k ∈ node_id n :: map node_id ns)) as [Hin' | Hin'];
    try done.
  - exfalso. apply Hin', elem_of_cons. auto.
  - apply elem_of_cons in Hin' as [-> | ?]; [| done].
    by rewrite lookup_insert_eq.
  - rewrite lookup_insert_ne; [done |].
    intros <-. apply Hin', elem_of_cons. auto.
Qed.

Lemma init_fold_unvisited s ns st k :
  k ∈ unvisited (fold_left (init_node s) ns st) ↔
  k ∈ unvisited st ∨ k ∈ map node_id ns.
Proof.
  revert st. induction ns as [| n ns IH]; intros st; simpl.
  - rewrite elem_of_nil. tauto.
  - rewrite IH. simpl. rewrite set_add_elem, elem_of_cons. tauto.
Qed.

Lemma init_fold_NoDup s ns st :
  NoDup (unvisited st) → NoDup (unvisited (fold_left (init_node s) ns st)).
Proof.
  revert st. induction ns as [| n ns IH]; intros st Hst; simpl; [done |].
  apply IH. simpl. by apply set_add_NoDup.
Qed.

Lemma init_fold_unvisited_order s ns st :
  NoDup (unvisited st ++ map node_id ns) →
  unvisited (fold_left (init_node s) ns st) = unvisited st ++ map node_id ns.
Proof.
  revert st. induction ns as [| n ns IH]; intros st Hnd; simpl.
  - by rewrite app_nil_r.
  - assert (node_id n ∉ unvisited st) as Hn.
    { apply NoDup_app in Hnd as (_ & Hd & _). intros Hin.
      apply (Hd _ Hin). simpl. apply elem_of_cons; auto. }
    rewrite IH; simpl; unfold set_add; rewrite bool_decide_eq_false_2 by done.
    + by rewrite <- app_assoc.
    + by rewrite <- app_assoc.
Qed.

Lemma init_network net s : network (init_state net s) = net.
Proof. unfold init_state. by rewrite init_fold_network. Qed.

Lemma init_distances net s k :
  distances (init_state net s) !! k =
  if decide (k ∈ ids net)
  then Some (if decide (k = s) then Fin 0 else Infinity) else None.
Proof. unfold init_state. by rewrite init_fold_distances. Qed.

Lemma init_previous net s k :
  previous (init_state net s) !! k =
  if decide (k ∈ ids net) then Some None else None.
Proof. unfold init_state. by rewrite init_fold_previous. Qed.

Lemma init_unvisited net s k : k ∈ unvisited (init_state net s) ↔ k ∈ ids net.
Proof.
  unfold init_state. rewrite init_fold_unvisited. simpl.
  rewrite elem_of_nil. unfold ids. tauto.
Qed.

Lemma init_unvisited_NoDup net s : NoDup (unvisited (init_state net s)).
Proof. unfold init_state. apply init_fold_NoDup. simpl. constructor. Qed.

Lemma init_unvisited_order net s :
  NoDup (ids net) → unvisited (init_state net s) = ids net.
Proof. intros Hnd. unfold init_state. by rewrite init_fold_unvisited_order. Qed.

(** ** Selecting the nearest unvisited node (lines 33-42) *)

(** Either no element of [l] beats the accumulator, or the result is the
    first element of [l] that carries the least distance of [l]. *)
Lemma scan_fold_spec st l c0 m0 c m :
  fold_left (scan_min st) l (c0, m0) = (c, m) →
  (c = c0 ∧ m = m0 ∧
     ∀ k dk, k ∈ l → distances st !! k = Some dk → num_ltb dk m0 = false)
  ∨ (∃ l1 k l2,
       l = l1 ++ k :: l2 ∧ c = Some k ∧
       distances st !! k = Some m ∧ num_ltb m m0 = true ∧
       (∀ k' d', k' ∈ l1 → distances st !! k' = Some d' →
                 num_ltb m d' = true) ∧
       (∀ k' d', k' ∈ l2 → distances st !! k' = Some d' →
                 num_ltb d' m = false)).
Proof.
  revert c0 m0. induction l as [| k l IH]; intros c0 m0 Hr; simpl in Hr.
  - simplify_eq. left. split_and!; try done.
    intros k dk Hk. by apply elem_of_nil in Hk.
  - remember (scan_min st (c0, m0) k) as acc eqn:Hacc.
    unfold scan_min in Hacc. simpl in Hacc.
    destruct (distances st !! k) as [dk |] eqn:Hdk;
      [destruct (num_ltb dk m0) eqn:Hlt |]; subst acc;
      apply IH in Hr as [(-> & -> & Hall) | Hex].
    + right. exists [], k, l. split_and!; try done.
      intros k' d' Hk'. by apply elem_of_nil in Hk'.
    + right. destruct Hex as (l1 & k1 & l2 & -> & -> & Hd & Hm & H1 & H2).
      exists (k :: l1), k1, l2. split_and!; try done.
      * eapply num_ltb_trans; eauto.
      * intros k' d' [-> | Hk']%elem_of_cons Hd'; [| eauto].
        rewrite Hdk in Hd'. by simplify_eq.
    + left. split_and!; try done.
      intros k' d' [-> | Hk']%elem_of_cons Hd'; [| eauto].
      rewrite Hdk in Hd'. by simplify_eq.
    + right. destruct Hex as (l1 & k1 & l2 & -> & -> & Hd & Hm & H1 & H2).
      exists (k :: l1), k1, l2. split_and!; try done.
      intros k' d' [-> | Hk']%elem_of_cons Hd'; [| eauto].
      rewrite Hdk in Hd'. simplify_eq.
      eapply num_ltb_trans_ge; eauto.
    + left. split_and!; try done.
      intros k' d' [-> | Hk']%elem_of_cons Hd'; [| eauto].
      rewrite Hdk in Hd'. done.
    + right. destruct Hex as (l1 & k1 & l2 & -> & -> & Hd & Hm & H1 & H2).
      exists (k :: l1), k1, l2. split_and!; try done.
      intros k' d' [-> | Hk']%elem_of_cons Hd'; [| eauto].
      rewrite Hdk in Hd'. done.
Qed.

(** [find_min] answers [(null, Infinity)] exactly when no unvisited node
    has a finite distance. *)
Lemma find_min_none st m :
  find_min st = (None, m) →
  m = Infinity ∧
  ∀ k dk, k ∈ unvisited st → distances st !! k = Some dk → dk = Infinity.
Proof.
  unfold find_min. intros [(_ & -> & Hall) | Hex]%scan_fold_spec.
  - split; [done |].
    intros k dk Hk Hd. specialize (Hall k dk Hk Hd). by destruct dk.
  - by destruct Hex as (l1 & k & l2 & _ & ? & _).
Qed.

(** Otherwise it answers the first unvisited node, in insertion order, among
    those at the least distance. *)
Lemma find_min_some st k m :
  find_min st = (Some k, m) →
  ∃ l1 l2 z,
    unvisited st = l1 ++ k :: l2 ∧ m = Fin z ∧
    distances st !! k = Some (Fin z) ∧
    (∀ k' d', k' ∈ l1 → distances st !! k' = Some d' →
              num_ltb (Fin z) d' = true) ∧
    (∀ k' d', k' ∈ l2 → distances st !! k' = Some d' →
              num_ltb d' (Fin z) = false).
Proof.
  unfold find_min. intros [(? & _) | Hex]%scan_fold_spec; [done |].
  destruct Hex as (l1 & k1 & l2 & Hl & ? & Hd & Hm & H1 & H2). simplify_eq.
  destruct (num_ltb_fin _ _ Hm) as [z ->].
  exists l1, l2, z. done.
Qed.

Lemma find_min_elem st k m : find_min st = (Some k, m) → k ∈ unvisited st.
Proof.
  intros (l1 & l2 & z & -> & _)%find_min_some.
  apply elem_of_app. right. apply elem_of_cons. auto.
Qed.

Lemma find_min_least st k z k' d' :
  find_min st = (Some k, Fin z) → k' ∈ unvisited st →
  distances st !! k' = Some d' → num_ltb d' (Fin z) = false.
Proof.
  intros (l1 & l2 & z' & Hl & ? & Hd & H1 & H2)%find_min_some. simplify_eq.
  rewrite Hl. intros [Hk | [-> | Hk]%elem_of_cons]%elem_of_app Hd'.
  - specialize (H1 _ _ Hk Hd'). num_cases.
  - rewrite Hd in Hd'. simplify_eq. apply num_ltb_irrefl.
  - eauto.
Qed.

(** ** Relaxation (lines 49-71): what it leaves alone *)

Lemma relax_network cur nb c st : network (relax cur nb c st) = network st.
Proof. unfold relax. repeat case_match; done. Qed.

Lemma relax_unvisited cur nb c st : unvisited (relax cur nb c st) = unvisited st.
Proof. unfold relax. repeat case_match; done. Qed.

Lemma relax_edge_network cur st e : network (relax_edge cur st e) = network st.
Proof.
  unfold relax_edge. repeat case_decide; rewrite ?relax_network; done.
Qed.

Lemma relax_edge_unvisited cur st e :
  unvisited (relax_edge cur st e) = unvisited st.
Proof.
  unfold relax_edge. repeat case_decide; rewrite ?relax_unvisited; done.
Qed.

Lemma relax_fold_network cur es st :
  network (fold_left (relax_edge cur) es st) = network st.
Proof.
  revert st. induction es as [| e es IH]; intros st; simpl; [done |].
  by rewrite IH, relax_edge_network.
Qed.

Lemma relax_fold_unvisited cur es st :
  unvisited (fold_left (relax_edge cur) es st) = unvisited st.
Proof.
  revert st. induction es as [| e es IH]; intros st; simpl; [done |].
  by rewrite IH, relax_edge_unvisited.
Qed.

Lemma visit_network cur st : network (visit cur st) = network st.
Proof. unfold visit. by rewrite relax_fold_network. Qed.

Lemma visit_unvisited cur st :
  unvisited (visit cur st) = set_delete (unvisited st) cur.
Proof. unfold visit. by rewrite relax_fold_unvisited. Qed.

(** ** The main loop (lines 31-72) *)

(** A property kept by every visit holds when the loop is left. *)
Lemma main_loop_inv (P : DState → Prop) destId :
  (∀ st cur z, P st → find_min st = (Some cur, Fin z) →
               cur ≠ "" → cur ≠ destId → P (visit cur st)) →
  ∀ fuel st st', P st → main_loop fuel destId st = Some st' →
                 P st' ∧ stopped destId st'.
Proof.
  intros Hstep fuel. induction fuel as [| fuel IH]; intros st st' HP; simpl.
  - done.
  - unfold stopped. destruct (unvisited st) eqn:Hu.
    { intros; simplify_eq. rewrite Hu. auto. }
    destruct (find_min st) as [[c |] m] eqn:Hf.
    2: { intros; simplify_eq. rewrite Hf. auto. }
    case_decide as Hempty.
    { intros; simplify_eq. rewrite Hf. auto. }
    destruct m as [z |].
    2: { intros; simplify_eq. rewrite Hf. auto. }
    case_decide as Hdest.
    { intros; simplify_eq. rewrite Hf. auto. }
    intros Hrec. eapply IH; [| done]. eauto.
Qed.

(** The loop ends: every iteration that does not leave it takes a node out
    of [unvisited]. *)
Lemma main_loop_total destId fuel st :
  (length (unvisited st) < fuel)%nat →
  ∃ st', main_loop fuel destId st = Some st'.
Proof.
  revert st. induction fuel as [| fuel IH]; intros st Hlen; [lia |]. simpl.
  destruct (unvisited st) eqn:Hu; [eauto |].
  destruct (find_min st) as [[c |] m] eqn:Hf; [| eauto].
  case_decide; [eauto |]. destruct m; [| eauto]. case_decide; [eauto |].
  apply IH. rewrite visit_unvisited.
  pose proof (set_delete_length (unvisited st) c (find_min_elem _ _ _ Hf)).
  rewrite Hu in *. simpl in *. lia.
Qed.

(** More fuel does not change an answer. *)
Lemma main_loop_mono destId fuel st st' extra :
  main_loop fuel destId st = Some st' →
  main_loop (fuel + extra) destId st = Some st'.
Proof.
  revert st. induction fuel as [| fuel IH]; intros st; simpl; [done |].
  repeat case_match; try done. apply IH.
Qed.

Lemma rebuild_mono fuel st current acc p extra :
  rebuild fuel st current acc = Some p →
  rebuild (fuel + extra) st current acc = Some p.
Proof.
  revert current acc. induction fuel as [| fuel IH]; intros current acc; simpl;
    [done |].
  repeat case_match; try done; apply IH.
Qed.

Lemma dijkstra_run_mono fuel net s d r extra :
  dijkstra_run fuel net s d = Some r →
  dijkstra_run (fuel + extra) net s d = Some r.
Proof.
  unfold dijkstra_run. intros Hr.
  destruct (main_loop fuel d (init_state net s)) as [st |] eqn:Hm; [| done].
  simpl in Hr. destruct (rebuild fuel st (Some d) []) as [p |] eqn:Hp; [| done].
  simpl in Hr. simplify_eq.
  rewrite (main_loop_mono _ _ _ _ extra Hm). simpl.
  rewrite (rebuild_mono _ _ _ _ _ extra Hp). done.
Qed.

Lemma dijkstra_mono fuel net s d p extra :
  dijkstra fuel net s d = Some p → dijkstra (fuel + extra) net s d = Some p.
Proof.
  unfold dijkstra. intros Hp.
  destruct (dijkstra_run fuel net s d) as [r |] eqn:Hr; [| done].
  rewrite (dijkstra_run_mono _ _ _ _ _ extra Hr). done.
Qed.

(** ** Keys of the collections *)

Lemma relax_fold_ind (P : DState → Prop) cur es st :
  (∀ st nb c, P st → P (relax cur nb c st)) →
  P st → P (fold_left (relax_edge cur) es st).
Proof.
  intros Hrelax. revert st. induction es as [| e es IH]; intros st HP; simpl;
    [done |].
  apply IH. unfold relax_edge. repeat case_decide; auto.
Qed.

Lemma init_keys_ok net s : keys_ok (init_state net s).
Proof.
  split; rewrite init_network; intros k.
  - by rewrite init_unvisited.
  - rewrite init_previous. case_decide; [done |]. by intros [? ?].
Qed.

Lemma relax_keys_ok cur nb c st : keys_ok st → keys_ok (relax cur nb c st).
Proof.
  intros [Hu Hp]. unfold relax.
  destruct (set_has (unvisited st) nb) eqn:Hnb; [| done].
  apply set_has_true in Hnb.
  destruct (distances st !! cur); [| done]. case_match; [| done].
  split; simpl; [done |]. intros k.
  destruct (decide (k = nb)) as [-> | Hne]; [auto |].
  rewrite lookup_insert_ne by done. auto.
Qed.

Lemma visit_keys_ok cur st : keys_ok st → keys_ok (visit cur st).
Proof.
  intros [Hu Hp]. unfold visit. apply relax_fold_ind.
  - intros. by apply relax_keys_ok.
  - split; simpl; [| done]. intros k [Hk _]%set_delete_elem. auto.
Qed.

Lemma main_loop_keys_ok fuel d st st' :
  keys_ok st → main_loop fuel d st = Some st' →
  keys_ok st' ∧ network st' = network st.
Proof.
  intros Hk Hm.
  apply (main_loop_inv (λ st0, keys_ok st0 ∧ network st0 = network st) d)
    in Hm as [? _]; [done | | done].
  intros st0 cur z [? Hn] _ _ _. split; [by apply visit_keys_ok |].
  by rewrite visit_network.
Qed.

(** ** Path reconstruction (lines 74-92) on an absent key *)

Lemma find_none_all {A} (f : A → bool) (l : list A) :
  (∀ a, f a = false) → List.find f l = None.
Proof.
  intros Hf. induction l as [| a l IH]; simpl; [done |]. by rewrite Hf.
Qed.

Lemma find_edge_undefined net current : find_edge net None current = None.
Proof.
  unfold find_edge. apply find_none_all. intros e.
  rewrite !bool_decide_eq_false_2 by (by intros [? ?]). done.
Qed.

(** Once [current] is [undefined] the loop condition stays true. *)
Lemma rebuild_undefined fuel st acc : rebuild fuel st None acc = None.
Proof.
  revert acc. induction fuel as [| fuel IH]; intros acc; simpl; [done |].
  by rewrite find_edge_undefined.
Qed.

Lemma rebuild_absent fuel st d acc :
  previous st !! d = None → rebuild fuel st (Some d) acc = None.
Proof.
  intros Hd. destruct fuel as [| fuel]; simpl; [done |].
  rewrite Hd. simpl. rewrite find_edge_undefined. apply rebuild_undefined.
Qed.

(** When [destId] is the id of no node, no amount of fuel lets the
    reconstruction loop finish. *)
Lemma dijkstra_absent_dest fuel net s d :
  d ∉ ids net → dijkstra fuel net s d = None.
Proof.
  intros Hd. unfold dijkstra, dijkstra_run.
  destruct (main_loop fuel d (init_state net s)) as [st |] eqn:Hm; [| done].
  simpl. apply main_loop_keys_ok in Hm as [[_ Hp] Hn]; [| apply init_keys_ok].
  rewrite init_network in Hn. rewrite Hn in Hp.
  rewrite rebuild_absent; [done |].
  destruct (previous st !! d) eqn:Hpd; [| done].
  exfalso. apply Hd, Hp. eauto.
Qed.

(** C3, at [dijkstra(getDefaultNetwork(), "A", "Z")]: the destination id
    "Z" is the id of no node, and the call does not return the empty
    sequence: whatever the fuel, the loop of lines 78-92 has not finished,
    because [previous.get("Z")] is [undefined], which is [!== null]. *)
Theorem dijkstra_absent_destination_diverges :
  ∀ fuel, dijkstra fuel getDefaultNetwork "A" "Z" = None.
Proof.
  intros fuel. apply dijkstra_absent_dest. vm_compute.
  intros Hin. repeat (apply elem_of_cons in Hin as [Hin | Hin]; [done |]).
  by apply elem_of_nil in Hin.
Qed.

(** C7: for every network and every id [X] of one of its nodes,
    [dijkstra(network, X, X)] returns, and returns the empty sequence: one
    turn of each loop is enough. *)
Theorem dijkstra_same_node_empty (net : Network string) (X : string) :
  is_node net X → ∀ fuel, dijkstra (S fuel) net X X = Some [].
Proof.
  intros HX fuel. change (X ∈ ids net) in HX.
  assert (main_loop (S fuel) X (init_state net X) = Some (init_state net X))
    as Hm.
  { simpl. destruct (unvisited (init_state net X)) eqn:Hu; [done |].
    destruct (find_min (init_state net X)) as [[c |] m] eqn:Hf; [| done].
    case_decide; [done |].
    destruct (find_min_some _ _ _ Hf) as (_ & _ & z & _ & -> & Hd & _).
    rewrite init_distances in Hd. case_decide; [| done].
    case_decide; [| done]. subst. try case_decide; done. }
  unfold dijkstra, dijkstra_run. rewrite Hm. simpl.
  rewrite init_previous, decide_True by done. done.
Qed.

Lemma dijkstra_same_node_empty_witness :
  is_node getDefaultNetwork "C" ∧
  dijkstra 1 getDefaultNetwork "C" "C" = Some [].
Proof.
  assert (is_node getDefaultNetwork "C") as H.
  { unfold is_node. simpl. set_solver. }
  split; [exact H |].
  exact (dijkstra_same_node_empty getDefaultNetwork "C" H 0%nat).
Defined.

(** C2: on the default network, [dijkstra] from "A" to "F" returns exactly
    the three segments A-C, C-E, E-F, of total cost 18 (seven turns of the
    loops are enough, and more change nothing). *)
Theorem dijkstra_default_A_F :
  ∀ extra,
    dijkstra (7 + extra) getDefaultNetwork "A" "F" =
    Some [ mkSeg (Some (mkNode "A" "A" (150#1) (250#1) router))
                 (Some (mkNode "C" "C" (300#1) (350#1) router))
                 (mkEdge "A" "C" 9);
           mkSeg (Some (mkNode "C" "C" (300#1) (350#1) router))
                 (Some (mkNode "E" "E" (500#1) (300#1) router))
                 (mkEdge "C" "E" 2);
           mkSeg (Some (mkNode "E" "E" (500#1) (300#1) router))
                 (Some (mkNode "F" "F" (700#1) (200#1) router))
                 (mkEdge "E" "F" 7) ]
    ∧ (total_cost <$> dijkstra (7 + extra) getDefaultNetwork "A" "F") = Some 18.
Proof.
  intros extra.
  pose proof (dijkstra_mono 7 getDefaultNetwork "A" "F"
    [ mkSeg (Some (mkNode "A" "A" (150#1) (250#1) router))
            (Some (mkNode "C" "C" (300#1) (350#1) router))
            (mkEdge "A" "C" 9);
      mkSeg (Some (mkNode "C" "C" (300#1) (350#1) router))
            (Some (mkNode "E" "E" (500#1) (300#1) router))
            (mkEdge "C" "E" 2);
      mkSeg (Some (mkNode "E" "E" (500#1) (300#1) router))
            (Some (mkNode "F" "F" (700#1) (200#1) router))
            (mkEdge "E" "F" 7) ] extra) as Hmono.
  rewrite Hmono; [split; reflexivity |].
  vm_compute. reflexivity.
Qed.

(** ** Visiting order *)

Lemma age_le vis k : (age vis k ≤ length vis)%nat.
Proof.
  induction vis as [| a l IH]; simpl; [lia |]. case_decide; lia.
Qed.

Lemma age_pos vis k : (0 < age vis k)%nat ↔ k ∈ vis.
Proof.
  induction vis as [| a l IH]; simpl.
  - rewrite elem_of_nil. lia.
  - rewrite elem_of_cons. case_decide; [subst; split; [auto | lia] |].
    rewrite IH. split; [auto | intros [? | ?]; [by subst | done]].
Qed.

Lemma age_zero vis k : age vis k = 0%nat ↔ k ∉ vis.
Proof. rewrite <- age_pos. lia. Qed.

Lemma older_cons vis u p v : u ∉ vis → older vis p v → older (u :: vis) p v.
Proof.
  intros Hu [Hp Hv]. unfold older in *. simpl.
  assert (p ≠ u) as Hpu by (intros ->; apply age_pos in Hp; done).
  rewrite (decide_False (P := u = p)) by done.
  split; [done |]. case_decide as Huv.
  - right. pose proof (age_le vis p). lia.
  - done.
Qed.

Lemma older_new vis u v : v ∉ vis → v ≠ u → older (u :: vis) u v.
Proof.
  intros Hv Hne. unfold older. simpl.
  rewrite (decide_True (P := u = u)) by done.
  rewrite (decide_False (P := u = v)) by done.
  split; [lia |]. left. by apply age_zero.
Qed.

(** ** Paths *)

Section Paths.
Context (g : Network string).

Lemma walk_nodes a b c : walk g a b c → a ∈ ids g ∧ b ∈ ids g.
  Proof. induction 1; [done |]. split; [tauto | done]. Qed.

Lemma walk_nonneg a b c :
    (∀ e, e ∈ edges g → 0 ≤ edge_cost e) → walk g a b c → 0 ≤ c.
  Proof.
    intros Hcost. induction 1 as [| b b' e c Hw IH [He _] Hn]; [lia |].
    specialize (Hcost e He). lia.
  Qed.

Lemma joins_sym (a b : string) e : joins a b e = joins b a e.
  Proof.
    unfold joins. rewrite orb_comm. f_equal; apply bool_decide_ext; tauto.
  Qed.

Lemma hop_sym a b e : hop g a b e → hop g b a e.
  Proof. intros [? ?]. split; [done |]. by rewrite joins_sym. Qed.
End Paths.

(** ** One visit (lines 47-71) *)

Lemma relax_spec u nb c st z :
  distances st !! u = Some (Fin z) → u ∉ unvisited st →
  let st' := relax u nb c st in
  (∀ k, k ≠ nb → distances st' !! k = distances st !! k ∧
                 previous st' !! k = previous st !! k) ∧
  ((distances st' !! nb = distances st !! nb ∧
    previous st' !! nb = previous st !! nb ∧
    (nb ∈ unvisited st → ∀ dn, distances st !! nb = Some dn →
                               num_ltb (Fin (z + c)) dn = false))
   ∨ (nb ∈ unvisited st ∧
      distances st' !! nb = Some (Fin (z + c)) ∧
      previous st' !! nb = Some (Some u) ∧
      ∃ dn, distances st !! nb = Some dn ∧ num_ltb (Fin (z + c)) dn = true)).
Proof.
  intros Hu Hnu. cbv zeta. unfold relax.
  destruct (set_has (unvisited st) nb) eqn:Hnb.
  2: { split; [done |]. left. split_and!; try done.
       intros Hin. apply set_has_true in Hin. congruence. }
  apply set_has_true in Hnb. rewrite Hu. unfold js_lt, num_add.
  destruct (distances st !! nb) as [dn |] eqn:Hdn.
  2: { split; [done |]. left. rewrite Hdn. done. }
  destruct (num_ltb (Fin (z + c)) dn) eqn:Hlt; cbn [distances previous].
  - split.
    + intros k Hk. by rewrite !lookup_insert_ne.
    + right. rewrite !lookup_insert_eq. split_and!; eauto.
  - split; [done |]. left. rewrite Hdn. split_and!; try done.
    intros _ dn' ?. by simplify_eq.
Qed.

Lemma relaxed_from_fold u z ts a :
  distances a !! u = Some (Fin z) → u ∉ unvisited a →
  relaxed_from u z ts a (fold_left (relax_to u) ts a).
Proof.
  intros Hu Hnu. induction ts as [| [w e] ts IH] using rev_ind.
  - simpl. split_and!; try done; eauto.
    + intros k dk Hk. exists dk. split; [done |]. apply num_ltb_irrefl.
    + intros w e dw Hin. by apply elem_of_nil in Hin.
  - rewrite fold_left_app. simpl.
    set (b := fold_left (relax_to u) ts a) in *.
    destruct IH as (Hn & Hunv & Hch & Hmon & Hrel).
    assert (distances b !! u = Some (Fin z)) as Hub.
    { destruct (Hch u) as [[-> _] | [? _]]; done. }
    assert (u ∉ unvisited b) as Hnub by (by rewrite Hunv).
    unfold relax_to at 1. simpl.
    destruct (relax_spec u w (edge_cost e) b z Hub Hnub) as [Hother Hw].
    split_and!.
    + by rewrite relax_network.
    + by rewrite relax_unvisited.
    + intros k. destruct (decide (k = w)) as [-> | Hkw].
      * destruct Hw as [(Hd & Hp & _) | (Hin & Hd & Hp & dn & Hdn & Hlt)].
        -- rewrite Hd, Hp.
           destruct (Hch w) as [? | (? & e' & dk & ? & ?)]; [by left |].
           right. split; [done |]. exists e', dk. split; [| done].
           apply elem_of_app. auto.
        -- right. rewrite <- Hunv. split; [done |].
           assert (∃ dk, distances a !! w = Some dk ∧
                         num_ltb (Fin (z + edge_cost e)) dk = true)
             as (dk & Hdk & Hltk).
           { destruct (Hch w) as [[Hsame _] | (_ & e' & dk & _ & Hd' & _ & Hda & Hlt')].
             - rewrite <- Hsame. eauto.
             - exists dk. split; [done |]. rewrite Hd' in Hdn. simplify_eq.
               eapply num_ltb_trans; eauto. }
           exists e, dk. split_and!; try done.
           apply elem_of_app. right. apply elem_of_cons. auto.
      * destruct (Hother k Hkw) as [-> ->].
        destruct (Hch k) as [? | (? & e' & dk & ? & ?)]; [by left |].
        right. split; [done |]. exists e', dk. split; [| done].
        apply elem_of_app. auto.
    + intros k dk Hk. destruct (Hmon k dk Hk) as (dk' & Hdk' & Hle).
      destruct (decide (k = w)) as [-> | Hkw].
      * destruct Hw as [(Hd & _) | (_ & Hd & _ & dn & Hdn & Hlt)].
        -- rewrite Hd. eauto.
        -- rewrite Hd. eexists. split; [done |].
           rewrite Hdk' in Hdn. simplify_eq. num_cases.
      * destruct (Hother k Hkw) as [-> _]. eauto.
    + intros w' e' dw [Hin | Hin]%elem_of_app Hw' Hdw.
      * destruct (Hrel w' e' dw Hin Hw' Hdw) as (z' & Hz' & Hle).
        destruct (decide (w' = w)) as [-> | Hkw].
        -- destruct Hw as [(Hd & _) | (_ & Hd & _ & dn & Hdn & Hlt)].
           ++ rewrite Hd. eauto.
           ++ rewrite Hd. eexists. split; [done |].
              rewrite Hz' in Hdn. simplify_eq. num_cases.
        -- destruct (Hother w' Hkw) as [-> _]. eauto.
      * apply list_elem_of_singleton in Hin. simplify_eq.
        destruct (Hmon w dw Hdw) as (dk' & Hdk' & _).
        destruct Hw as [(Hd & _ & Hge) | (_ & Hd & _)].
        -- rewrite Hd, Hdk'. rewrite Hunv in Hge.
           specialize (Hge Hw' dk' Hdk'). destruct dk' as [z' |]; [| done].
           exists z'. split; [done |]. num_cases.
        -- rewrite Hd. eexists. split; [done |]. lia.
Qed.

Lemma relax_edge_targets u st e :
  relax_edge u st e = fold_left (relax_to u) (targets u e) st.
Proof.
  unfold relax_edge, targets, relax_to. repeat case_decide; done.
Qed.

Lemma relax_fold_targets u es st :
  fold_left (relax_edge u) es st =
  fold_left (relax_to u) (es ≫= targets u) st.
Proof.
  revert st. induction es as [| e es IH]; intros st; simpl; [done |].
  rewrite fold_left_app, <- relax_edge_targets. apply IH.
Qed.

Lemma elem_of_targets u es w e :
  (w, e) ∈ es ≫= targets u ↔ e ∈ es ∧ joins u w e = true.
Proof.
  rewrite list_elem_of_bind. unfold targets, joins. split.
  - intros (e' & Hin & He').
    apply elem_of_app in Hin as [Hin | Hin]; case_decide; try (by apply elem_of_nil in Hin);
      apply list_elem_of_singleton in Hin; simplify_eq; (split; [done |]).
    + apply orb_true_iff. left. by apply bool_decide_eq_true.
    + apply orb_true_iff. right. by apply bool_decide_eq_true.
  - intros [He [[H1 H2]%bool_decide_eq_true | [H1 H2]%bool_decide_eq_true]%orb_true_iff];
      exists e; (split; [| done]); apply elem_of_app.
    + left. rewrite decide_True by done. apply list_elem_of_singleton. by rewrite H2.
    + right. rewrite decide_True by done. apply list_elem_of_singleton. by rewrite H2.
Qed.

(** ** The loop invariant *)

Section Correct.
Context (g : Network string) (s : string).
Hypothesis Hcost : ∀ e, e ∈ edges g → 0 ≤ edge_cost e.
Hypothesis Hs : s ∈ ids g.

Lemma init_Inv : Inv g s [] (init_state g s).
  Proof.
    split.
    - apply init_network.
    - intros k. rewrite init_unvisited, elem_of_nil. tauto.
    - intros k Hk. by apply elem_of_nil in Hk.
    - constructor.
    - intros k Hk. rewrite init_distances, decide_True by done. eauto.
    - intros k [? Hk]. rewrite init_distances in Hk. by case_decide.
    - rewrite init_distances, decide_True by done. by rewrite decide_True.
    - rewrite init_previous, decide_True by done. done.
    - intros v Hv. by apply elem_of_nil in Hv.
    - intros v z w e Hv. by apply elem_of_nil in Hv.
    - intros v z Hv Hne. rewrite init_distances in Hv.
      case_decide; [| done]. by rewrite decide_False in Hv.
  Qed.

Section Step.
Context (vis : list string) (st : DState) (HI : Inv g s vis st).

    (** A finite tentative distance is the cost of a path. *)
Lemma fin_walk v z : distances st !! v = Some (Fin z) → walk g s v z.
    Proof.
      intros Hv. destruct (decide (v = s)) as [-> | Hne].
      - rewrite (inv_src_d _ _ _ _ HI) in Hv. simplify_eq. by constructor.
      - destruct (inv_prev _ _ _ _ HI v z Hv Hne)
          as (p & zp & e & _ & Hp & Hhop & -> & [Hage _]).
        apply age_pos in Hage.
        destruct (inv_done _ _ _ _ HI p Hage) as (zp' & Hp' & [Hw _]).
        rewrite Hp in Hp'. simplify_eq.
        eapply walk_step; eauto. apply (inv_key _ _ _ _ HI). eauto.
    Qed.

    (** Every path that leaves the visited nodes crosses an unvisited node
        whose tentative distance is at most the cost of the path. *)
Lemma frontier t c :
      walk g s t c → t ∉ vis →
      ∃ y zy, y ∈ unvisited st ∧ distances st !! y = Some (Fin zy) ∧ zy ≤ c.
    Proof.
      induction 1 as [Hn | b b' e c Hw IH Hhop Hn]; intros Ht.
      - exists s, 0. split_and!; [| apply (inv_src_d _ _ _ _ HI) | lia].
        by apply (inv_unv _ _ _ _ HI).
      - assert (0 ≤ edge_cost e) by (apply Hcost, Hhop).
        destruct (decide (b ∈ vis)) as [Hb | Hb].
        + destruct (inv_done _ _ _ _ HI b Hb) as (zb & Hdb & [_ Hmin]).
          destruct (inv_relaxed _ _ _ _ HI b zb b' e Hb Hdb Hhop Hn)
            as (z' & Hz' & Hle).
          exists b', z'. split_and!; [| done |].
          * by apply (inv_unv _ _ _ _ HI).
          * specialize (Hmin c Hw). lia.
        + destruct (IH Hb) as (y & zy & ? & ? & ?).
          exists y, zy. split_and!; [done | done | lia].
    Qed.

    (** The node the scan selects is at its true distance. *)
Lemma select_min_cost u z :
      find_min st = (Some u, Fin z) → min_cost g s u z.
    Proof.
      intros Hf. destruct (find_min_some _ _ _ Hf) as (_ & _ & z' & _ & ? & Hd & _).
      simplify_eq. split; [by apply fin_walk |].
      intros c' Hw.
      assert (u ∉ vis) as Hu.
      { apply find_min_elem in Hf. by apply (inv_unv _ _ _ _ HI) in Hf as [_ ?]. }
      destruct (frontier u c' Hw Hu) as (y & zy & Hy & Hdy & Hle).
      pose proof (find_min_least _ _ _ _ _ Hf Hy Hdy). num_cases.
    Qed.

Lemma visit_Inv u z :
      find_min st = (Some u, Fin z) → Inv g s (u :: vis) (visit u st).
    Proof.
      intros Hf.
      pose proof (select_min_cost u z Hf) as Hmin.
      destruct (find_min_some _ _ _ Hf) as (_ & _ & z' & _ & ? & Hdu & _).
      simplify_eq.
      pose proof (find_min_elem _ _ _ Hf) as Huv.
      pose proof Huv as Hu2. apply (inv_unv _ _ _ _ HI) in Hu2 as [Hun Huvis].
      assert (0 ≤ z') as Hz by (eapply walk_nonneg; [done | apply Hmin]).
      set (st1 := {| network := network st; distances := distances st;
                     previous := previous st;
                     unvisited := set_delete (unvisited st) u |}).
      assert (visit u st = fold_left (relax_to u) (edges g ≫= targets u) st1)
        as Hvisit.
      { rewrite <- (inv_net _ _ _ _ HI). unfold visit.
        apply relax_fold_targets. }
      assert (u ∉ unvisited st1) as Hu1.
      { simpl. rewrite set_delete_elem. tauto. }
      pose proof (relaxed_from_fold u z' (edges g ≫= targets u) st1 Hdu Hu1)
        as (Hn & Hunv & Hch & Hmon & Hrel).
      rewrite <- Hvisit in Hn, Hunv, Hch, Hmon, Hrel. simpl in *.
      assert (∀ k, k ∉ set_delete (unvisited st) u →
                   distances (visit u st) !! k = distances st !! k ∧
                   previous (visit u st) !! k = previous st !! k) as Hframe.
      { intros k Hk. destruct (Hch k) as [? | [? _]]; done. }
      assert (∀ k, k ∈ u :: vis → k ∉ set_delete (unvisited st) u) as Hvisited.
      { intros k Hk. rewrite set_delete_elem.
        apply elem_of_cons in Hk as [-> | Hk]; [tauto |].
        intros [Hin _]. by apply (inv_unv _ _ _ _ HI) in Hin as [_ ?]. }
      split.
      - rewrite Hn. apply (inv_net _ _ _ _ HI).
      - intros k. rewrite Hunv, set_delete_elem, (inv_unv _ _ _ _ HI).
        rewrite not_elem_of_cons. tauto.
      - intros k [-> | Hk]%elem_of_cons; [done |]. by apply (inv_vis _ _ _ _ HI).
      - constructor; [done | apply (inv_nodup _ _ _ _ HI)].
      - intros k Hk. destruct (inv_dom _ _ _ _ HI k Hk) as [dk Hdk].
        destruct (Hmon k dk Hdk) as (dk' & -> & _). eauto.
      - intros k Hk. destruct (Hch k) as [[Hsame _] | [Hin _]].
        + rewrite Hsame in Hk. by apply (inv_key _ _ _ _ HI).
        + apply set_delete_elem in Hin as [Hin _].
          by apply (inv_unv _ _ _ _ HI) in Hin as [? _].
      - destruct (Hch s) as [[-> _] | (_ & e & dk & Hin & _ & _ & Hds & Hlt)];
          [apply (inv_src_d _ _ _ _ HI) |].
        rewrite (inv_src_d _ _ _ _ HI) in Hds. simplify_eq.
        apply elem_of_targets in Hin as [He _]. specialize (Hcost e He).
        num_cases.
      - destruct (Hch s) as [[_ ->] | (_ & e & dk & Hin & _ & _ & Hds & Hlt)];
          [apply (inv_src_p _ _ _ _ HI) |].
        rewrite (inv_src_d _ _ _ _ HI) in Hds. simplify_eq.
        apply elem_of_targets in Hin as [He _]. specialize (Hcost e He).
        num_cases.
      - intros v Hv. destruct (Hframe v (Hvisited v Hv)) as [-> _].
        apply elem_of_cons in Hv as [-> | Hv]; [eauto |].
        by apply (inv_done _ _ _ _ HI).
      - intros v zv w e Hv Hdv Hhop Hw.
        destruct (Hframe v (Hvisited v Hv)) as [Hdv' _]. rewrite Hdv' in Hdv.
        assert (0 ≤ edge_cost e) by (apply Hcost, Hhop).
        apply elem_of_cons in Hv as [-> | Hv].
        + rewrite Hdu in Hdv. simplify_eq.
          destruct (decide (w ∈ set_delete (unvisited st) u)) as [Hwu | Hwu].
          * destruct (inv_dom _ _ _ _ HI w Hw) as [dw Hdw].
            eapply Hrel; [| done | done].
            apply elem_of_targets. destruct Hhop. done.
          * destruct (Hframe w Hwu) as [-> _].
            destruct (decide (w = u)) as [-> | Hne].
            { exists zv. split; [done | lia]. }
            assert (w ∈ vis) as Hwvis.
            { destruct (decide (w ∈ vis)); [done |]. exfalso. apply Hwu.
              apply set_delete_elem. split; [| done].
              by apply (inv_unv _ _ _ _ HI). }
            destruct (inv_done _ _ _ _ HI w Hwvis) as (zw & Hdw & [_ Hminw]).
            exists zw. split; [done |]. apply Hminw.
            eapply walk_step; [apply Hmin | done | done].
        + destruct (inv_relaxed _ _ _ _ HI v zv w e Hv Hdv Hhop Hw)
            as (z0 & Hz0 & Hle).
          destruct (Hmon w _ Hz0) as (dk' & Hdk' & Hge).
          destruct dk' as [z1 |]; [| done].
          exists z1. split; [done |]. num_cases.
      - intros v zv Hdv Hne.
        destruct (Hch v) as [[Hsd Hsp] | (Hin & e & dk & Hte & Hd' & Hp' & _)].
        + rewrite Hsd in Hdv.
          destruct (inv_prev _ _ _ _ HI v zv Hdv Hne)
            as (p & zp & e & Hp & Hdp & Hhop & -> & Hold).
          exists p, zp, e. rewrite Hsp. split_and!; try done.
          * destruct Hold as [Hage _]. apply age_pos in Hage.
            destruct (Hframe p) as [-> _]; [| done].
            apply Hvisited, elem_of_cons. auto.
          * by apply older_cons.
        + rewrite Hd' in Hdv. simplify_eq.
          apply elem_of_targets in Hte as [He Hj].
          apply set_delete_elem in Hin as [Hin Hvu].
          apply (inv_unv _ _ _ _ HI) in Hin as [_ Hvvis].
          exists u, z', e. split_and!; try done.
          * destruct (Hframe u) as [-> _]; [| done].
            apply Hvisited, elem_of_cons. auto.
          * by apply older_new.
    Qed.
End Step.
End Correct.

(** ** Lookups of the reconstruction (lines 80-88) *)

Lemma find_ext_all {A} (f f' : A → bool) (l : list A) :
  (∀ a, f a = f' a) → List.find f l = List.find f' l.
Proof.
  intros Hf. induction l as [| a l IH]; simpl; [done |]. by rewrite Hf, IH.
Qed.

Lemma find_edge_joins net p v :
  find_edge net (Some p) (Some v) = List.find (joins p v) (edges net).
Proof.
  unfold find_edge. apply find_ext_all. intros e. unfold joins.
  f_equal; apply bool_decide_ext; split; intros [? ?]; split; congruence.
Qed.

Lemma hop_find (g : Network string) p v e :
  hop g p v e →
  ∃ e0, List.find (joins p v) (edges g) = Some e0 ∧ hop g p v e0.
Proof.
  intros [He Hj]. destruct (List.find (joins p v) (edges g)) as [e0 |] eqn:Hf.
  - exists e0. split; [done |]. apply find_some in Hf as [Hin ?].
    split; [by apply list_elem_of_In | done].
  - apply list_elem_of_In in He. pose proof (find_none _ _ Hf e He). congruence.
Qed.

Lemma find_node_some net k :
  k ∈ ids net →
  ∃ n, find_node net (Some k) = Some n ∧ n ∈ nodes net ∧ node_id n = k.
Proof.
  unfold find_node, ids. induction (nodes net) as [| a l IH]; simpl; intros Hk.
  - by apply elem_of_nil in Hk.
  - case_bool_decide as Ha.
    + exists a. split_and!; [done | apply elem_of_cons; auto | congruence].
    + apply elem_of_cons in Hk as [-> | Hk]; [done |].
      destruct (IH Hk) as (n & ? & ? & ?). exists n.
      split_and!; [done | apply elem_of_cons; auto | done].
Qed.

(** ** Routes *)

Lemma total_cost_app p q : total_cost (p ++ q) = total_cost p + total_cost q.
Proof. unfold total_cost. induction p as [| a p IH]; simpl; lia. Qed.

Lemma route_nil_inv net a b : route net a b [] → b = a.
Proof.
  inversion 1 as [| ? ? p ? ? ? ? ? ? ? ? ? Heq]; [done |].
  by destruct p.
Qed.

Lemma route_walk net a b p :
  a ∈ ids net → route net a b p → walk net a b (total_cost p).
Proof.
  intros Ha. induction 1 as [| b b' p nb nb' e Hr IH Hnb Hb Hnb' Hb' Hhop].
  - by constructor.
  - rewrite total_cost_app. simpl. rewrite Z.add_0_r.
    eapply walk_step; [done | done |].
    unfold is_node. rewrite <- Hb'. by apply list_elem_of_fmap_2.
Qed.

Lemma route_nonempty net a b p : route net a b p → a ≠ b → p ≠ [].
Proof. intros Hr Hab ->. apply route_nil_inv in Hr. done. Qed.

Lemma route_edge net a b p : route net a b p → p ≠ [] → ∃ e, e ∈ edges net.
Proof.
  destruct 1 as [| b b' p nb nb' e _ _ _ _ _ [He _]]; [done |]. eauto.
Qed.

Lemma route_head net a b p :
  route net a b p → p ≠ [] →
  ∃ seg n, head p = Some seg ∧ seg_from seg = Some n ∧
           n ∈ nodes net ∧ node_id n = a.
Proof.
  induction 1 as [| b b' p nb nb' e Hr IH Hnb Hb Hnb' Hb' Hhop]; [done |].
  intros _. destruct p as [| seg0 p].
  - apply route_nil_inv in Hr. subst. simpl. eauto 10.
  - destruct IH as (seg & n & Hh & ?); [done |]. simpl in *. eauto.
Qed.

Lemma route_last net a b p :
  route net a b p → p ≠ [] →
  ∃ seg n, last p = Some seg ∧ seg_to seg = Some n ∧
           n ∈ nodes net ∧ node_id n = b.
Proof.
  destruct 1 as [| b b' p nb nb' e Hr Hnb Hb Hnb' Hb' Hhop]; [done |].
  intros _. rewrite last_snoc. simpl. eauto 10.
Qed.

Lemma chained_snoc p seg :
  chained p → (∀ s1, last p = Some s1 → seg_to s1 = seg_from seg) →
  chained (p ++ [seg]).
Proof.
  induction p as [| a p IH]; simpl; [done |]. intros Hc Hl.
  destruct p as [| a' p]; simpl in *.
  - split; [| done]. by apply Hl.
  - destruct Hc as [? Hc]. split; [done |]. apply IH; [done |].
    intros s1 Hs1. by apply Hl.
Qed.

Lemma node_id_inj (net : Network string) n n' :
  NoDup (ids net) → n ∈ nodes net → n' ∈ nodes net →
  node_id n = node_id n' → n = n'.
Proof.
  unfold ids. induction (nodes net) as [| a l IH]; simpl; intros Hnd Hn Hn' Heq.
  - by apply elem_of_nil in Hn.
  - apply NoDup_cons in Hnd as [Ha Hnd].
    apply elem_of_cons in Hn as [-> | Hn]; apply elem_of_cons in Hn' as [-> | Hn'].
    + done.
    + exfalso. apply Ha. rewrite Heq. by apply list_elem_of_fmap_2.
    + exfalso. apply Ha. rewrite <- Heq. by apply list_elem_of_fmap_2.
    + by apply IH.
Qed.

Lemma route_chained net a b p :
  NoDup (ids net) → route net a b p → chained p.
Proof.
  intros Hnd. induction 1 as [| b b' p nb nb' e Hr IH Hnb Hb Hnb' Hb' Hhop];
    [done |].
  apply chained_snoc; [done |]. intros s1 Hs1. simpl.
  destruct (route_last _ _ _ _ Hr) as (seg & n & Hl & Hto & Hn & Hid).
  { intros ->. done. }
  rewrite Hs1 in Hl. simplify_eq. rewrite Hto. f_equal.
  apply (node_id_inj net); congruence.
Qed.

(** ** Reconstruction along [previous] (lines 74-92) *)

Section Rebuild.
Context (g : Network string) (s : string) (vis : list string) (st : DState).
Hypothesis HI : Inv g s vis st.
Hypothesis Hcheap : first_edge_cheapest g.

Lemma rebuild_route n :
    ∀ v z acc,
      distances st !! v = Some (Fin z) → (turns vis v ≤ n)%nat →
      ∃ p, rebuild n st (Some v) acc = Some (p ++ acc) ∧
           route g s v p ∧ total_cost p ≤ z.
  Proof.
    induction n as [| n IH]; intros v z acc Hd Hb.
    - exfalso. unfold turns in Hb. case_decide as Hv; [| lia].
      apply age_pos in Hv. lia.
    - simpl. destruct (decide (v = s)) as [-> | Hne].
      + rewrite (inv_src_p _ _ _ _ HI). exists []. split; [done |].
        split; [constructor |].
        rewrite (inv_src_d _ _ _ _ HI) in Hd. simplify_eq. done.
      + destruct (inv_prev _ _ _ _ HI v z Hd Hne)
          as (p0 & zp & e & Hp & Hdp & Hhop & -> & Hold).
        rewrite Hp. simpl. rewrite (inv_net _ _ _ _ HI), find_edge_joins.
        destruct (hop_find _ _ _ _ Hhop) as (e0 & Hfind & Hhop0).
        rewrite Hfind.
        destruct (find_node_some g p0) as (n0 & -> & Hn0 & Hid0).
        { apply (inv_key _ _ _ _ HI). eauto. }
        destruct (find_node_some g v) as (nv & -> & Hnv & Hidv).
        { apply (inv_key _ _ _ _ HI). eauto. }
        destruct (IH p0 zp (mkSeg (Some n0) (Some nv) e0 :: acc) Hdp)
          as (p & Hp' & Hroute & Hle).
        { destruct Hold as [Hage Hv]. unfold turns in *.
          rewrite decide_True by (by apply age_pos).
          case_decide as Hvv.
          - apply age_pos in Hvv. lia.
          - pose proof (age_le vis p0). lia. }
        exists (p ++ [mkSeg (Some n0) (Some nv) e0]).
        rewrite <- app_assoc. split; [done |]. split.
        * by eapply route_snoc.
        * rewrite total_cost_app. simpl.
          pose proof (Hcheap p0 v e e0 Hhop Hfind). lia.
  Qed.
End Rebuild.

(** ** The unvisited set is no larger than the node list *)

Lemma init_fold_length s ns st :
  (length (unvisited (fold_left (init_node s) ns st))
   ≤ length (unvisited st) + length ns)%nat.
Proof.
  revert st. induction ns as [| n ns IH]; intros st; simpl; [lia |].
  etrans; [apply IH |]. simpl. unfold set_add. case_bool_decide; [lia |].
  rewrite length_app. simpl. lia.
Qed.

Lemma init_unvisited_length net s :
  (length (unvisited (init_state net s)) ≤ length (nodes net))%nat.
Proof. unfold init_state. etrans; [apply init_fold_length |]. simpl. lia. Qed.

Lemma NoDup_incl_length (l k : list string) :
  NoDup l → (∀ x, x ∈ l → x ∈ k) → (length l ≤ length k)%nat.
Proof.
  intros Hnd Hin. apply submseteq_length. by apply NoDup_submseteq.
Qed.

Lemma turns_le g s vis st v :
  Inv g s vis st → v ∈ ids g → (turns vis v ≤ length (nodes g))%nat.
Proof.
  intros HI Hv. unfold turns.
  assert (length (ids g) = length (nodes g)) as <- by apply length_map.
  case_decide as Hvis.
  - etrans; [apply age_le |].
    apply NoDup_incl_length; [apply (inv_nodup _ _ _ _ HI) |].
    apply (inv_vis _ _ _ _ HI).
  - change (length (v :: vis) ≤ length (ids g))%nat.
    apply NoDup_incl_length.
    + constructor; [done | apply (inv_nodup _ _ _ _ HI)].
    + intros x [-> | Hx]%elem_of_cons; [done |]. by apply (inv_vis _ _ _ _ HI).
Qed.

(** ** The distance of the destination when the loop is left *)

Lemma final_distance g s vis st d :
  (∀ e, e ∈ edges g → 0 ≤ edge_cost e) → s ∈ ids g →
  (∀ k, k ∈ ids g → k ≠ "") →
  Inv g s vis st → stopped d st → reachable g s d →
  ∃ z, distances st !! d = Some (Fin z) ∧ min_cost g s d z.
Proof.
  intros Hcost Hs Hne HI Hstop [c Hw].
  destruct (decide (d ∈ vis)) as [Hd | Hd];
    [by apply (inv_done _ _ _ _ HI) |].
  destruct (frontier g s Hcost vis st HI d c Hw Hd) as (y & zy & Hy & Hdy & _).
  destruct Hstop as [Hnil | Hstop].
  { rewrite Hnil in Hy. by apply elem_of_nil in Hy. }
  destruct (find_min st) as [[u |] m] eqn:Hf.
  - pose proof (find_min_elem _ _ _ Hf) as Hu.
    destruct (find_min_some _ _ _ Hf) as (_ & _ & z & _ & -> & Hdu & _).
    destruct Hstop as [-> | [? | ->]]; [| done |].
    + exfalso. apply (Hne ""); [| done].
      by apply (inv_unv _ _ _ _ HI) in Hu as [? _].
    + exists z. split; [done |].
      eapply select_min_cost; eauto.
  - apply find_min_none in Hf as [_ Hall]. specialize (Hall y _ Hy Hdy). done.
Qed.

Lemma first_edge_cheapest_checked net :
  first_edge_cheapest_check net = true → first_edge_cheapest net.
Proof.
  unfold first_edge_cheapest_check. rewrite forallb_forall.
  intros Hall a b e e0 [He Hj] Hfind.
  apply list_elem_of_In in He. specialize (Hall e He).
  assert (List.find (joins (edge_from e) (edge_to e)) (edges net) = Some e0)
    as Hf.
  { unfold joins in Hj.
    apply orb_true_iff in Hj as [[<- <-]%bool_decide_eq_true
                                | [<- <-]%bool_decide_eq_true]; [done |].
    rewrite <- Hfind. apply find_ext_all. intros e'. apply joins_sym. }
  rewrite Hf in Hall. by apply Z.leb_le.
Qed.

(** ** C1 *)

(** The main loop finds the distance of the destination, and the
    reconstruction follows [previous] back to the source. *)
Lemma shortest_route_lemma (g : Network string) (s d : string) :
  (∀ e, e ∈ edges g → 0 ≤ edge_cost e) →
  NoDup (ids g) →
  (∀ k, is_node g k → k ≠ "") →
  first_edge_cheapest g →
  is_node g s → is_node g d → s ≠ d → reachable g s d →
  ∀ fuel, (length (nodes g) < fuel)%nat →
    ∃ p, dijkstra fuel g s d = Some p ∧ p ≠ [] ∧
         (∃ seg n, head p = Some seg ∧ seg_from seg = Some n ∧
                   n ∈ nodes g ∧ node_id n = s) ∧
         (∃ seg n, last p = Some seg ∧ seg_to seg = Some n ∧
                   n ∈ nodes g ∧ node_id n = d) ∧
         chained p ∧ route g s d p ∧
         min_cost g s d (total_cost p) ∧
         ∃ vis st z, main_loop fuel d (init_state g s) = Some st ∧
                     Inv g s vis st ∧
                     distances st !! d = Some (Fin z) ∧ total_cost p ≤ z.
Proof.
  intros Hcost Hnd Hne Hcheap Hs Hd Hsd Hreach fuel Hfuel.
  destruct (main_loop_total d fuel (init_state g s)) as [st Hm].
  { pose proof (init_unvisited_length g s). lia. }
  pose proof Hm as Hm'.
  apply (main_loop_inv (λ st0, ∃ vis, Inv g s vis st0) d) in Hm'
    as [[vis HI] Hstop].
  2: { intros st0 cur z [vis0 HI0] Hf _ _. exists (cur :: vis0).
       by eapply visit_Inv. }
  2: { exists []. by apply init_Inv. }
  destruct (final_distance g s vis st d Hcost Hs Hne HI Hstop Hreach)
    as (z & Hz & Hw & Hmin).
  destruct (rebuild_route g s vis st HI Hcheap fuel d z [] Hz)
    as (p & Hp & Hroute & Hle).
  { pose proof (turns_le g s vis st d HI Hd). lia. }
  rewrite app_nil_r in Hp. exists p.
  assert (p ≠ []) as Hnil by (by eapply route_nonempty).
  split_and!.
  - unfold dijkstra, dijkstra_run. rewrite Hm. simpl. by rewrite Hp.
  - done.
  - by eapply route_head.
  - by eapply route_last.
  - by eapply route_chained.
  - done.
  - pose proof (route_walk g s d p Hs Hroute) as Hwp.
    split; [done |]. intros c' Hc'. specialize (Hmin c' Hc'). lia.
  - exists vis, st, z. done.
Qed.

(** ** Sums that binary64 computes exactly *)

(** The costs and the distances are integers.  The code adds them as
    binary64 numbers (lines 54 and 64), which is the addition of integers as
    long as the sum stays within [2^53].  With costs between 0 and [C] a
    distance is the cost of a chain of [previous] links through nodes
    visited one before the other, so it is at most [C] times their
    number. *)
Lemma distance_bound g s vis st (C : Z) :
  Inv g s vis st → 0 ≤ C →
  (∀ e, e ∈ edges g → 0 ≤ edge_cost e ≤ C) →
  ∀ n v z, (turns vis v ≤ n)%nat → distances st !! v = Some (Fin z) →
    0 ≤ z ≤ (Z.of_nat n - 1) * C.
Proof.
  intros HI HC Hcost. induction n as [| n IH]; intros v z Hb Hd.
  - exfalso. unfold turns in Hb. case_decide as Hv; [| lia].
    apply age_pos in Hv. lia.
  - destruct (decide (v = s)) as [-> | Hne].
    + rewrite (inv_src_d _ _ _ _ HI) in Hd. simplify_eq. nia.
    + destruct (inv_prev _ _ _ _ HI v z Hd Hne)
        as (p0 & zp & e & _ & Hdp & [He _] & -> & Hold).
      destruct (IH p0 zp) as [Hz0 Hz1]; [| done |].
      { destruct Hold as [Hage Hv]. unfold turns in *.
        rewrite decide_True by (by apply age_pos).
        case_decide as Hvv.
        - apply age_pos in Hvv. lia.
        - pose proof (age_le vis p0). lia. }
      specialize (Hcost e He). nia.
Qed.

(** Every sum of a stored distance and an edge cost, so every [newDist] the
    main loop computes from a store that satisfies [Inv], is an integer
    between 0 and [2^53]. *)
Lemma sums_exact g s vis st (C : Z) :
  Inv g s vis st → 0 ≤ C →
  (∀ e, e ∈ edges g → 0 ≤ edge_cost e ≤ C) →
  Z.of_nat (length (nodes g)) * C ≤ 2 ^ 53 →
  ∀ v z e, distances st !! v = Some (Fin z) → e ∈ edges g →
    0 ≤ z + edge_cost e ≤ 2 ^ 53.
Proof.
  intros HI HC Hcost Hbound v z e Hd He.
  assert (v ∈ ids g) as Hv by (apply (inv_key _ _ _ _ HI); eauto).
  pose proof (turns_le g s vis st v HI Hv) as Ht.
  pose proof (distance_bound g s vis st C HI HC Hcost _ v z (le_n _) Hd)
    as [Hz0 Hz1].
  specialize (Hcost e He).
  assert (1 ≤ turns vis v)%nat as Hpos.
  { unfold turns. case_decide as Hvis; [by apply age_pos | lia]. }
  nia.
Qed.

(** So the binary64 sum of lines 54 and 64 is the sum of [num_add]: the
    rounding of the exact sum leaves it as it is. *)
Lemma newDist_exact g s vis st (C : Z) :
  Inv g s vis st → 0 ≤ C →
  (∀ e, e ∈ edges g → 0 ≤ edge_cost e ≤ C) →
  Z.of_nat (length (nodes g)) * C ≤ 2 ^ 53 →
  ∀ v z e, distances st !! v = Some (Fin z) → e ∈ edges g →
    num_add (Fin z) (edge_cost e) = Fin (z + edge_cost e) ∧
    ∃ r, round64 (inject_Z z + inject_Z (edge_cost e)) = Some r ∧
         (r == inject_Z (z + edge_cost e))%Q.
Proof.
  intros HI HC Hcost Hbound v z e Hd He. split; [done |].
  apply add64_exact. by eapply sums_exact.
Qed.

(** C1 as amended: for a network whose costs are integers between 0 and
    [C], with [C] times the number of nodes at most [2^53] (so that every sum
    the code computes is the exact one), with unique and non-empty node ids,
    in which the first edge between two nodes is a cheapest one, and for
    distinct ids [s] and [d] of nodes with [d] reachable from [s],
    [dijkstra] returns (with more turns than there are nodes) a non-empty
    sequence of segments that starts at the node [s], ends at the node [d],
    in which each segment starts where the one before it ends, and whose
    total cost is the least cost of a path from [s] to [d], an integer of at
    most [2^53]. *)
Theorem dijkstra_shortest_route (g : Network string) (s d : string) (C : Z) :
  (∀ e, e ∈ edges g → 0 ≤ edge_cost e ≤ C) →
  Z.of_nat (length (nodes g)) * C ≤ 2 ^ 53 →
  NoDup (ids g) →
  (∀ k, is_node g k → k ≠ "") →
  first_edge_cheapest g →
  is_node g s → is_node g d → s ≠ d → reachable g s d →
  ∀ fuel, (length (nodes g) < fuel)%nat →
    ∃ p, dijkstra fuel g s d = Some p ∧ p ≠ [] ∧
         (∃ seg n, head p = Some seg ∧ seg_from seg = Some n ∧
                   n ∈ nodes g ∧ node_id n = s) ∧
         (∃ seg n, last p = Some seg ∧ seg_to seg = Some n ∧
                   n ∈ nodes g ∧ node_id n = d) ∧
         chained p ∧ route g s d p ∧
         min_cost g s d (total_cost p) ∧
         0 ≤ total_cost p ≤ 2 ^ 53.
Proof.
  intros Hcost Hbound Hnd Hne Hcheap Hs Hd Hsd Hreach fuel Hfuel.
  destruct (shortest_route_lemma g s d) with (fuel := fuel)
    as (p & Hrun & Hp & Hhead & Hlast & Hch & Hroute & Hmin
        & vis & st & z & _ & HI & Hz & Hle); try done.
  { intros e He. by destruct (Hcost e He). }
  exists p. split_and!; try done.
  - destruct Hmin as [Hw _]. eapply walk_nonneg; [| exact Hw].
    intros e He. by destruct (Hcost e He).
  - assert (0 ≤ C) as HC.
    { destruct (route_edge g s d p Hroute Hp) as [e He].
      destruct (Hcost e He). lia. }
    pose proof (turns_le g s vis st d HI Hd) as Ht.
    pose proof (distance_bound g s vis st C HI HC
                  ltac:(intros e He; by apply Hcost) _ d z (le_n _) Hz)
      as [_ Hz1].
    nia.
Qed.

Lemma dijkstra_shortest_route_witness :
  ∃ p, dijkstra 7 getDefaultNetwork "A" "F" = Some p ∧ p ≠ [] ∧
       (∃ seg n, head p = Some seg ∧ seg_from seg = Some n ∧
                 n ∈ nodes getDefaultNetwork ∧ node_id n = "A") ∧
       (∃ seg n, last p = Some seg ∧ seg_to seg = Some n ∧
                 n ∈ nodes getDefaultNetwork ∧ node_id n = "F") ∧
       chained p ∧ route getDefaultNetwork "A" "F" p ∧
       min_cost getDefaultNetwork "A" "F" (total_cost p) ∧
       0 ≤ total_cost p ≤ 2 ^ 53.
Proof.
  apply (dijkstra_shortest_route getDefaultNetwork "A" "F" 15).
  - intros e He. simpl in He.
    repeat (apply elem_of_cons in He as [-> | He]; [simpl; lia |]).
    by apply elem_of_nil in He.
  - simpl. lia.
  - refine (bool_decide_unpack _ _). vm_compute. exact I.
  - intros k Hk. unfold is_node in Hk. simpl in Hk.
    repeat (apply elem_of_cons in Hk as [-> | Hk]; [done |]).
    by apply elem_of_nil in Hk.
  - apply first_edge_cheapest_checked. vm_compute. reflexivity.
  - unfold is_node. refine (bool_decide_unpack _ _). vm_compute. exact I.
  - unfold is_node. refine (bool_decide_unpack _ _). vm_compute. exact I.
  - done.
  - exists (0 + 9 + 2 + 7).
    assert (∀ k, bool_decide (k ∈ ids getDefaultNetwork) = true →
                 is_node getDefaultNetwork k) as Hn.
    { intros k Hk. by apply bool_decide_eq_true in Hk. }
    assert (∀ a b e, bool_decide (e ∈ edges getDefaultNetwork) = true →
                     joins a b e = true → hop getDefaultNetwork a b e) as Hh.
    { intros a b e He Hj. split; [by apply bool_decide_eq_true in He | done]. }
    eapply (walk_step _ _ "E" "F" (mkEdge "E" "F" 7));
      [| apply Hh; vm_compute; reflexivity | apply Hn; vm_compute; reflexivity].
    eapply (walk_step _ _ "C" "E" (mkEdge "C" "E" 2));
      [| apply Hh; vm_compute; reflexivity | apply Hn; vm_compute; reflexivity].
    eapply (walk_step _ _ "A" "C" (mkEdge "A" "C" 9));
      [| apply Hh; vm_compute; reflexivity | apply Hn; vm_compute; reflexivity].
    apply walk_here. apply Hn. vm_compute. reflexivity.
  - simpl. lia.
Defined.

(** C1 as stated fails on [parallel_network]: costs are non-negative, ids
    unique, "A" and "B" are distinct nodes and "B" is reachable from "A", yet
    the returned segment carries the first edge between them, of cost 10,
    while the second edge is a path of cost 1. *)
Lemma dijkstra_parallel_edges_not_minimal :
  (∀ e, e ∈ edges parallel_network → 0 ≤ edge_cost e) ∧
  NoDup (ids parallel_network) ∧
  is_node parallel_network "A" ∧ is_node parallel_network "B" ∧
  "A" ≠ "B" ∧ reachable parallel_network "A" "B" ∧
  dijkstra 3 parallel_network "A" "B" =
    Some [mkSeg (Some (mkNode "A" "A" (0#1) (0#1) router))
                (Some (mkNode "B" "B" (100#1) (0#1) router))
                (mkEdge "A" "B" 10)] ∧
  ∀ fuel p, dijkstra fuel parallel_network "A" "B" = Some p →
            total_cost p = 10 ∧
            ¬ min_cost parallel_network "A" "B" (total_cost p).
Proof.
  assert (walk parallel_network "A" "B" (0 + 1)) as Hw.
  { eapply (walk_step _ _ "A" "B" (mkEdge "A" "B" 1)).
    - apply walk_here. unfold is_node.
      refine (bool_decide_unpack _ _). vm_compute. exact I.
    - split; [| reflexivity].
      refine (bool_decide_unpack _ _). vm_compute. exact I.
    - unfold is_node. refine (bool_decide_unpack _ _). vm_compute. exact I. }
  assert (dijkstra 3 parallel_network "A" "B" =
    Some [mkSeg (Some (mkNode "A" "A" (0#1) (0#1) router))
                (Some (mkNode "B" "B" (100#1) (0#1) router))
                (mkEdge "A" "B" 10)]) as Hrun by (vm_compute; reflexivity).
  split_and!.
  - intros e He. simpl in He.
    repeat (apply elem_of_cons in He as [-> | He]; [simpl; lia |]).
    by apply elem_of_nil in He.
  - refine (bool_decide_unpack _ _). vm_compute. exact I.
  - unfold is_node. refine (bool_decide_unpack _ _). vm_compute. exact I.
  - unfold is_node. refine (bool_decide_unpack _ _). vm_compute. exact I.
  - done.
  - by exists (0 + 1).
  - exact Hrun.
  - intros fuel p Hp.
    apply (dijkstra_mono _ _ _ _ _ 3) in Hp.
    apply (dijkstra_mono _ _ _ _ _ fuel) in Hrun.
    replace (fuel + 3)%nat with (3 + fuel)%nat in Hp by lia.
    rewrite Hrun in Hp. simplify_eq. split; [reflexivity |].
    intros [_ Hmin]. specialize (Hmin _ Hw). simpl in Hmin. lia.
Qed.

(** ** C10 *)

Lemma rebuild_first_match fuel st current acc p :
  rebuild fuel st current acc = Some p →
  (∀ seg, seg ∈ acc → first_match (network st) seg) →
  ∀ seg, seg ∈ p → first_match (network st) seg.
Proof.
  revert current acc. induction fuel as [| fuel IH]; intros current acc; simpl;
    [done |].
  intros Hr Hacc.
  assert (∀ prev acc',
            acc' = match find_edge (network st) prev current with
                   | Some edge =>
                       {| seg_from := find_node (network st) prev;
                          seg_to := find_node (network st) current;
                          seg_edge := edge |} :: acc
                   | None => acc
                   end →
            ∀ seg, seg ∈ acc' → first_match (network st) seg) as Hstep.
  { intros prev acc' -> seg.
    destruct (find_edge (network st) prev current) as [e |] eqn:Hf; [| auto].
    intros [-> | Hseg]%elem_of_cons; [| auto].
    assert (∃ a b, prev = Some a ∧ current = Some b) as (a & b & -> & ->).
    { unfold find_edge in Hf. apply find_some in Hf as [_ Hj].
      apply orb_true_iff in Hj as [[<- <-]%bool_decide_eq_true
                                  | [<- <-]%bool_decide_eq_true]; eauto. }
    exists a, b. simpl. by rewrite <- find_edge_joins. }
  destruct (map_get (previous st) current) as [[prev |] |] eqn:Hg.
  - eapply IH; [done |]. by eapply Hstep.
  - by simplify_eq.
  - eapply IH; [done |]. by eapply Hstep.
Qed.

(** C10: two calls of [dijkstra] on the same arguments that both return,
    return the same segments and leave the same store, whose network is the
    argument, untouched; the scan of lines 36-42 always selects the node that
    comes first, in insertion order, among the unvisited nodes at the least
    distance; and the edge of every returned segment is the first edge of the
    network, in edge order, between the two nodes of the hop. *)
Theorem dijkstra_deterministic_pure (net : Network string) (s d : string)
    (fuel1 fuel2 : nat) (st1 st2 : DState) (p1 p2 : list PathSegment) :
  dijkstra_run fuel1 net s d = Some (st1, p1) →
  dijkstra_run fuel2 net s d = Some (st2, p2) →
  p1 = p2 ∧ st1 = st2 ∧
  network st1 = net ∧
  nodes (network st1) = nodes net ∧ edges (network st1) = edges net ∧
  (∀ st k m, find_min st = (Some k, m) →
     ∃ l1 l2, unvisited st = l1 ++ k :: l2 ∧
              distances st !! k = Some m ∧
              (∀ k' d', k' ∈ l1 → distances st !! k' = Some d' →
                        num_ltb m d' = true) ∧
              (∀ k' d', k' ∈ l2 → distances st !! k' = Some d' →
                        num_ltb d' m = false)) ∧
  (∀ seg, seg ∈ p1 → first_match net seg).
Proof.
  intros H1 H2.
  assert ((st1, p1) = (st2, p2)) as Heq.
  { apply (dijkstra_run_mono _ _ _ _ _ fuel2) in H1.
    apply (dijkstra_run_mono _ _ _ _ _ fuel1) in H2.
    replace (fuel2 + fuel1)%nat with (fuel1 + fuel2)%nat in H2 by lia.
    congruence. }
  simplify_eq. clear H2. unfold dijkstra_run in H1.
  destruct (main_loop fuel1 d (init_state net s)) as [st |] eqn:Hm; [| done].
  simpl in H1. destruct (rebuild fuel1 st (Some d) []) as [p |] eqn:Hp; [| done].
  simpl in H1. simplify_eq.
  apply main_loop_keys_ok in Hm as [_ Hn]; [| apply init_keys_ok].
  rewrite init_network in Hn.
  split_and!; try done; try (by rewrite Hn).
  - intros st k m Hf.
    destruct (find_min_some _ _ _ Hf) as (l1 & l2 & z & ? & -> & ? & ? & ?).
    exists l1, l2. done.
  - rewrite <- Hn. eapply rebuild_first_match; [done |].
    intros seg Hseg. by apply elem_of_nil in Hseg.
Qed.

Lemma dijkstra_deterministic_pure_witness :
  ∃ st p,
    dijkstra_run 7 getDefaultNetwork "A" "F" = Some (st, p) ∧
    network st = getDefaultNetwork ∧
    (∀ seg, seg ∈ p → first_match getDefaultNetwork seg).
Proof.
  destruct (dijkstra_run 7 getDefaultNetwork "A" "F") as [[st p] |] eqn:Hrun.
  - exists st, p. split; [reflexivity |].
    pose proof (dijkstra_deterministic_pure getDefaultNetwork "A" "F" 7 7
                  st st p p Hrun Hrun) as (_ & _ & Hn & _ & _ & _ & Hf).
    split; [exact Hn | exact Hf].
  - vm_compute in Hrun. discriminate Hrun.
Defined.

(** ** Rounding a scaled draw *)

Lemma floor_scale_range (r : Q) (n : Z) :
  (0 <= r)%Q → (r < 1)%Q → 0 < n → 0 ≤ Qfloor (r * inject_Z n) < n.
Proof.
  intros Hr0 Hr1 Hn. split.
  - change 0 with (Qfloor (inject_Z 0)) at 1. rewrite Qfloor_Z at 1.
    rewrite <- (Qfloor_Z 0). apply Qfloor_resp_le.
    apply Qmult_le_0_compat; [done |].
    change 0%Q with (inject_Z 0). rewrite <- Zle_Qle. lia.
  - rewrite Zlt_Qlt. eapply Qle_lt_trans; [apply Qfloor_le |].
    rewrite <- (Qmult_1_l (inject_Z n)) at 2.
    apply Qmult_lt_compat_r; [| done].
    change 0%Q with (inject_Z 0). rewrite <- Zlt_Qlt. lia.
Qed.

Lemma floor_scale_zero (r : Q) : Qfloor (r * inject_Z 0) = 0.
Proof.
  assert (r * inject_Z 0 == inject_Z 0)%Q as Heq by ring.
  assert (Qfloor (r * inject_Z 0) ≤ Qfloor (inject_Z 0)) as H1
    by (apply Qfloor_resp_le; rewrite Heq; apply Qle_refl).
  assert (Qfloor (inject_Z 0) ≤ Qfloor (r * inject_Z 0)) as H2
    by (apply Qfloor_resp_le; rewrite Heq; apply Qle_refl).
  rewrite Qfloor_Z in H1, H2. lia.
Qed.

(** ** The monad of draws *)

Lemma gen_bind_eq {A B} (m : Gen A) (f : A → Gen B) k :
  (m ≫= f) k = match m k with Some (a, k') => f a k' | None => None end.
Proof. reflexivity. Qed.

Lemma gen_ret_eq {A} (a : A) k : (mret a : Gen A) k = Some (a, k).
Proof. reflexivity. Qed.

(** A counted loop whose body always returns keeps an invariant indexed by
    the loop counter. *)
Lemma for_each_seq {A} (P : nat → A → Prop) (body : A → nat → Gen A) len :
  ∀ start a k,
    P start a →
    (∀ i a k, (start ≤ i < start + len)%nat → P i a →
              ∃ a' k', body a i k = Some (a', k') ∧ P (S i) a') →
    ∃ a' k', for_each body (seq start len) a k = Some (a', k') ∧
             P (start + len)%nat a'.
Proof.
  induction len as [| len IH]; intros start a k HP Hbody; simpl.
  - exists a, k. rewrite Nat.add_0_r. done.
  - rewrite gen_bind_eq.
    destruct (Hbody start a k) as (a1 & k1 & -> & HP1); [lia | done |].
    destruct (IH (S start) a1 k1 HP1) as (a' & k' & Hrun & HP').
    { intros i a0 k0 Hi. apply Hbody. lia. }
    exists a', k'. split; [done |].
    by replace (start + S len)%nat with (S start + len)%nat by lia.
Qed.

(** ** Node placement (lines 109-136) *)

Section Placement.
Context (random : nat → Q).

Lemma place_spec placed budget :
    ∀ x0 y0 a0 k,
      (1 ≤ budget)%nat →
      ∃ p a,
        place random budget placed (mkPlacement x0 y0 false a0) k
          = Some (p, (k + 2 * a)%nat) ∧
        (1 ≤ a ≤ budget)%nat ∧ attempts p = (a0 + a)%nat ∧
        (p_x p, p_y p) = candidate random k (a - 1) ∧
        validPosition p = candidate_ok random placed k (a - 1) ∧
        (∀ j, (j < a - 1)%nat → candidate_ok random placed k j = false) ∧
        (candidate_ok random placed k (a - 1) = true ∨ a = budget).
  Proof.
    induction budget as [| budget IH]; intros x0 y0 a0 k Hb; [lia |].
    simpl. rewrite !gen_bind_eq. unfold Math_random. simpl.
    rewrite !gen_bind_eq. simpl.
    set (x := ((100 # 1) + random k * (700 # 1))%Q).
    set (y := ((80 # 1) + random (S k) * (400 # 1))%Q).
    assert (candidate random k 0 = (x, y)) as Hc0.
    { unfold candidate, x, y. simpl.
      by rewrite !Nat.add_0_r, Nat.add_1_r. }
    assert (candidate_ok random placed k 0 = forallb (far_enough x y) placed)
      as Hok0 by (unfold candidate_ok; by rewrite Hc0).
    destruct budget as [| budget].
    { simpl.
      exists (mkPlacement x y (forallb (far_enough x y) placed) (S a0)), 1%nat.
      split; [rewrite gen_ret_eq; do 2 f_equal; lia |].
      simpl. rewrite Hc0, Hok0. split_and!; try done; try lia; auto. }
    destruct (forallb (far_enough x y) placed) eqn:Hvalid.
    { simpl. exists (mkPlacement x y true (S a0)), 1%nat.
      split; [rewrite gen_ret_eq; do 2 f_equal; lia |].
      simpl. rewrite Hc0, Hok0. split_and!; try done; try lia; auto. }
    destruct (IH x y (S a0) (S (S k))) as (p & a & Hrun & Ha & Hatt & Hpos & Hv & Hbad & Hlast);
      [lia |].
    assert (∀ j, candidate random (S (S k)) j = candidate random k (S j)) as Hshift.
    { intros j. unfold candidate.
      by replace (S (S k) + 2 * j)%nat with (k + 2 * S j)%nat by lia. }
    assert (∀ j, candidate_ok random placed (S (S k)) j
                 = candidate_ok random placed k (S j)) as Hshift_ok.
    { intros j. unfold candidate_ok. by rewrite Hshift. }
    exists p, (S a). split_and!.
    - rewrite Hrun. do 2 f_equal. lia.
    - lia.
    - lia.
    - lia.
    - rewrite Hpos, Hshift. f_equal. lia.
    - rewrite Hv, Hshift_ok. f_equal. lia.
    - intros j Hj. destruct j as [| j]; [by rewrite Hok0 |].
      rewrite <- Hshift_ok. apply Hbad. lia.
    - destruct Hlast as [Hl | ->]; [| by right].
      left. rewrite Hshift_ok in Hl. by replace (S a - 1)%nat with (S (a - 1)) by lia.
  Qed.

Lemma place_node_spec placed i k :
    ∃ p a,
      place_node random placed i k =
        Some (placed ++ [mkNode (labels !! i) (labels !! i) (p_x p) (p_y p) router],
              (k + 2 * a)%nat) ∧
      (1 ≤ a ≤ 100)%nat ∧ attempts p = a ∧
      (p_x p, p_y p) = candidate random k (a - 1) ∧
      (∀ j, (j < a - 1)%nat → candidate_ok random placed k j = false) ∧
      (candidate_ok random placed k (a - 1) = true ∨ a = 100%nat).
  Proof.
    destruct (place_spec placed 100 0%Q 0%Q 0%nat k)
      as (p & a & Hrun & Ha & Hatt & Hpos & _ & Hbad & Hlast); [lia |].
    exists p, a. unfold place_node. rewrite gen_bind_eq, Hrun.
    simpl in Hatt. split_and!; try done; lia.
  Qed.
End Placement.

(** ** Reachability in a network *)

Section Reach.
Context {Id : Type} `{EqDecision Id} (net : Network Id).

Lemma walk_is_node a b c : walk net a b c → is_node net a ∧ is_node net b.
  Proof. induction 1; [done |]. split; [tauto | done]. Qed.

Lemma reachable_refl a : is_node net a → reachable net a a.
  Proof. intros Ha. exists 0. by constructor. Qed.

Lemma reachable_trans a b c :
    reachable net a b → reachable net b c → reachable net a c.
  Proof.
    intros Hab [z Hbc]. induction Hbc as [| c c' e z Hw IH Hhop Hn]; [done |].
    destruct IH as [z' Hac]. exists (z' + edge_cost e). by eapply walk_step.
  Qed.

Lemma joins_comm (a b : Id) e : joins a b e = joins b a e.
  Proof.
    unfold joins. rewrite orb_comm. f_equal; apply bool_decide_ext; tauto.
  Qed.

Lemma reachable_hop a b e :
    is_node net a → is_node net b → hop net a b e → reachable net a b.
  Proof.
    intros Ha Hb Hhop. exists (0 + edge_cost e).
    eapply walk_step; [by constructor | done | done].
  Qed.

Lemma reachable_sym a b : reachable net a b → reachable net b a.
  Proof.
    intros [z Hab]. induction Hab as [| b b' e z Hw IH Hhop Hn].
    - by apply reachable_refl.
    - eapply reachable_trans; [| apply IH].
      apply (reachable_hop b' b e); [done | apply (walk_is_node _ _ _ Hw) |].
      destruct Hhop as [? ?]. split; [done |]. by rewrite joins_comm.
  Qed.
End Reach.

(** ** The three loops of the generator *)

Section GenProofs.
Context (random : nat → Q) (Hrange : unit_range random).

Lemma random_cost_spec k :
    ∃ c, random_cost random k = Some (c, S k) ∧ 5 ≤ c ≤ 19.
  Proof.
    unfold random_cost. rewrite gen_bind_eq. unfold Math_random.
    destruct (Hrange k) as [H0 H1].
    pose proof (floor_scale_range (random k) 15 H0 H1 ltac:(lia)) as Hf.
    change (inject_Z 15) with (15 # 1)%Q in Hf.
    eexists. split; [reflexivity |]. lia.
  Qed.

Lemma tree_step_spec placed es i k :
    (1 ≤ i < length placed)%nat →
    ∃ j c ni nj,
      tree_step random placed es i k =
        Some (es ++ [mkEdge (node_id ni) (node_id nj) c], S (S k)) ∧
      (j < i)%nat ∧ placed !! i = Some ni ∧ placed !! j = Some nj ∧
      5 ≤ c ≤ 19.
  Proof.
    intros Hi. unfold tree_step. rewrite gen_bind_eq. unfold Math_random.
    destruct (Hrange k) as [H0 H1].
    pose proof (floor_scale_range (random k) (Z.of_nat i) H0 H1 ltac:(lia))
      as Hf.
    set (jz := Qfloor (random k * inject_Z (Z.of_nat i))) in *.
    destruct (lookup_lt_is_Some_2 placed i) as [ni Hni]; [lia |].
    destruct (lookup_lt_is_Some_2 placed (Z.to_nat jz)) as [nj Hnj]; [lia |].
    destruct (random_cost_spec (S k)) as (c & Hc & Hcr).
    exists (Z.to_nat jz), c, ni, nj.
    rewrite !gen_bind_eq. rewrite Hni. simpl.
    unfold js_nth. rewrite decide_True by lia. rewrite Hnj. simpl.
    rewrite gen_bind_eq. simpl. rewrite gen_bind_eq, Hc.
    split_and!; try done; lia.
  Qed.

Lemma spanning_tree_spec placed k :
    ∃ tree k',
      spanning_tree random placed k = Some (tree, k') ∧
      length tree = (length placed - 1)%nat ∧
      ∀ i, (1 ≤ i < length placed)%nat →
        ∃ j c ni nj,
          (j < i)%nat ∧
          tree !! (i - 1)%nat = Some (mkEdge (node_id ni) (node_id nj) c) ∧
          placed !! i = Some ni ∧ placed !! j = Some nj ∧ 5 ≤ c ≤ 19.
  Proof.
    unfold spanning_tree.
    destruct (for_each_seq
      (λ i (es : list (NetworkEdge (option string))),
         length es = (i - 1)%nat ∧
         ∀ m, (1 ≤ m < i)%nat →
           ∃ j c ni nj,
             (j < m)%nat ∧
             es !! (m - 1)%nat = Some (mkEdge (node_id ni) (node_id nj) c) ∧
             placed !! m = Some ni ∧ placed !! j = Some nj ∧ 5 ≤ c ≤ 19)
      (tree_step random placed) (length placed - 1) 1%nat [] k)
      as (tree & k' & Hrun & Hlen & Htree).
    { split; [done |]. intros m Hm. lia. }
    { intros i es k0 Hi [Hlen Hes].
      destruct (tree_step_spec placed es i k0) as (j & c & ni & nj & -> & Hj & Hni & Hnj & Hc);
        [lia |].
      eexists _, _. split; [reflexivity |]. split.
      - rewrite length_app. simpl. lia.
      - intros m Hm. destruct (decide (m = i)) as [-> | Hne].
        + exists j, c, ni, nj. split_and!; try done; try lia.
          rewrite lookup_app_r by lia.
          by replace (i - 1 - length es)%nat with 0%nat by lia.
        + destruct (Hes m) as (j' & c' & ni' & nj' & ? & Hl & ?); [lia |].
          exists j', c', ni', nj'. split; [done |]. split; [| done].
          rewrite lookup_app_l by lia. done. }
    exists tree, k'. split; [done |]. split; [lia |].
    intros i Hi. apply Htree. lia.
  Qed.

Lemma extra_step_spec placed es i k :
    placed ≠ [] →
    ∃ es' k',
      extra_step random placed es i k = Some (es', k') ∧
      (es' = es ∨
       ∃ nf nt c, es' = es ++ [mkEdge (node_id nf) (node_id nt) c] ∧
                  nf ∈ placed ∧ nt ∈ placed ∧
                  node_id nf ≠ node_id nt ∧ 5 ≤ c ≤ 19).
  Proof.
    intros Hne. unfold extra_step. rewrite gen_bind_eq. unfold Math_random.
    assert (0 < Z.of_nat (length placed)) as Hlen.
    { destruct placed; [done | simpl; lia]. }
    destruct (Hrange k) as [H0 H1]. destruct (Hrange (S k)) as [H0' H1'].
    pose proof (floor_scale_range (random k) _ H0 H1 Hlen) as Hf.
    pose proof (floor_scale_range (random (S k)) _ H0' H1' Hlen) as Ht.
    set (fz := Qfloor (random k * inject_Z (Z.of_nat (length placed)))) in *.
    set (tz := Qfloor (random (S k) * inject_Z (Z.of_nat (length placed)))) in *.
    destruct (lookup_lt_is_Some_2 placed (Z.to_nat fz)) as [nf Hnf]; [lia |].
    destruct (lookup_lt_is_Some_2 placed (Z.to_nat tz)) as [nt Hnt]; [lia |].
    rewrite gen_bind_eq. unfold js_nth. rewrite !decide_True by lia.
    fold tz. rewrite gen_bind_eq, Hnf. simpl.
    rewrite gen_bind_eq, Hnt. simpl.
    case_decide as Hid; [| eauto].
    destruct (existsb _ es); [eauto |].
    destruct (random_cost_spec (S (S k))) as (c & Hc & Hcr).
    rewrite gen_bind_eq, Hc. eexists _, _. split; [reflexivity |].
    right. exists nf, nt, c. split_and!; try done; try lia.
    - by eapply list_elem_of_lookup_2.
    - by eapply list_elem_of_lookup_2.
  Qed.

Lemma place_loop_spec n k :
    ∃ placed k',
      for_each (place_node random) (seq 0 n) [] k = Some (placed, k') ∧
      length placed = n ∧
      ∀ i, (i < n)%nat →
        ∃ nd, placed !! i = Some nd ∧ node_id nd = labels !! i.
  Proof.
    destruct (for_each_seq
      (λ i (placed : list (NetworkNode (option string))),
         length placed = i ∧
         ∀ j, (j < i)%nat →
           ∃ nd, placed !! j = Some nd ∧ node_id nd = labels !! j)
      (place_node random) n 0%nat [] k)
      as (placed & k' & Hrun & Hlen & Hids).
    { split; [done |]. intros j Hj. lia. }
    { intros i placed k0 Hi [Hlen Hids].
      destruct (place_node_spec random placed i k0) as (p & a & -> & _).
      eexists _, _. split; [reflexivity |]. split.
      - rewrite length_app. simpl. lia.
      - intros j Hj. destruct (decide (j = i)) as [-> | Hne].
        + eexists. rewrite lookup_app_r by lia.
          replace (i - length placed)%nat with 0%nat by lia. simpl. done.
        + destruct (Hids j) as (nd & ? & ?); [lia |].
          exists nd. rewrite lookup_app_l by lia. done. }
    exists placed, k'. done.
  Qed.

  (** What a call with at least one node returns. *)
Lemma generate_spec nodeCount k :
    (1 ≤ nodeCount)%nat →
    ∃ net k' tree extra k1 k2,
      generateRandomNetwork random nodeCount k = Some (net, k') ∧
      length (nodes net) = nodeCount ∧
      (∀ i, (i < nodeCount)%nat →
         ∃ nd, nodes net !! i = Some nd ∧ node_id nd = labels !! i) ∧
      spanning_tree random (nodes net) k1 = Some (tree, k2) ∧
      edges net = tree ++ extra ∧
      length tree = (nodeCount - 1)%nat ∧
      (∀ i, (1 ≤ i < nodeCount)%nat →
         ∃ j c ni nj,
           (j < i)%nat ∧
           tree !! (i - 1)%nat = Some (mkEdge (node_id ni) (node_id nj) c) ∧
           nodes net !! i = Some ni ∧ nodes net !! j = Some nj ∧
           5 ≤ c ≤ 19) ∧
      Forall (λ e, ∃ nf nt, nf ∈ nodes net ∧ nt ∈ nodes net ∧
                            edge_from e = node_id nf ∧
                            edge_to e = node_id nt ∧
                            edge_from e ≠ edge_to e ∧
                            5 ≤ edge_cost e ≤ 19) extra.
  Proof.
    intros Hn. unfold generateRandomNetwork.
    destruct (place_loop_spec nodeCount k) as (placed & k1 & Hplace & Hlen & Hids).
    destruct (spanning_tree_spec placed k1) as (tree & k2 & Htree & Htl & Htp).
    rewrite gen_bind_eq, Hplace. rewrite gen_bind_eq, Htree.
    rewrite gen_bind_eq. unfold Math_random.
    set (extras := Z.to_nat (Qfloor (random k2 * (3 # 1)) + 2)).
    destruct (for_each_seq
      (λ (_ : nat) (es : list (NetworkEdge (option string))),
         ∃ extra, es = tree ++ extra ∧
           Forall (λ e, ∃ nf nt, nf ∈ placed ∧ nt ∈ placed ∧
                                 edge_from e = node_id nf ∧
                                 edge_to e = node_id nt ∧
                                 edge_from e ≠ edge_to e ∧
                                 5 ≤ edge_cost e ≤ 19) extra)
      (extra_step random placed) extras 0%nat tree (S k2))
      as (es & k3 & Hrun & extra & -> & Hextra).
    { exists []. by rewrite app_nil_r. }
    { intros i es k0 _ (extra & -> & Hextra).
      destruct (extra_step_spec placed (tree ++ extra) i k0)
        as (es' & k' & -> & [-> | (nf & nt & c & -> & ? & ? & ? & ?)]).
      { intros ->. simpl in Hlen. lia. }
      - eexists _, _. split; [reflexivity |]. eauto.
      - eexists _, _. split; [reflexivity |].
        exists (extra ++ [mkEdge (node_id nf) (node_id nt) c]).
        split; [by rewrite app_assoc |].
        apply Forall_app. split; [done |]. constructor; [| done].
        exists nf, nt. done. }
    rewrite gen_bind_eq, Hrun.
    exists (mkNetwork placed (tree ++ extra)), k3, tree, extra, k1, k2.
    simpl. rewrite <- Hlen.
    split_and!; try done; intros i Hi; first [apply Hids | apply Htp]; lia.
  Qed.
End GenProofs.

Lemma unit_range_low : unit_range random_low.
Proof. intros k. split; [apply Qle_refl | reflexivity]. Qed.

Lemma unit_range_high : unit_range random_high.
Proof. intros k. split; [discriminate | reflexivity]. Qed.

(** The first eleven values of [labels[i]], the eleventh being
    [undefined], differ from one another. *)
Lemma labels_inj i j :
  (i < 11)%nat → (j < 11)%nat → labels !! i = labels !! j → i = j.
Proof.
  intros Hi Hj.
  do 11 (destruct i as [| i];
         [do 11 (destruct j as [| j]; [by intros | ]); lia |]).
  lia.
Qed.

(** ** C4 *)

Lemma tree_connects {Id} `{EqDecision Id} (net : Network Id) n0 :
  nodes net !! 0%nat = Some n0 →
  (∀ i, (1 ≤ i < length (nodes net))%nat →
     ∃ j c ni nj,
       (j < i)%nat ∧
       mkEdge (node_id ni) (node_id nj) c ∈ edges net ∧
       nodes net !! i = Some ni ∧ nodes net !! j = Some nj) →
  connected net.
Proof.
  intros H0 Htree.
  assert (∀ nd, nd ∈ nodes net → is_node net (node_id nd)) as Hnode.
  { intros nd Hnd. by apply list_elem_of_fmap_2. }
  assert (∀ m nm, nodes net !! m = Some nm →
                  reachable net (node_id n0) (node_id nm)) as Hroot.
  { intros m. induction m as [m IH] using lt_wf_ind. intros nm Hm.
    destruct m as [| m].
    - rewrite H0 in Hm. simplify_eq. apply reachable_refl, Hnode.
      by eapply list_elem_of_lookup_2.
    - destruct (Htree (S m)) as (j & c & ni & nj & Hj & He & Hni & Hnj).
      { apply lookup_lt_Some in Hm. lia. }
      rewrite Hm in Hni. simplify_eq.
      eapply reachable_trans; [apply (IH j Hj nj Hnj) |].
      apply (reachable_hop net _ _ (mkEdge (node_id ni) (node_id nj) c)).
      + apply Hnode. by eapply list_elem_of_lookup_2.
      + apply Hnode. by eapply list_elem_of_lookup_2.
      + split; [done |]. unfold joins. simpl.
        apply orb_true_iff. right. by apply bool_decide_eq_true. }
  intros a b Ha Hb. unfold is_node in Ha, Hb.
  apply list_elem_of_fmap in Ha as (na & -> & Hna).
  apply list_elem_of_fmap in Hb as (nb & -> & Hnb).
  apply list_elem_of_lookup in Hna as [ia Hia].
  apply list_elem_of_lookup in Hnb as [ib Hib].
  eapply reachable_trans; [apply reachable_sym |]; eauto.
Qed.

(** What the generator returns.  [connected] is over ids; up to ten nodes
    the ids are the distinct letters [labels], so it says that every node is
    reachable from every other one. *)
Lemma generate_connected (random : nat → Q) (nodeCount k : nat) :
  unit_range random → (1 ≤ nodeCount)%nat →
  ∃ net k' tree extra k1 k2,
    generateRandomNetwork random nodeCount k = Some (net, k') ∧
    length (nodes net) = nodeCount ∧
    connected net ∧
    spanning_tree random (nodes net) k1 = Some (tree, k2) ∧
    edges net = tree ++ extra ∧
    length tree = (nodeCount - 1)%nat ∧
    ∀ i, (1 ≤ i < nodeCount)%nat →
      ∃ j c ni nj,
        (j < i)%nat ∧
        tree !! (i - 1)%nat = Some (mkEdge (node_id ni) (node_id nj) c) ∧
        nodes net !! i = Some ni ∧ nodes net !! j = Some nj.
Proof.
  intros Hrange Hn.
  destruct (generate_spec random Hrange nodeCount k Hn)
    as (net & k' & tree & extra & k1 & k2 & Hrun & Hlen & Hids & Hst & Hedges
        & Htl & Htree & Hextra).
  exists net, k', tree, extra, k1, k2. split_and!; try done.
  - destruct (Hids 0%nat) as (n0 & Hn0 & _); [lia |].
    apply (tree_connects net n0 Hn0). intros i Hi.
    destruct (Htree i) as (j & c & ni & nj & Hj & Hl & Hni & Hnj & _); [lia |].
    exists j, c, ni, nj. split_and!; try done.
    rewrite Hedges. apply elem_of_app. left. by eapply list_elem_of_lookup_2.
  - intros i Hi.
    destruct (Htree i Hi) as (j & c & ni & nj & Hj & Hl & Hni & Hnj & _).
    exists j, c, ni, nj. done.
Qed.

Lemma labels_past i : (10 ≤ i)%nat → labels !! i = None.
Proof. intros Hi. apply lookup_ge_None_2. simpl. lia. Qed.

(** C4, at [generateRandomNetwork(11)] and beyond: nothing caps [nodeCount]
    at the size of the alphabet.  For every [nodeCount] above 10 the network
    has [nodeCount] nodes, not the ten that the cap would leave, and every
    node from index 10 on has [labels[i]], which is [undefined], as id. *)
Theorem generateRandomNetwork_past_alphabet (random : nat → Q)
    (nodeCount k : nat) :
  unit_range random → (10 < nodeCount)%nat →
  ∃ net k',
    generateRandomNetwork random nodeCount k = Some (net, k') ∧
    length (nodes net) = nodeCount ∧
    length (nodes net) ≠ Nat.min nodeCount (length labels) ∧
    ∀ i, (10 ≤ i < nodeCount)%nat →
      ∃ nd, nodes net !! i = Some nd ∧ node_id nd = None.
Proof.
  intros Hrange Hn.
  destruct (generate_spec random Hrange nodeCount k)
    as (net & k' & _ & _ & _ & _ & Hrun & Hlen & Hids & _); [lia |].
  exists net, k'. split_and!; [done | done | |].
  - rewrite Hlen. simpl. lia.
  - intros i Hi. destruct (Hids i) as (nd & Hnd & Hid); [lia |].
    exists nd. split; [done |]. rewrite Hid. apply labels_past. lia.
Qed.

Lemma generateRandomNetwork_past_alphabet_witness :
  ∃ net k',
    generateRandomNetwork random_low 11 0%nat = Some (net, k') ∧
    length (nodes net) = 11%nat ∧
    length (nodes net) ≠ Nat.min 11 (length labels) ∧
    ∀ i, (10 ≤ i < 11)%nat →
      ∃ nd, nodes net !! i = Some nd ∧ node_id nd = None.
Proof.
  apply (generateRandomNetwork_past_alphabet random_low 11 0%nat).
  - apply unit_range_low.
  - lia.
Defined.

(** ** C9 *)

Lemma generate_zero_none (random : nat → Q) (k : nat) :
  unit_range random → generateRandomNetwork random 0 k = None.
Proof.
  intros Hrange. unfold generateRandomNetwork.
  cbn [seq for_each]. rewrite gen_bind_eq, gen_ret_eq.
  unfold spanning_tree. cbn [length Nat.sub seq for_each].
  rewrite gen_bind_eq, gen_ret_eq. rewrite gen_bind_eq. unfold Math_random.
  destruct (Hrange k) as [H0 H1].
  pose proof (floor_scale_range (random k) 3 H0 H1 ltac:(lia)) as Hf.
  change (inject_Z 3) with (3 # 1)%Q in Hf.
  destruct (Z.to_nat (Qfloor (random k * (3 # 1)) + 2)) as [| extras] eqn:He;
    [lia |].
  rewrite gen_bind_eq. cbn [seq for_each]. rewrite gen_bind_eq.
  unfold extra_step. rewrite gen_bind_eq. unfold Math_random.
  rewrite gen_bind_eq. cbn [length].
  change (Z.of_nat 0) with 0. rewrite !floor_scale_zero. reflexivity.
Qed.

(** C9, at [generateRandomNetwork(0)]: the call does not return a graph.
    With no node placed, the first turn of the extra-edge loop reads
    [nodes[0].id], a property of [undefined]. *)
Theorem generateRandomNetwork_zero_throws (random : nat → Q) (k : nat) :
  unit_range random → generateRandomNetwork random 0 k = None.
Proof. apply generate_zero_none. Qed.

Lemma generateRandomNetwork_zero_throws_witness :
  unit_range random_low ∧ generateRandomNetwork random_low 0 0%nat = None.
Proof.
  assert (unit_range random_low) as H.
  { intros k. split; [apply Qle_refl | reflexivity]. }
  split; [exact H |].
  exact (generateRandomNetwork_zero_throws random_low 0%nat H).
Defined.

(** ** C8 *)

(** Every edge of a generated network has a cost between 5 and 19, and
    when [nodeCount] is at most 11 (at most one node has the id [undefined])
    its two ids differ. *)
Lemma generate_edges (random : nat → Q) (nodeCount k : nat)
    (net : Network (option string)) (k' : nat) :
  unit_range random →
  generateRandomNetwork random nodeCount k = Some (net, k') →
  ∀ e, e ∈ edges net →
    5 ≤ edge_cost e ≤ 19 ∧
    ((nodeCount ≤ 11)%nat → edge_from e ≠ edge_to e).
Proof.
  intros Hrange Hrun e He.
  destruct nodeCount as [| n].
  { by rewrite generate_zero_none in Hrun. }
  destruct (generate_spec random Hrange (S n) k)
    as (net' & k'' & tree & extra & k1 & k2 & Hrun' & Hlen & Hids & Hst
        & Hedges & Htl & Htree & Hextra); [lia |].
  rewrite Hrun in Hrun'. simplify_eq.
  rewrite Hedges in He. apply elem_of_app in He as [He | He].
  - apply list_elem_of_lookup in He as [idx Hidx].
    pose proof (lookup_lt_Some _ _ _ Hidx) as Hlt.
    destruct (Htree (S idx)) as (j & c & ni & nj & Hj & Hl & Hni & Hnj & Hc);
      [lia |].
    replace (S idx - 1)%nat with idx in Hl by lia.
    rewrite Hidx in Hl. simplify_eq. simpl. split; [done |].
    intros Hcap Heq.
    destruct (Hids (S idx)) as (ni' & Hni' & Hidi); [lia |].
    destruct (Hids j) as (nj' & Hnj' & Hidj); [lia |].
    rewrite Hni in Hni'. rewrite Hnj in Hnj'. simplify_eq.
    rewrite Hidi, Hidj in Heq. apply labels_inj in Heq; lia.
  - rewrite Forall_forall in Hextra.
    destruct (Hextra e He) as (nf & nt & _ & _ & _ & _ & Hne & Hc).
    done.
Qed.

Lemma edge_of_result (o : option (Network (option string) * nat)) i e :
  (λ r, edges r.1 !! i) <$> o = Some (Some e) →
  ∃ net k', o = Some (net, k') ∧ e ∈ edges net.
Proof.
  destruct o as [[net k'] |]; [| done]. simpl. intros Hl. simplify_eq.
  exists net, k'. split; [done |]. by eapply list_elem_of_lookup_2.
Qed.

(** C8, at [generateRandomNetwork(12)] with every draw 15/16: nodes 10 and
    11 both carry the id [undefined], and the spanning-tree step, which does
    not compare the two ids as the extra-edge step does (line 154), joins
    them by an edge, number 10 of the network, whose two ids are equal. *)
Theorem generateRandomNetwork_self_loop :
  unit_range random_high ∧
  ∃ net k' e,
    generateRandomNetwork random_high 12 0%nat = Some (net, k') ∧
    e ∈ edges net ∧ edge_from e = None ∧ edge_to e = None ∧
    edge_from e = edge_to e.
Proof.
  split; [apply unit_range_high |].
  assert ((λ r, edges r.1 !! 10%nat)
            <$> generateRandomNetwork random_high 12 0%nat
          = Some (Some (mkEdge None None 19))) as Hcomp
    by (vm_compute; reflexivity).
  destruct (edge_of_result _ _ _ Hcomp) as (net & k' & Hrun & He).
  exists net, k', (mkEdge None None 19). split; [exact Hrun |].
  split; [exact He |]. split_and!; reflexivity.
Qed.

(** ** The packet on the canvas (lines 317-348) *)

Lemma floor_fraction (q : Q) :
  (0 <= q - inject_Z (Qfloor q))%Q ∧ (q - inject_Z (Qfloor q) < 1)%Q.
Proof.
  pose proof (Qfloor_le q) as Hle. pose proof (Qlt_floor q) as Hlt.
  rewrite inject_Z_plus in Hlt. split.
  - unfold Qminus. exact (proj1 (Qle_minus_iff _ _) Hle).
  - apply (proj2 (Qlt_minus_iff _ _)).
    apply (proj1 (Qlt_minus_iff _ _)) in Hlt.
    assert (1 + - (q - inject_Z (Qfloor q))
            == inject_Z (Qfloor q) + inject_Z 1 + - q)%Q as -> by ring.
    done.
Qed.

(** C5 as amended: while a non-empty path of [N] segments is animated, for
    a binary64 progress [p] with [0 < p < 1] the packet is drawn on segment
    [floor(segmentProgress)], where [segmentProgress] is the binary64
    product of [p] and [N]; that index lies in [0, N-1] without any
    clamping, the fraction [segmentProgress - floor(segmentProgress)] lies
    in [0, 1) and is a binary64 number (the subtraction rounds nothing), and
    the position is the linear interpolation of the positions of the
    segment's two nodes; for [p <= 0] and for [p >= 1], so at [p = 0] and at
    [p = 1], no packet is drawn. *)
Theorem renderPacket_interpolates (state : SimulationState) (p : Q) :
  isAnimating state = true →
  path state ≠ [] →
  Z.of_nat (length (path state)) < 2 ^ 32 →
  (∀ seg, seg ∈ path state → is_Some (seg_from seg) ∧ is_Some (seg_to seg)) →
  ((p <= 0)%Q ∨ (1 <= p)%Q → renderPacket state p = NoPacket) ∧
  (binary64 p → (0 < p)%Q → (p < 1)%Q →
     let N := Z.of_nat (length (path state)) in
     ∃ segmentProgress seg f t,
       round64 (p * inject_Z N) = Some segmentProgress ∧
       let index := Qfloor segmentProgress in
       let fraction := (segmentProgress - inject_Z index)%Q in
       0 ≤ index ≤ N - 1 ∧
       (0 <= fraction)%Q ∧ (fraction < 1)%Q ∧ binary64 fraction ∧
       path state !! Z.to_nat index = Some seg ∧
       seg_from seg = Some f ∧ seg_to seg = Some t ∧
       renderPacket state p =
         PacketAt index fraction
           (node_x f + (node_x t - node_x f) * fraction)%Q
           (node_y f + (node_y t - node_y f) * fraction)%Q).
Proof.
  intros Hanim Hpath Hlen Hsegs.
  assert (0 < Z.of_nat (length (path state))) as HN.
  { destruct (path state); [done | simpl; lia]. }
  set (N := Z.of_nat (length (path state))) in *.
  assert (0 < inject_Z N)%Q as HNQ.
  { change 0%Q with (inject_Z 0). by rewrite <- Zlt_Qlt. }
  unfold renderPacket. rewrite Hanim.
  rewrite bool_decide_eq_true_2 by lia. cbn [andb]. fold N.
  split.
  - intros [Hp | Hp].
    + destruct (Qlt_le_dec 0 p) as [Hlt | _]; [| done].
      exfalso. apply (Qlt_irrefl 0). eapply Qlt_le_trans; eauto.
    + destruct (Qlt_le_dec 0 p) as [Hp0 | _]; [| done]. cbv zeta.
      assert (inject_Z N <= p * inject_Z N)%Q as Hge.
      { rewrite <- (Qmult_1_l (inject_Z N)) at 1.
        apply Qmult_le_compat_r; [done | by apply Qlt_le_weak]. }
      assert (0 < p * inject_Z N)%Q as Hpos
        by (eapply Qlt_le_trans; [exact HNQ | exact Hge]).
      rewrite round64_positive by done.
      destruct (round64_pos (p * inject_Z N)) as [sp |] eqn:Hsp; [| done].
      pose proof (round64_pos_above _ N sp Hpos ltac:(lia) Hge Hsp) as Hle.
      apply Qfloor_resp_le in Hle. rewrite Qfloor_Z in Hle.
      rewrite decide_False by lia. done.
  - intros Hbin Hp0 Hp1. cbv zeta.
    destruct (Qlt_le_dec 0 p) as [_ | Hle].
    2: { exfalso. apply (Qlt_irrefl 0). eapply Qlt_le_trans; eauto. }
    assert (0 < p * inject_Z N)%Q as Hpos.
    { rewrite <- (Qmult_0_l (inject_Z N)). by apply Qmult_lt_r. }
    destruct (round64_pos_below (p * inject_Z N) N Hpos ltac:(lia))
      as (sp & Hsp & Hsp0 & HspN).
    { rewrite (Qmult_comm p). apply Qmult_le_l; [done |].
      by apply binary64_below_one. }
    rewrite round64_positive by done. rewrite Hsp.
    assert (binary64 (sp - inject_Z (Qfloor sp))) as Hexact.
    { apply (fraction_binary64 (p * inject_Z N)); [done |].
      by rewrite round64_positive. }
    set (index := Qfloor sp) in *.
    assert (0 ≤ index ≤ N - 1) as Hidx.
    { split.
      - exact (Qfloor_resp_le 0 sp Hsp0).
      - pose proof (Qfloor_le sp) as Hf. fold index in Hf.
        assert (inject_Z index < inject_Z N)%Q as Hlt
          by (eapply Qle_lt_trans; eauto).
        rewrite <- Zlt_Qlt in Hlt. lia. }
    destruct (floor_fraction sp) as [Hf0 Hf1]. fold index in Hf0, Hf1.
    destruct (lookup_lt_is_Some_2 (path state) (Z.to_nat index)) as [seg Hseg];
      [lia |].
    destruct (Hsegs seg) as [[f Hf] [t Ht]];
      [by eapply list_elem_of_lookup_2 |].
    exists sp, seg, f, t. rewrite decide_True by lia.
    unfold js_nth. rewrite decide_True by lia. rewrite Hseg, Hf, Ht.
    split_and!; try done; lia.
Qed.

Lemma renderPacket_interpolates_witness :
  binary64 (1 # 2) ∧
  ∃ segmentProgress seg f t,
    round64 ((1 # 2) * inject_Z 2) = Some segmentProgress ∧
    let index := Qfloor segmentProgress in
    let fraction := (segmentProgress - inject_Z index)%Q in
    0 ≤ index ≤ 2 - 1 ∧
    (0 <= fraction)%Q ∧ (fraction < 1)%Q ∧ binary64 fraction ∧
    [segment_A_B; segment_A_B] !! Z.to_nat index = Some seg ∧
    seg_from seg = Some f ∧ seg_to seg = Some t ∧
    renderPacket (mkSim None None [segment_A_B; segment_A_B] true false "")
      (1 # 2) =
      PacketAt index fraction
        (node_x f + (node_x t - node_x f) * fraction)%Q
        (node_y f + (node_y t - node_y f) * fraction)%Q.
Proof.
  assert (binary64 (1 # 2)) as Hbin.
  { eexists. split; [vm_compute; reflexivity | reflexivity]. }
  split; [exact Hbin |].
  destruct (renderPacket_interpolates
              (mkSim None None [segment_A_B; segment_A_B] true false "")
              (1 # 2)) as [_ Hdraw].
  - reflexivity.
  - discriminate.
  - simpl. lia.
  - intros seg Hseg. simpl in Hseg.
    repeat (apply elem_of_cons in Hseg as [-> | Hseg];
            [split; eexists; reflexivity |]).
    by apply elem_of_nil in Hseg.
  - apply Hdraw; [exact Hbin | reflexivity | reflexivity].
Defined.

(** C5 as stated fails at [p = 1] and at [p = 0] on a path of one segment:
    nothing is drawn, where the claim has the last segment at fraction 1 and
    segment 0 at fraction 0. *)
Lemma renderPacket_nothing_at_ends :
  renderPacket (mkSim None None [segment_A_B] true false "") 1 = NoPacket ∧
  renderPacket (mkSim None None [segment_A_B] true false "") 0 = NoPacket ∧
  renderPacket (mkSim None None [segment_A_B] true false "") 1
    ≠ PacketAt 0 1 (300 # 1) (150 # 1).
Proof.
  assert (renderPacket (mkSim None None [segment_A_B] true false "") 1
          = NoPacket) as H1 by (vm_compute; reflexivity).
  split_and!; [exact H1 | reflexivity | rewrite H1; discriminate].
Qed.

(** The rounding of the product shows at the binary64 number nearest to
    1/3, on a path of three segments: the exact product is below 1, the
    binary64 product is 1, and the packet is drawn at the start of segment
    1. *)
Lemma renderPacket_rounded_product :
  ((6004799503160661 # 18014398509481984) * inject_Z 3 < 1)%Q ∧
  binary64 (6004799503160661 # 18014398509481984) ∧
  ∃ fraction x y,
    renderPacket
      (mkSim None None [segment_A_B; segment_A_B; segment_A_B] true false "")
      (6004799503160661 # 18014398509481984) = PacketAt 1 fraction x y ∧
    (fraction == 0)%Q.
Proof.
  split; [reflexivity |]. split.
  - eexists. split; [vm_compute; reflexivity | reflexivity].
  - eexists _, _, _. split; [vm_compute; reflexivity | reflexivity].
Qed.

(** ** The animation clock (lines 357-382) *)

Lemma progress_at_le_1 startTime now : (progress_at startTime now <= 1)%Q.
Proof. unfold progress_at. apply Q.le_min_r. Qed.

Lemma elapsed_ratio_lt_1 (e : Z) :
  (inject_Z e / inject_Z duration < 1)%Q ↔ e < duration.
Proof.
  unfold duration, Qdiv, Qlt, Qinv, Qmult. simpl. lia.
Qed.

Lemma progress_at_lt_1 startTime now :
  (progress_at startTime now < 1)%Q ↔ now - startTime < duration.
Proof.
  unfold progress_at. rewrite <- elapsed_ratio_lt_1. split.
  - intros Hlt. apply Q.min_lt_iff in Hlt as [? | Hbad]; [done |].
    exfalso. by apply (Qlt_irrefl 1).
  - intros Hlt. apply Q.min_lt_iff. by left.
Qed.

Lemma progress_at_done startTime now :
  duration ≤ now - startTime → (progress_at startTime now == 1)%Q.
Proof.
  intros Hd. apply Qle_antisym; [apply progress_at_le_1 |].
  apply Qnot_lt_le. rewrite progress_at_lt_1. lia.
Qed.

Lemma animate_running startTime now c :
  now - startTime < duration →
  animate startTime now c =
    {| animationRef := Some (next_handle c);
       sim := sim c;
       log := log c ++ frame_events startTime now;
       next_handle := S (next_handle c) |}.
Proof.
  intros Hlt. unfold animate, frame_events. rewrite decide_True by done.
  destruct (Qlt_le_dec (progress_at startTime now) 1) as [_ | Hle]; [done |].
  exfalso. apply progress_at_lt_1 in Hlt.
  apply (Qlt_irrefl 1). eapply Qle_lt_trans; eauto.
Qed.

Lemma animate_done startTime now c :
  duration ≤ now - startTime →
  animate startTime now c =
    {| animationRef := None;
       sim := {| sourceNodeId := sourceNodeId (sim c);
                 destinationNodeId := destinationNodeId (sim c);
                 path := path (sim c);
                 isAnimating := false;
                 isComplete := true;
                 message := "Packet Delivered Successfully! âœ“" |};
       log := log c ++ frame_events startTime now;
       next_handle := next_handle c |}.
Proof.
  intros Hge. unfold animate, frame_events. rewrite decide_False by lia.
  destruct (Qlt_le_dec (progress_at startTime now) 1) as [Hlt | _]; [| done].
  apply progress_at_lt_1 in Hlt. lia.
Qed.

(** With nothing scheduled, frames pass without effect. *)
Lemma frames_idle startTime frames c :
  animationRef c = None → fold_left (frame startTime) frames c = c.
Proof.
  intros Hc. induction frames as [| t frames IH]; simpl; [done |].
  unfold frame at 2. by rewrite Hc.
Qed.

Lemma frames_spec startTime frames :
  ∀ c, is_Some (animationRef c) →
    let c' := fold_left (frame startTime) frames c in
    log c' = log c ++ (live_frames startTime frames ≫= frame_events startTime) ∧
    (finishes startTime frames = true →
       animationRef c' = None ∧
       isAnimating (sim c') = false ∧ isComplete (sim c') = true) ∧
    (finishes startTime frames = false →
       is_Some (animationRef c') ∧ sim c' = sim c).
Proof.
  induction frames as [| t frames IH]; intros c Hc; simpl.
  - rewrite app_nil_r. done.
  - destruct Hc as [h Hh].
    assert (frame startTime c t = animate startTime t c) as ->
      by (unfold frame; by rewrite Hh).
    case_decide as Ht.
    + rewrite bool_decide_eq_false_2 by lia. simpl.
      destruct (IH (animate startTime t c)) as (Hlog & Hfin & Hrun).
      { rewrite animate_running by done. by eexists. }
      cbv zeta in Hlog, Hfin, Hrun. rewrite Hlog.
      rewrite animate_running in * by done. simpl in *.
      split; [by rewrite <- app_assoc |]. split; [exact Hfin | exact Hrun].
    + rewrite bool_decide_eq_true_2 by lia. simpl.
      rewrite animate_done by lia. rewrite frames_idle by done. simpl.
      split; [done |]. split; [done | done].
Qed.

Lemma completions_app l1 l2 :
  completions (l1 ++ l2) = (completions l1 + completions l2)%nat.
Proof. unfold completions. by rewrite List.filter_app, length_app. Qed.

Lemma completions_live startTime frames :
  completions (live_frames startTime frames ≫= frame_events startTime) =
  if finishes startTime frames then 1%nat else 0%nat.
Proof.
  induction frames as [| t frames IH]; simpl; [done |].
  case_decide as Ht.
  - rewrite bool_decide_eq_false_2 by lia. simpl.
    change (completions (frame_events startTime t
              ++ (live_frames startTime frames ≫= frame_events startTime))
            = if finishes startTime frames then 1%nat else 0%nat).
    rewrite completions_app, IH. unfold frame_events.
    rewrite decide_True by done. done.
  - rewrite bool_decide_eq_true_2 by lia. simpl.
    unfold frame_events. rewrite decide_False by done. done.
Qed.

(** C6: a run of the clock from [startTime] over any sequence of frame
    times.  Every progress value it renders is [min(elapsed / duration, 1)]
    for the time of its frame, so at most 1, and 1 once [duration] has
    elapsed; the log of the run is the scheduling of the first frame followed
    by the events of the frames up to and including the first one at which
    [duration] has elapsed; if there is such a frame the completion
    transition is logged exactly once, [isAnimating] is false, [isComplete]
    is true, nothing is scheduled any more and later frames have no effect;
    if there is none, it is not logged at all and a frame is still
    scheduled. *)
Theorem clock_run_completes_once (startTime : Z) (frames : list Z)
    (c : Clock) :
  let c' := clock_run startTime frames c in
  (∀ now, progress_at startTime now
            = Qmin (inject_Z (now - startTime) / inject_Z duration) 1 ∧
          (progress_at startTime now <= 1)%Q ∧
          (duration ≤ now - startTime → (progress_at startTime now == 1)%Q) ∧
          (now - startTime < duration → (progress_at startTime now < 1)%Q)) ∧
  log c' = log c ++ Scheduled
             :: (live_frames startTime frames ≫= frame_events startTime) ∧
  completions (log c') =
    (completions (log c) + if finishes startTime frames then 1 else 0)%nat ∧
  (finishes startTime frames = true →
     animationRef c' = None ∧
     isAnimating (sim c') = false ∧ isComplete (sim c') = true ∧
     ∀ later, clock_run startTime (frames ++ later) c = c') ∧
  (finishes startTime frames = false →
     is_Some (animationRef c') ∧ sim c' = sim c).
Proof.
  cbv zeta. unfold clock_run.
  destruct (frames_spec startTime frames (animatePacket c))
    as (Hlog & Hfin & Hrun); [by eexists |].
  cbv zeta in Hlog, Hfin, Hrun. split_and!.
  - intros now. split_and!; [done | apply progress_at_le_1
                             | apply progress_at_done
                             | apply progress_at_lt_1].
  - rewrite Hlog. simpl. by rewrite <- app_assoc.
  - rewrite Hlog. simpl. rewrite !completions_app, completions_live.
    unfold completions at 2. simpl. lia.
  - intros Hf. destruct (Hfin Hf) as (Href & ? & ?). split_and!; try done.
    intros later. rewrite fold_left_app. by apply frames_idle.
  - done.
Qed.

(** * Further properties *)

(** ** [dijkstra] on an arbitrary network *)

Section AnyNetwork.
Context (g : Network string) (s : string).

Lemma init_Shape : Shape g s [] (init_state g s).
  Proof.
    split.
    - apply init_network.
    - intros k Hk. apply init_unvisited in Hk. split; [done |].
      apply not_elem_of_nil.
    - intros k Hk. by apply elem_of_nil in Hk.
    - constructor.
    - intros k Hk. rewrite init_previous, decide_True by done. eauto.
    - intros k [? Hk]. rewrite init_previous in Hk. by case_decide.
    - intros v Hv. by apply elem_of_nil in Hv.
    - intros v z Hv. rewrite init_distances in Hv.
      case_decide as Hin; [| done]. case_decide; [| done]. subst.
      by apply reachable_refl.
    - intros v z Hv _. rewrite init_distances in Hv.
      case_decide as Hin; [| done]. by case_decide.
    - intros v p Hv. rewrite init_previous in Hv. by case_decide.
  Qed.

Lemma visit_Shape vis st u z :
    Shape g s vis st → find_min st = (Some u, Fin z) →
    Shape g s (u :: vis) (visit u st).
  Proof.
    intros HS Hf.
    destruct (find_min_some _ _ _ Hf) as (_ & _ & z' & _ & ? & Hdu & _).
    simplify_eq.
    pose proof (find_min_elem _ _ _ Hf) as Huv.
    destruct (sh_unv _ _ _ _ HS u Huv) as [Hun Huvis].
    set (st1 := {| network := network st; distances := distances st;
                   previous := previous st;
                   unvisited := set_delete (unvisited st) u |}).
    assert (visit u st = fold_left (relax_to u) (edges g ≫= targets u) st1)
      as Hvisit.
    { rewrite <- (sh_net _ _ _ _ HS). unfold visit. apply relax_fold_targets. }
    assert (u ∉ unvisited st1) as Hu1.
    { simpl. rewrite set_delete_elem. tauto. }
    pose proof (relaxed_from_fold u z' (edges g ≫= targets u) st1 Hdu Hu1)
      as (Hn & Hunv & Hch & Hmon & _).
    rewrite <- Hvisit in Hn, Hunv, Hch, Hmon. simpl in *.
    assert (∀ k, k ∈ u :: vis →
                 distances (visit u st) !! k = distances st !! k) as Hframe.
    { intros k Hk. destruct (Hch k) as [[? _] | [Hin _]]; [done |].
      apply set_delete_elem in Hin as [Hin Hne].
      apply elem_of_cons in Hk as [-> | Hk]; [done |].
      by destruct (sh_unv _ _ _ _ HS k Hin). }
    split.
    - rewrite Hn. apply (sh_net _ _ _ _ HS).
    - intros k. rewrite Hunv, set_delete_elem. intros [Hk Hne].
      destruct (sh_unv _ _ _ _ HS k Hk). split; [done |].
      rewrite not_elem_of_cons. done.
    - intros k [-> | Hk]%elem_of_cons; [done |]. by apply (sh_vis _ _ _ _ HS).
    - constructor; [done | apply (sh_nodup _ _ _ _ HS)].
    - intros k Hk. destruct (Hch k) as [[_ ->] | (_ & e & dk & _ & _ & -> & _)];
        [by apply (sh_pdom _ _ _ _ HS) | eauto].
    - intros k Hk. destruct (Hch k) as [[_ Hsame] | [Hin _]].
      + rewrite Hsame in Hk. by apply (sh_pkey _ _ _ _ HS).
      + apply set_delete_elem in Hin as [Hin _].
        by destruct (sh_unv _ _ _ _ HS k Hin).
    - intros v Hv. rewrite (Hframe v Hv).
      apply elem_of_cons in Hv as [-> | Hv]; [eauto |].
      by apply (sh_done _ _ _ _ HS).
    - intros v zv Hv.
      destruct (Hch v) as [[Hsame _] | (Hin & e & dk & Hte & Hd' & _)].
      + rewrite Hsame in Hv. by apply (sh_reach _ _ _ _ HS v zv).
      + apply elem_of_targets in Hte as [He Hj].
        apply set_delete_elem in Hin as [Hin _].
        destruct (sh_unv _ _ _ _ HS v Hin) as [Hvn _].
        eapply reachable_trans; [by apply (sh_reach _ _ _ _ HS u z') |].
        by apply (reachable_hop g u v e).
    - intros v zv Hv Hp.
      destruct (Hch v) as [[Hsd Hsp] | (_ & e & dk & _ & _ & Hp' & _)].
      + rewrite Hsd in Hv. rewrite Hsp in Hp. by apply (sh_null _ _ _ _ HS v zv).
      + rewrite Hp' in Hp. done.
    - intros v p Hp.
      destruct (Hch v) as [[Hsd Hsp] | (Hin & e & dk & Hte & Hd' & Hp' & _)].
      + rewrite Hsp in Hp. rewrite Hsd.
        destruct (sh_prev _ _ _ _ HS v p Hp) as (Hfin & Hold & Hhop).
        split; [done |]. split; [by apply older_cons | done].
      + rewrite Hp' in Hp. simplify_eq. rewrite Hd'.
        apply elem_of_targets in Hte as [He Hj].
        apply set_delete_elem in Hin as [Hin Hne].
        destruct (sh_unv _ _ _ _ HS v Hin) as [_ Hvvis].
        split; [eauto |]. split; [by apply older_new |].
        exists e. done.
  Qed.

Lemma main_loop_Shape fuel d st :
    main_loop fuel d (init_state g s) = Some st → ∃ vis, Shape g s vis st.
  Proof.
    intros Hm.
    apply (main_loop_inv (λ st0, ∃ vis, Shape g s vis st0) d) in Hm as [? _];
      [done | | exists []; apply init_Shape].
    intros st0 cur z [vis0 HS0] Hf _ _. exists (cur :: vis0).
    by eapply visit_Shape.
  Qed.

Section Rebuild.
Context (vis : list string) (st : DState) (HS : Shape g s vis st).

Lemma turns_le_any v : v ∈ ids g → (turns vis v ≤ length (nodes g))%nat.
    Proof.
      intros Hv. unfold turns.
      assert (length (ids g) = length (nodes g)) as <- by apply length_map.
      case_decide as Hvis.
      - etrans; [apply age_le |].
        apply NoDup_incl_length; [apply (sh_nodup _ _ _ _ HS) |].
        apply (sh_vis _ _ _ _ HS).
      - change (length (v :: vis) ≤ length (ids g))%nat.
        apply NoDup_incl_length.
        + constructor; [done | apply (sh_nodup _ _ _ _ HS)].
        + intros x [-> | Hx]%elem_of_cons; [done |].
          by apply (sh_vis _ _ _ _ HS).
    Qed.

    (** From a node id, the reconstruction ends within [turns] turns, and
        what it adds in front of [acc] is a route from the source, unless it
        adds nothing. *)
Lemma rebuild_any n :
      ∀ v acc,
        v ∈ ids g → (turns vis v ≤ n)%nat →
        ∃ p, rebuild n st (Some v) acc = Some (p ++ acc) ∧
             ((p = [] ∧ previous st !! v = Some None) ∨
              (p ≠ [] ∧ route g s v p)).
    Proof.
      induction n as [| n IH]; intros v acc Hv Hb.
      - exfalso. unfold turns in Hb. case_decide as Hvis; [| lia].
        apply age_pos in Hvis. lia.
      - simpl. destruct (sh_pdom _ _ _ _ HS v Hv) as [[p0 |] Hp]; rewrite Hp.
        2: { exists []. split; [done |]. by left. }
        simpl. destruct (sh_prev _ _ _ _ HS v p0 Hp)
          as ([z Hz] & Hold & e & Hhop).
        rewrite (sh_net _ _ _ _ HS), find_edge_joins.
        destruct (hop_find _ _ _ _ Hhop) as (e0 & -> & Hhop0).
        assert (p0 ∈ vis) as Hp0vis by (apply age_pos, Hold).
        assert (p0 ∈ ids g) as Hp0 by (by apply (sh_vis _ _ _ _ HS)).
        destruct (find_node_some g p0 Hp0) as (n0 & -> & Hn0 & Hid0).
        destruct (find_node_some g v Hv) as (nv & -> & Hnv & Hidv).
        destruct (IH p0 (mkSeg (Some n0) (Some nv) e0 :: acc) Hp0)
          as (p & Hrun & Hp').
        { destruct Hold as [Hage Hvv]. unfold turns in *.
          rewrite decide_True by done. case_decide as Hvvis.
          - apply age_pos in Hvvis. lia.
          - pose proof (age_le vis p0). lia. }
        exists (p ++ [mkSeg (Some n0) (Some nv) e0]).
        rewrite <- app_assoc. split; [done |]. right.
        split; [by destruct p |].
        eapply route_snoc; try done.
        destruct Hp' as [[-> Hnull] | [_ Hr]]; [| done].
        destruct (sh_done _ _ _ _ HS p0 Hp0vis) as [zp Hzp].
        rewrite (sh_null _ _ _ _ HS p0 zp Hzp Hnull). constructor.
    Qed.
End Rebuild.

  (** With a destination that is the id of a node, [dijkstra] returns, on
      every network and from every source id, within one more turn of each
      loop than there are nodes; what it returns is the empty sequence or a
      route from the source node to the destination node. *)
Lemma dijkstra_any d fuel :
    d ∈ ids g → (length (nodes g) < fuel)%nat →
    ∃ st p, main_loop fuel d (init_state g s) = Some st ∧
            dijkstra fuel g s d = Some p ∧
            ((p = [] ∧ previous st !! d = Some None) ∨ (p ≠ [] ∧ route g s d p)) ∧
            ∃ vis, Shape g s vis st.
  Proof.
    intros Hd Hfuel.
    destruct (main_loop_total d fuel (init_state g s)) as [st Hm].
    { pose proof (init_unvisited_length g s). lia. }
    destruct (main_loop_Shape _ _ _ Hm) as [vis HS].
    destruct (rebuild_any vis st HS fuel d [] Hd) as (p & Hp & Hcases).
    { pose proof (turns_le_any vis st HS d Hd). lia. }
    rewrite app_nil_r in Hp. exists st, p. split; [done |]. split.
    - unfold dijkstra, dijkstra_run. rewrite Hm. simpl. by rewrite Hp.
    - split; [done | eauto].
  Qed.
End AnyNetwork.

Lemma route_resolved net a b p :
  route net a b p → ∀ seg, seg ∈ p → resolved net seg.
Proof.
  induction 1 as [| b b' p nb nb' e Hr IH Hnb Hb Hnb' Hb' Hhop];
    intros seg Hseg.
  - by apply elem_of_nil in Hseg.
  - apply elem_of_app in Hseg as [Hseg | Hseg]; [by apply IH |].
    apply list_elem_of_singleton in Hseg as ->.
    exists nb, nb'. simpl. rewrite Hb, Hb'. done.
Qed.

Lemma route_source_node net a b p : route net a b p → p ≠ [] → is_node net a.
Proof.
  intros Hr Hp. destruct (route_head _ _ _ _ Hr Hp) as (seg & n & _ & _ & Hn & <-).
  by apply list_elem_of_fmap_2.
Qed.

(** What a returning call returned, on any network. *)
Lemma dijkstra_returned g s d fuel p :
  dijkstra fuel g s d = Some p →
  p = [] ∨ (p ≠ [] ∧ route g s d p).
Proof.
  intros Hp.
  destruct (decide (d ∈ ids g)) as [Hd | Hd].
  2: { by rewrite dijkstra_absent_dest in Hp. }
  destruct (dijkstra_any g s d (S (length (nodes g))) Hd ltac:(lia))
    as (st & p' & _ & Hp' & Hcases & _).
  apply (dijkstra_mono _ _ _ _ _ (S (length (nodes g)))) in Hp.
  apply (dijkstra_mono _ _ _ _ _ fuel) in Hp'.
  replace (fuel + S (length (nodes g)))%nat
    with (S (length (nodes g)) + fuel)%nat in Hp by lia.
  rewrite Hp' in Hp. simplify_eq.
  destruct Hcases as [[-> _] | ?]; [by left | by right].
Qed.

(** X1: whenever [destId] is the id of a node, [dijkstra] returns, on every
    network (any costs, duplicate ids, edges to unknown ids) and for every
    [sourceId]: neither loop needs more turns than there are nodes, plus
    one. *)
Theorem dijkstra_terminates (g : Network string) (s d : string) (fuel : nat) :
  is_node g d → (length (nodes g) < fuel)%nat →
  ∃ p, dijkstra fuel g s d = Some p.
Proof.
  intros Hd Hfuel.
  destruct (dijkstra_any g s d fuel Hd Hfuel) as (_ & p & _ & Hp & _).
  eauto.
Qed.

Lemma dijkstra_terminates_witness :
  ∃ p, dijkstra 3 parallel_network "B" "A" = Some p.
Proof.
  apply (dijkstra_terminates parallel_network "B" "A" 3).
  - unfold is_node. refine (bool_decide_unpack _ _). vm_compute. exact I.
  - simpl. lia.
Defined.

(** X2: on every network, a non-empty sequence returned by [dijkstra] is a
    route from the source node to the destination node: its first segment
    starts at a node with id [sourceId], its last segment ends at a node
    with id [destId], every segment carries two nodes of the network and an
    edge of the network between them, each segment starts at the id where
    the one before it ends, and the sum of the edge costs is the cost of a
    path of the network from source to destination. *)
Theorem dijkstra_returns_route (g : Network string) (s d : string)
    (fuel : nat) (p : list PathSegment) :
  dijkstra fuel g s d = Some p → p ≠ [] →
  route g s d p ∧
  (∃ seg n, head p = Some seg ∧ seg_from seg = Some n ∧
            n ∈ nodes g ∧ node_id n = s) ∧
  (∃ seg n, last p = Some seg ∧ seg_to seg = Some n ∧
            n ∈ nodes g ∧ node_id n = d) ∧
  (∀ seg, seg ∈ p → resolved g seg) ∧
  walk g s d (total_cost p).
Proof.
  intros Hp Hne.
  destruct (dijkstra_returned _ _ _ _ _ Hp) as [-> | [_ Hr]]; [done |].
  split_and!.
  - done.
  - by eapply route_head.
  - by eapply route_last.
  - by eapply route_resolved.
  - apply route_walk; [| done]. by eapply route_source_node.
Qed.

Lemma dijkstra_returns_route_witness :
  ∃ p,
    dijkstra 3 parallel_network "A" "B" = Some p ∧
    route parallel_network "A" "B" p ∧
    walk parallel_network "A" "B" (total_cost p).
Proof.
  destruct (dijkstra 3 parallel_network "A" "B") as [p |] eqn:Hp.
  - exists p. split; [reflexivity |].
    assert (p ≠ []) as Hne.
    { vm_compute in Hp. intros ->. discriminate Hp. }
    pose proof (dijkstra_returns_route parallel_network "A" "B" 3 p Hp Hne)
      as (Hr & _ & _ & _ & Hw).
    split; [exact Hr | exact Hw].
  - vm_compute in Hp. discriminate Hp.
Defined.

(** X3: on every network, when [destId] is the id of a node that no path
    of the network joins to [sourceId] (in particular when [sourceId] is the
    id of no node), [dijkstra] returns the empty sequence. *)
Theorem dijkstra_unreachable_empty (g : Network string) (s d : string)
    (fuel : nat) :
  is_node g d → ¬ reachable g s d → (length (nodes g) < fuel)%nat →
  dijkstra fuel g s d = Some [].
Proof.
  intros Hd Hunreach Hfuel.
  destruct (dijkstra_any g s d fuel Hd Hfuel)
    as (_ & p & _ & Hp & [[-> _] | [Hne Hr]] & _); [done |].
  exfalso. apply Hunreach. exists (total_cost p).
  apply route_walk; [| done]. by eapply route_source_node.
Qed.

Lemma dijkstra_unreachable_empty_witness :
  dijkstra 7 getDefaultNetwork "Z" "A" = Some [].
Proof.
  apply (dijkstra_unreachable_empty getDefaultNetwork "Z" "A" 7).
  - unfold is_node. refine (bool_decide_unpack _ _). vm_compute. exact I.
  - intros [c Hw]. apply walk_is_node in Hw as [Hz _].
    unfold is_node in Hz. simpl in Hz.
    repeat (apply elem_of_cons in Hz as [Hz | Hz]; [discriminate Hz |]).
    by apply elem_of_nil in Hz.
  - simpl. lia.
Defined.

(** ** Networks without parallel edges *)

Lemma joins_ends {Id} `{EqDecision Id} (a b : Id) e :
  joins a b e = true →
  (edge_from e = a ∧ edge_to e = b) ∨ (edge_to e = a ∧ edge_from e = b).
Proof.
  unfold joins. intros [H | H]%orb_true_iff; apply bool_decide_eq_true in H; auto.
Qed.

Lemma joins_self {Id} `{EqDecision Id} (e : NetworkEdge Id) :
  joins (edge_from e) (edge_to e) e = true.
Proof.
  unfold joins. apply orb_true_iff. left. by apply bool_decide_eq_true.
Qed.

Lemma no_parallel_cheapest {Id} `{EqDecision Id} (net : Network Id) :
  no_parallel_edges net → first_edge_cheapest net.
Proof.
  intros Hnp a b e e0 [He Hj] Hfind.
  apply find_some in Hfind as [He0 Hj0]. apply list_elem_of_In in He0.
  apply list_elem_of_lookup in He as [j Hej].
  apply list_elem_of_lookup in He0 as [i Hei].
  assert (joins (edge_from e0) (edge_to e0) e = true) as Hjj.
  { apply joins_ends in Hj0 as [[<- <-] | [<- <-]]; [done |].
    by rewrite joins_comm. }
  pose proof (Hnp i j e0 e Hei Hej Hjj) as ->.
  rewrite Hei in Hej. simplify_eq. lia.
Qed.

Lemma default_no_parallel : no_parallel_edges getDefaultNetwork.
Proof.
  intros i j e e' Hi Hj Hjoin. simpl in Hi, Hj.
  do 8 (destruct i as [| i];
        [do 8 (destruct j as [| j];
               [simpl in Hi, Hj; simplify_eq;
                first [reflexivity | vm_compute in Hjoin; discriminate Hjoin] |]);
         simpl in Hj; discriminate Hj |]).
  simpl in Hi. discriminate Hi.
Qed.

(** ** What the renderer draws *)

Lemma lerp_between (a b f : Q) :
  (0 <= f)%Q → (f < 1)%Q →
  ((a <= b)%Q → (a <= a + (b - a) * f)%Q ∧ (a + (b - a) * f <= b)%Q) ∧
  ((b <= a)%Q → (b <= a + (b - a) * f)%Q ∧ (a + (b - a) * f <= a)%Q).
Proof.
  intros Hf0 Hf1.
  assert (0 <= 1 - f)%Q as Hg.
  { apply (proj1 (Qle_minus_iff f 1)). by apply Qlt_le_weak. }
  split; intros Hab.
  - assert (0 <= b - a)%Q as Hd by (by apply (proj1 (Qle_minus_iff a b))).
    pose proof (Qmult_le_0_compat _ _ Hd Hf0) as H1.
    pose proof (Qmult_le_0_compat _ _ Hd Hg) as H2.
    split.
    + apply (proj2 (Qle_minus_iff _ _)).
      assert (a + (b - a) * f + - a == (b - a) * f)%Q as -> by ring. done.
    + apply (proj2 (Qle_minus_iff _ _)).
      assert (b + - (a + (b - a) * f) == (b - a) * (1 - f))%Q as -> by ring.
      done.
  - assert (0 <= a - b)%Q as Hd by (by apply (proj1 (Qle_minus_iff b a))).
    pose proof (Qmult_le_0_compat _ _ Hd Hf0) as H1.
    pose proof (Qmult_le_0_compat _ _ Hd Hg) as H2.
    split.
    + apply (proj2 (Qle_minus_iff _ _)).
      assert (a + (b - a) * f + - b == (a - b) * (1 - f))%Q as -> by ring.
      done.
    + apply (proj2 (Qle_minus_iff _ _)).
      assert (a + - (a + (b - a) * f) == (a - b) * f)%Q as -> by ring. done.
Qed.

(** X4: whenever [renderNetwork] draws the packet, an animation is running,
    the progress [p] is positive, the segment index [k] is the floor of the
    binary64 product of [p] and the number [N] of segments and is a valid
    index of the path, the fraction is what that product exceeds [k] by, a
    binary64 number of [0, 1), and the point drawn lies between the
    positions of the two nodes of segment [k], in both coordinates. *)
Theorem renderPacket_drawn_on_segment (state : SimulationState) (p : Q)
    (k : Z) (fraction x y : Q) :
  renderPacket state p = PacketAt k fraction x y →
  let N := Z.of_nat (length (path state)) in
  isAnimating state = true ∧ (0 < p)%Q ∧ 0 ≤ k < N ∧
  (∃ segmentProgress,
     round64 (p * inject_Z N) = Some segmentProgress ∧
     k = Qfloor segmentProgress ∧
     fraction = (segmentProgress - inject_Z k)%Q) ∧
  (0 <= fraction)%Q ∧ (fraction < 1)%Q ∧ binary64 fraction ∧
  ∃ seg f t,
    path state !! Z.to_nat k = Some seg ∧
    seg_from seg = Some f ∧ seg_to seg = Some t ∧
    ((node_x f <= node_x t)%Q → (node_x f <= x)%Q ∧ (x <= node_x t)%Q) ∧
    ((node_x t <= node_x f)%Q → (node_x t <= x)%Q ∧ (x <= node_x f)%Q) ∧
    ((node_y f <= node_y t)%Q → (node_y f <= y)%Q ∧ (y <= node_y t)%Q) ∧
    ((node_y t <= node_y f)%Q → (node_y t <= y)%Q ∧ (y <= node_y f)%Q).
Proof.
  unfold renderPacket. intros Hdraw. cbv zeta.
  destruct (isAnimating state); [| done].
  case_bool_decide as Hlen; [| done].
  destruct (Qlt_le_dec 0 p) as [Hp | _]; [| done]. cbn [andb] in Hdraw.
  cbv zeta in Hdraw.
  set (N := Z.of_nat (length (path state))) in *.
  destruct (round64 (p * inject_Z N)) as [sp |] eqn:Hsp; [| done].
  assert (binary64 (sp - inject_Z (Qfloor sp))) as Hexact.
  { apply (fraction_binary64 (p * inject_Z N)); [| done].
    rewrite <- (Qmult_0_l (inject_Z N)). apply Qmult_lt_r; [| done].
    change 0%Q with (inject_Z 0). rewrite <- Zlt_Qlt. lia. }
  set (idx := Qfloor sp) in *.
  case_decide as Hidx; [| done].
  assert (0 <= sp)%Q as Hsp0.
  { apply (round64_nonneg (p * inject_Z N)); [| done].
    apply Qmult_le_0_compat; [by apply Qlt_le_weak |].
    change 0%Q with (inject_Z 0). rewrite <- Zle_Qle. lia. }
  assert (0 ≤ idx) as Hidx0 by exact (Qfloor_resp_le 0 sp Hsp0).
  unfold js_nth in Hdraw. rewrite decide_True in Hdraw by done.
  destruct (path state !! Z.to_nat idx) as [seg |] eqn:Hseg; [| done].
  destruct (seg_from seg) as [f |] eqn:Hf; [| done].
  destruct (seg_to seg) as [t |] eqn:Ht; [| done].
  injection Hdraw as <- <- <- <-.
  destruct (floor_fraction sp) as [Hf0 Hf1]. fold idx in Hf0, Hf1.
  split_and!; try done; try lia.
  - by exists sp.
  - exists seg, f, t. split_and!; try done;
      intros Hle; by apply lerp_between.
Qed.

Lemma renderPacket_drawn_on_segment_witness :
  ∃ k fraction x y,
    renderPacket (mkSim None None [segment_A_B; segment_A_B] true false "")
      (3 # 4) = PacketAt k fraction x y ∧
    k = 1 ∧ (150 # 1 <= x)%Q ∧ (x <= 300 # 1)%Q.
Proof.
  destruct (renderPacket
              (mkSim None None [segment_A_B; segment_A_B] true false "")
              (3 # 4)) as [| k fraction x y |] eqn:Hdraw;
    [vm_compute in Hdraw; discriminate Hdraw | |
     vm_compute in Hdraw; discriminate Hdraw].
  exists k, fraction, x, y. split; [reflexivity |].
  pose proof (renderPacket_drawn_on_segment _ _ _ _ _ _ Hdraw)
    as (_ & _ & _ & (sp & Hsp & Hk & _) & _ & _ & _ & seg & f & t & Hseg & Hf
        & Ht & Hx & _).
  assert (k = 1) as ->.
  { vm_compute in Hsp. injection Hsp as <-. rewrite Hk. reflexivity. }
  split; [reflexivity |].
  simpl in Hseg. injection Hseg as <-. simpl in Hf, Ht.
  injection Hf as <-. injection Ht as <-. simpl in Hx.
  apply Hx. discriminate.
Defined.

(** X5: the renderer reads no property of [undefined] on a path that
    [dijkstra] returned, whatever the network, the progress value and the
    rest of the simulation state. *)
Theorem renderPacket_on_dijkstra_path (g : Network string) (s d : string)
    (fuel : nat) (p : list PathSegment) (state : SimulationState)
    (progress : Q) :
  dijkstra fuel g s d = Some p → path state = p →
  renderPacket state progress ≠ RenderError.
Proof.
  intros Hp Hpath.
  assert (∀ seg, seg ∈ path state →
                 is_Some (seg_from seg) ∧ is_Some (seg_to seg)) as Hsegs.
  { rewrite Hpath. intros seg Hseg.
    destruct (dijkstra_returned _ _ _ _ _ Hp) as [-> | [_ Hr]].
    - by apply elem_of_nil in Hseg.
    - destruct (route_resolved _ _ _ _ Hr seg Hseg) as (nf & nt & -> & -> & _).
      eauto. }
  unfold renderPacket.
  destruct (isAnimating state); [| done].
  case_bool_decide as Hlen; [| done].
  destruct (Qlt_le_dec 0 progress) as [Hpos | _]; [| done]. cbn [andb].
  cbv zeta.
  set (N := Z.of_nat (length (path state))) in *.
  destruct (round64 (progress * inject_Z N)) as [sp |] eqn:Hsp; [| done].
  set (idx := Qfloor sp) in *.
  case_decide as Hidx; [| done].
  assert (0 <= sp)%Q as Hsp0.
  { apply (round64_nonneg (progress * inject_Z N)); [| done].
    apply Qmult_le_0_compat; [by apply Qlt_le_weak |].
    change 0%Q with (inject_Z 0). rewrite <- Zle_Qle. lia. }
  assert (0 ≤ idx) as Hidx0 by exact (Qfloor_resp_le 0 sp Hsp0).
  unfold js_nth. rewrite decide_True by done.
  destruct (lookup_lt_is_Some_2 (path state) (Z.to_nat idx)) as [seg Hseg];
    [lia |].
  rewrite Hseg.
  destruct (Hsegs seg) as [[f ->] [t ->]]; [by eapply list_elem_of_lookup_2 |].
  done.
Qed.

Lemma renderPacket_on_dijkstra_path_witness :
  ∃ p,
    dijkstra 7 getDefaultNetwork "A" "F" = Some p ∧
    renderPacket (mkSim (Some "A") (Some "F") p true false "") (1 # 3)
      ≠ RenderError.
Proof.
  destruct (dijkstra 7 getDefaultNetwork "A" "F") as [p |] eqn:Hp.
  - exists p. split; [reflexivity |].
    exact (renderPacket_on_dijkstra_path getDefaultNetwork "A" "F" 7 p
             (mkSim (Some "A") (Some "F") p true false "") (1 # 3)
             Hp eq_refl).
  - vm_compute in Hp. discriminate Hp.
Defined.

(** ** The clock *)

(** X6: the progress of a run never decreases as time passes, is never
    negative once the start time is reached, and never exceeds 1. *)
Theorem progress_at_monotone (startTime now1 now2 : Z) :
  now1 ≤ now2 →
  (progress_at startTime now1 <= progress_at startTime now2)%Q ∧
  (startTime ≤ now1 → (0 <= progress_at startTime now1)%Q) ∧
  (progress_at startTime now2 <= 1)%Q.
Proof.
  intros Hle. split_and!.
  - unfold progress_at. apply Q.min_le_compat_r.
    unfold Qdiv. apply Qmult_le_compat_r; [| done].
    rewrite <- Zle_Qle. lia.
  - intros Hs. unfold progress_at. apply Q.min_glb; [| done].
    unfold Qdiv. apply Qmult_le_0_compat; [| done].
    change 0%Q with (inject_Z 0). rewrite <- Zle_Qle. lia.
  - apply progress_at_le_1.
Qed.

Lemma progress_at_monotone_witness :
  (progress_at 1000 1500 <= progress_at 1000 2250)%Q ∧
  (1000 ≤ 1500 → (0 <= progress_at 1000 1500)%Q) ∧
  (progress_at 1000 2250 <= 1)%Q.
Proof.
  apply (progress_at_monotone 1000 1500 2250). lia.
Defined.

(** ** handleSendPacket *)

Lemma reduce_cost_fold (p : list PathSegment) (z : Z) :
  fold_left (λ sum seg, sum + edge_cost (seg_edge seg)) p z
  = z + total_cost p.
Proof.
  revert z. induction p as [| seg p IH]; intros z; simpl; [lia |].
  rewrite IH. unfold total_cost. simpl. lia.
Qed.

Lemma reduce_cost_total p : reduce_cost p = total_cost p.
Proof. unfold reduce_cost. rewrite reduce_cost_fold. lia. Qed.

Lemma total_cost_nonneg (p : list PathSegment) :
  (∀ seg, seg ∈ p → 0 ≤ edge_cost (seg_edge seg)) → 0 ≤ total_cost p.
Proof.
  induction p as [| seg p IH]; intros Hcost; simpl; [done |].
  pose proof (Hcost seg ltac:(left)).
  assert (0 ≤ total_cost p) by (apply IH; intros; apply Hcost; by right).
  unfold total_cost in *. lia.
Qed.

Lemma reduce_cost64_fold (p : list PathSegment) (acc : Q) (z : Z) :
  (acc == inject_Z z)%Q → 0 ≤ z →
  (∀ seg, seg ∈ p → 0 ≤ edge_cost (seg_edge seg)) →
  z + total_cost p ≤ 2 ^ 53 →
  ∃ r, fold_left
         (λ sum seg,
            s ← sum; round64 (s + inject_Z (edge_cost (seg_edge seg))))
         p (Some acc) = Some r ∧
       (r == inject_Z (z + total_cost p))%Q.
Proof.
  revert acc z. induction p as [| seg p IH]; intros acc z Hacc Hz Hcost Hsum.
  - exists acc. split; [done |]. simpl. by rewrite Z.add_0_r.
  - pose proof (Hcost seg ltac:(left)) as Hc.
    assert (∀ seg', seg' ∈ p → 0 ≤ edge_cost (seg_edge seg')) as Hcost'
      by (intros; apply Hcost; by right).
    pose proof (total_cost_nonneg p Hcost') as Hrest.
    assert (total_cost (seg :: p) = edge_cost (seg_edge seg) + total_cost p)
      as Hcons by done.
    rewrite Hcons in Hsum |- *.
    destruct (add64_exact z (edge_cost (seg_edge seg))) as (r1 & Hr1 & Heq1);
      [lia |].
    assert (round64 (acc + inject_Z (edge_cost (seg_edge seg))) = Some r1)
      as Hstep.
    { rewrite <- Hr1. apply round64_comp. by rewrite Hacc. }
    destruct (IH r1 (z + edge_cost (seg_edge seg)) Heq1 ltac:(lia) Hcost'
                ltac:(lia)) as (r & Hr & Heq).
    exists r. simpl. rewrite Hstep. split; [exact Hr |].
    rewrite Heq. by rewrite Z.add_assoc.
Qed.

(** Non-negative costs with a sum of at most [2^53] are added by binary64
    without any rounding. *)
Lemma reduce_cost64_exact (p : list PathSegment) :
  (∀ seg, seg ∈ p → 0 ≤ edge_cost (seg_edge seg)) →
  total_cost p ≤ 2 ^ 53 →
  ∃ r, reduce_cost64 p = Some r ∧ (r == inject_Z (total_cost p))%Q.
Proof.
  intros Hcost Hsum.
  destruct (reduce_cost64_fold p 0%Q 0) as (r & Hr & Heq); try done.
  exists r. split; [done |]. by rewrite Heq.
Qed.

(** X7: whatever the network and the state, when [handleSendPacket]
    returns it leaves the two selections alone, and either it leaves the
    path and the animation flag alone too, or the two selections are
    distinct ids, the animation flag is set, the completion flag is cleared,
    and the new path is a non-empty route of the network from the selected
    source to the selected destination, whose cost is the cost of a path of
    the network; when the costs along it are not negative and their sum is at
    most [2^53], line 411 adds them without any rounding and that sum is the
    number at the end of the message. *)
Theorem handleSendPacket_starts_route (fuel : nat) (net : Network string)
    (state state' : SimulationState) :
  handleSendPacket fuel net state = Some state' →
  sourceNodeId state' = sourceNodeId state ∧
  destinationNodeId state' = destinationNodeId state ∧
  ((path state' = path state ∧ isAnimating state' = isAnimating state) ∨
   (∃ src dst,
      sourceNodeId state = Some src ∧ destinationNodeId state = Some dst ∧
      src ≠ dst ∧ src ≠ "" ∧ dst ≠ "" ∧
      isAnimating state' = true ∧ isComplete state' = false ∧
      path state' ≠ [] ∧ route net src dst (path state') ∧
      walk net src dst (total_cost (path state')) ∧
      ((∀ seg, seg ∈ path state' → 0 ≤ edge_cost (seg_edge seg)) →
       total_cost (path state') ≤ 2 ^ 53 →
       (∃ r, reduce_cost64 (path state') = Some r ∧
             (r == inject_Z (total_cost (path state')))%Q) ∧
       message state' =
         "Calculating route using Dijkstra's Algorithm... Total cost: "
         +:+ pretty (total_cost (path state'))))).
Proof.
  unfold handleSendPacket. intros Hrun.
  assert (∀ st0 : SimulationState,
            sourceNodeId st0 = sourceNodeId state →
            destinationNodeId st0 = destinationNodeId state →
            path st0 = path state → isAnimating st0 = isAnimating state →
            Some st0 = Some state' →
            sourceNodeId state' = sourceNodeId state ∧
            destinationNodeId state' = destinationNodeId state ∧
            ((path state' = path state ∧
              isAnimating state' = isAnimating state) ∨
             (∃ src dst,
                sourceNodeId state = Some src ∧
                destinationNodeId state = Some dst ∧
                src ≠ dst ∧ src ≠ "" ∧ dst ≠ "" ∧
                isAnimating state' = true ∧ isComplete state' = false ∧
                path state' ≠ [] ∧ route net src dst (path state') ∧
                walk net src dst (total_cost (path state')) ∧
                ((∀ seg, seg ∈ path state' →
                         0 ≤ edge_cost (seg_edge seg)) →
                 total_cost (path state') ≤ 2 ^ 53 →
                 (∃ r, reduce_cost64 (path state') = Some r ∧
                       (r == inject_Z (total_cost (path state')))%Q) ∧
                 message state' =
                   "Calculating route using Dijkstra's Algorithm... Total cost: "
                   +:+ pretty (total_cost (path state')))))) as Hsame.
  { intros st0 ? ? ? ? Heq. injection Heq as <-. auto. }
  destruct (falsy (sourceNodeId state) || falsy (destinationNodeId state))
    eqn:Hfalsy; [eapply Hsame; [| | | | exact Hrun]; reflexivity |].
  case_decide as Heq; [eapply Hsame; [| | | | exact Hrun]; reflexivity |].
  apply orb_false_iff in Hfalsy as [Hfs Hfd].
  destruct (sourceNodeId state) as [src |] eqn:Hsrc; [| done].
  destruct (destinationNodeId state) as [dst |] eqn:Hdst; [| done].
  simpl in Hfs, Hfd.
  apply bool_decide_eq_false in Hfs. apply bool_decide_eq_false in Hfd.
  destruct (dijkstra fuel net src dst) as [p |] eqn:Hp; [| done].
  destruct p as [| seg p].
  { eapply Hsame; [| | | | exact Hrun]; reflexivity. }
  simplify_eq.
  cbn [sourceNodeId destinationNodeId path isAnimating isComplete message].
  split; [done |]. split; [done |]. right.
  destruct (dijkstra_returned _ _ _ _ _ Hp) as [? | [Hne Hr]]; [done |].
  exists src, dst. split_and!; try done.
  - intros ->. by apply Heq.
  - apply route_walk; [| done]. by eapply route_source_node.
  - intros Hcost Htotal. split; [by apply reduce_cost64_exact |].
    by rewrite reduce_cost_total.
Qed.

Lemma handleSendPacket_starts_route_witness :
  ∃ state',
    handleSendPacket 7 getDefaultNetwork
      (mkSim (Some "A") (Some "F") [] false false "") = Some state' ∧
    sourceNodeId state' = Some "A" ∧ destinationNodeId state' = Some "F".
Proof.
  destruct (handleSendPacket 7 getDefaultNetwork
              (mkSim (Some "A") (Some "F") [] false false ""))
    as [state' |] eqn:Hrun.
  - exists state'. split; [reflexivity |].
    pose proof (handleSendPacket_starts_route 7 getDefaultNetwork _ _ Hrun)
      as (Hs & Hd & _).
    split; [exact Hs | exact Hd].
  - vm_compute in Hrun. discriminate Hrun.
Defined.

(** X8: [handleSendPacket] returns whenever the selected destination, if
    there is one and it is not the empty string, is the id of a node of the
    network; when the same id is selected twice it computes no path and only
    sets the message and clears the completion flag. *)
Theorem handleSendPacket_returns (fuel : nat) (net : Network string)
    (state : SimulationState) :
  (∀ dst, destinationNodeId state = Some dst → dst ≠ "" → is_node net dst) →
  (length (nodes net) < fuel)%nat →
  (∃ state', handleSendPacket fuel net state = Some state') ∧
  (falsy (sourceNodeId state) = false →
   sourceNodeId state = destinationNodeId state →
   handleSendPacket fuel net state =
     Some {| sourceNodeId := sourceNodeId state;
             destinationNodeId := destinationNodeId state;
             path := path state;
             isAnimating := isAnimating state;
             isComplete := false;
             message := "Source and destination must be different nodes" |}).
Proof.
  intros Hdst Hfuel. unfold handleSendPacket. split.
  - destruct (falsy (sourceNodeId state) || falsy (destinationNodeId state))
      eqn:Hf; [eauto |].
    case_decide; [eauto |].
    apply orb_false_iff in Hf as [Hfs Hfd].
    destruct (sourceNodeId state) as [src |]; [| done].
    destruct (destinationNodeId state) as [dst |] eqn:Hd; [| done].
    simpl in Hfd. apply bool_decide_eq_false in Hfd.
    destruct (dijkstra_any net src dst fuel (Hdst dst eq_refl Hfd) Hfuel)
      as (_ & p & _ & -> & _).
    destruct p; eauto.
  - intros Hfs Heq. rewrite <- Heq, Hfs. simpl. by rewrite decide_True.
Qed.

Lemma handleSendPacket_returns_witness :
  ∃ state',
    handleSendPacket 7 getDefaultNetwork
      (mkSim (Some "B") (Some "B") [] false true "") = Some state' ∧
    message state' = "Source and destination must be different nodes" ∧
    isComplete state' = false.
Proof.
  assert (∀ dst, Some "B" = Some dst → dst ≠ "" →
                 is_node getDefaultNetwork dst) as Hd.
  { intros dst Hdst _. injection Hdst as <-. unfold is_node.
    refine (bool_decide_unpack _ _). vm_compute. exact I. }
  assert (length (nodes getDefaultNetwork) < 7)%nat as Hf by (simpl; lia).
  pose proof (handleSendPacket_returns 7 getDefaultNetwork
                (mkSim (Some "B") (Some "B") [] false true "") Hd Hf)
    as [_ Hsame].
  eexists. split; [apply Hsame; reflexivity |]. split; reflexivity.
Defined.

(** ** The generator: placement *)

(** X9: placing a node (lines 110-135) always returns.  It makes between
    1 and 100 attempts of two draws each and keeps the position drawn last;
    the new node gets [labels[i]] as id and label and is a router, and the
    nodes placed before are left as they are. *)
Theorem place_node_bounded_retry (random : nat → Q)
    (placed : list (NetworkNode (option string))) (i k : nat) :
  ∃ x y a,
    place_node random placed i k =
      Some (placed ++ [mkNode (labels !! i) (labels !! i) x y router],
            (k + 2 * a)%nat) ∧
    (1 ≤ a ≤ 100)%nat ∧
    (x, y) = candidate random k (a - 1).
Proof.
  destruct (place_node_spec random placed i k)
    as (p & a & Hrun & Ha & _ & Hpos & _).
  exists (p_x p), (p_y p), a. split_and!; try done; lia.
Qed.

Lemma generate_parts random n k net k' :
  generateRandomNetwork random n k = Some (net, k') →
  ∃ k1 tree k2 k3,
    for_each (place_node random) (seq 0 n) [] k = Some (nodes net, k1) ∧
    spanning_tree random (nodes net) k1 = Some (tree, k2) ∧
    for_each (extra_step random (nodes net))
      (seq 0 (Z.to_nat (Qfloor (random k2 * (3 # 1)) + 2))) tree (S k2)
      = Some (edges net, k3).
Proof.
  unfold generateRandomNetwork. rewrite gen_bind_eq.
  destruct (for_each (place_node random) (seq 0 n) [] k)
    as [[placed k1] |] eqn:Hplace; [| done].
  rewrite gen_bind_eq.
  destruct (spanning_tree random placed k1) as [[tree k2] |] eqn:Htree;
    [| done].
  rewrite gen_bind_eq. unfold Math_random. rewrite gen_bind_eq.
  destruct (for_each (extra_step random placed) _ tree (S k2))
    as [[es k3] |] eqn:Hextra; [| done].
  rewrite gen_ret_eq. intros Heq. injection Heq as <- <-. simpl.
  exists k1, tree, k2, k3. done.
Qed.

Lemma candidate_in_canvas random k j :
  unit_range random →
  (100 # 1 <= (candidate random k j).1)%Q ∧
  ((candidate random k j).1 < 800 # 1)%Q ∧
  (80 # 1 <= (candidate random k j).2)%Q ∧
  ((candidate random k j).2 < 480 # 1)%Q.
Proof.
  intros Hrange. unfold candidate. simpl.
  destruct (Hrange (k + 2 * j)%nat) as [Hx0 Hx1].
  destruct (Hrange (k + 2 * j + 1)%nat) as [Hy0 Hy1].
  assert (∀ (base scale r : Q),
            (0 <= r)%Q → (r < 1)%Q → (0 < scale)%Q →
            (base <= base + r * scale)%Q ∧
            (base + r * scale < base + scale)%Q) as Hscale.
  { intros base scale r Hr0 Hr1 Hsc. split.
    - rewrite <- (Qplus_0_r base) at 1. apply Qplus_le_r.
      apply Qmult_le_0_compat; [done | by apply Qlt_le_weak].
    - apply Qplus_lt_r. rewrite <- (Qmult_1_l scale) at 2.
      by apply Qmult_lt_compat_r. }
  destruct (Hscale (100 # 1) (700 # 1) _ Hx0 Hx1 eq_refl)%Q as [? ?].
  destruct (Hscale (80 # 1) (400 # 1) _ Hy0 Hy1 eq_refl)%Q as [? ?].
  done.
Qed.

(** X10: with draws in [0, 1), every node of a generated network lies in
    the drawing area, [100 <= x < 800] and [80 <= y < 480], is a router and
    has its id as label. *)
Theorem generateRandomNetwork_in_canvas (random : nat → Q) (n k : nat)
    (net : Network (option string)) (k' : nat) :
  unit_range random →
  generateRandomNetwork random n k = Some (net, k') →
  ∀ nd, nd ∈ nodes net →
    in_canvas nd ∧ node_type nd = router ∧ node_label nd = node_id nd.
Proof.
  intros Hrange Hrun.
  destruct (generate_parts _ _ _ _ _ Hrun) as (k1 & _ & _ & _ & Hplace & _).
  destruct (for_each_seq
    (λ (_ : nat) (placed : list (NetworkNode (option string))),
       ∀ nd, nd ∈ placed →
         in_canvas nd ∧ node_type nd = router ∧ node_label nd = node_id nd)
    (place_node random) n 0%nat [] k)
    as (placed & k2 & Hrun' & Hall).
  { intros nd Hnd. by apply elem_of_nil in Hnd. }
  { intros i placed k0 _ Hplaced.
    destruct (place_node_spec random placed i k0)
      as (p & a & -> & _ & _ & Hpos & _).
    eexists _, _. split; [reflexivity |].
    intros nd [Hnd | Hnd]%elem_of_app; [by apply Hplaced |].
    apply list_elem_of_singleton in Hnd as ->. split; [| done].
    pose proof (candidate_in_canvas random k0 (a - 1) Hrange) as Hc.
    rewrite <- Hpos in Hc. exact Hc. }
  rewrite Hplace in Hrun'. by simplify_eq.
Qed.

Lemma generateRandomNetwork_in_canvas_witness :
  ∃ net k',
    generateRandomNetwork random_high 3 0%nat = Some (net, k') ∧
    ∀ nd, nd ∈ nodes net →
      in_canvas nd ∧ node_type nd = router ∧ node_label nd = node_id nd.
Proof.
  assert (unit_range random_high) as H.
  { intros k. split; [discriminate | reflexivity]. }
  destruct (generateRandomNetwork random_high 3 0%nat) as [[net k'] |] eqn:Hrun.
  - exists net, k'. split; [reflexivity |].
    exact (generateRandomNetwork_in_canvas random_high 3 0%nat net k' H Hrun).
  - vm_compute in Hrun. discriminate Hrun.
Defined.

(** ** The generator: ids and edges *)

Lemma generate_nodes random n k net k' :
  generateRandomNetwork random n k = Some (net, k') →
  length (nodes net) = n ∧
  ∀ i, (i < n)%nat →
    ∃ nd, nodes net !! i = Some nd ∧ node_id nd = labels !! i.
Proof.
  intros Hrun.
  destruct (generate_parts _ _ _ _ _ Hrun) as (k1 & _ & _ & _ & Hplace & _).
  destruct (place_loop_spec random n k) as (placed & k2 & Hplace' & Hlen & Hids).
  rewrite Hplace in Hplace'. by simplify_eq.
Qed.

Lemma labels_lookup i :
  (i < 10)%nat → ∃ l, labels !! i = Some l ∧ l ≠ "".
Proof.
  intros Hi. do 10 (destruct i as [| i]; [eexists; split; [reflexivity | done] |]).
  lia.
Qed.

Lemma generate_ids_lemma (random : nat → Q) (n k : nat)
    (net : Network (option string)) (k' : nat) :
  generateRandomNetwork random n k = Some (net, k') →
  length (nodes net) = n ∧
  (∀ i nd, nodes net !! i = Some nd → node_id nd = labels !! i) ∧
  ((n ≤ 10)%nat →
     map node_id (nodes net) = map Some (take n labels) ∧
     NoDup (map node_id (nodes net))).
Proof.
  intros Hrun. destruct (generate_nodes _ _ _ _ _ Hrun) as [Hlen Hids].
  assert (∀ i nd, nodes net !! i = Some nd → node_id nd = labels !! i) as Hid.
  { intros i nd Hi. pose proof (lookup_lt_Some _ _ _ Hi) as Hlt.
    destruct (Hids i) as (nd' & Hnd' & ?); [lia |].
    rewrite Hi in Hnd'. by simplify_eq. }
  split; [done |]. split; [done |]. intros Hn.
  assert (map node_id (nodes net) = map Some (take n labels)) as Hmap.
  { apply list_eq. intros i.
    change (map node_id (nodes net)) with (node_id <$> nodes net).
    change (map Some (take n labels)) with (Some <$> take n labels).
    rewrite !list_lookup_fmap.
    destruct (decide (i < n)%nat) as [Hi | Hi].
    - destruct (Hids i Hi) as (nd & Hnd & Hndid). rewrite Hnd. simpl.
      rewrite Hndid, lookup_take_lt by done.
      destruct (labels_lookup i) as (l & -> & _); [lia | done].
    - rewrite lookup_take_ge by lia.
      rewrite (lookup_ge_None_2 (nodes net)) by lia. done. }
  split; [done |]. rewrite Hmap.
  change (map Some (take n labels)) with (Some <$> take n labels).
  apply (NoDup_fmap_2 Some).
  apply (sublist_NoDup (take n labels) labels); [| apply sublist_take].
  refine (bool_decide_unpack _ _). vm_compute. exact I.
Qed.

(** X11: a generated network has exactly [nodeCount] nodes, node [i]
    carrying [labels[i]] as id; when [nodeCount] is at most 10 the ids are the
    first [nodeCount] labels, in order, so they are defined, non-empty and
    pairwise distinct. *)
Theorem generateRandomNetwork_ids (random : nat → Q) (n k : nat)
    (net : Network (option string)) (k' : nat) :
  generateRandomNetwork random n k = Some (net, k') →
  length (nodes net) = n ∧
  (∀ i nd, nodes net !! i = Some nd → node_id nd = labels !! i) ∧
  ((n ≤ 10)%nat →
     map node_id (nodes net) = map Some (take n labels) ∧
     NoDup (map node_id (nodes net))).
Proof. apply generate_ids_lemma. Qed.

Lemma generateRandomNetwork_ids_witness :
  ∃ net k',
    generateRandomNetwork random_low 3 0%nat = Some (net, k') ∧
    length (nodes net) = 3%nat ∧
    map node_id (nodes net) = [Some "A"; Some "B"; Some "C"].
Proof.
  destruct (generateRandomNetwork random_low 3 0%nat) as [[net k'] |] eqn:Hrun.
  - exists net, k'. split; [reflexivity |].
    pose proof (generateRandomNetwork_ids random_low 3 0%nat net k' Hrun)
      as (Hlen & _ & Hids).
    split; [exact Hlen |]. apply Hids. lia.
  - vm_compute in Hrun. discriminate Hrun.
Defined.

Lemma for_each_pres {A} (P : A → Prop) (body : A → nat → Gen A) idxs :
  (∀ a i k a' k', P a → body a i k = Some (a', k') → P a') →
  ∀ a k a' k', P a → for_each body idxs a k = Some (a', k') → P a'.
Proof.
  intros Hbody. induction idxs as [| i idxs IH]; intros a k a' k' HP; simpl.
  - rewrite gen_ret_eq. intros ?. by simplify_eq.
  - rewrite gen_bind_eq. destruct (body a i k) as [[a1 k1] |] eqn:Hb; [| done].
    apply IH. eauto.
Qed.

(** What one turn of the extra-edge loop (lines 151-168) does when it
    returns. *)
Lemma extra_step_cases random placed es i k es' k' :
  extra_step random placed es i k = Some (es', k') →
  es' = es ∨
  ∃ nf nt c, es' = es ++ [mkEdge (node_id nf) (node_id nt) c] ∧
             nf ∈ placed ∧ nt ∈ placed ∧
             node_id nf ≠ node_id nt ∧
             existsb (joins (node_id nf) (node_id nt)) es = false.
Proof.
  unfold extra_step, random_cost, mbind, gen_bind, Math_random, defined,
    mret, gen_ret.
  cbv beta iota zeta.
  destruct (js_nth placed (Qfloor (random k * _))) as [nf |] eqn:Hnf; [| done].
  destruct (js_nth placed (Qfloor (random (S k) * _))) as [nt |] eqn:Hnt;
    [| done].
  assert (∀ (z : Z) (nd : NetworkNode (option string)),
            js_nth placed z = Some nd → nd ∈ placed) as Hin.
  { intros z nd. unfold js_nth. case_decide; [| done].
    apply list_elem_of_lookup_2. }
  case_decide as Hne; [| intros; simplify_eq; by left].
  destruct (existsb _ es) eqn:Hex; [intros; simplify_eq; by left |].
  intros Heq. injection Heq as <- <-. right.
  exists nf, nt. eexists. split_and!; eauto.
Qed.

(** X12: with draws in [0, 1), a generated network has at least
    [nodeCount - 1] and at most [nodeCount + 3] edges: the spanning tree and
    at most four extra edges. *)
Theorem generateRandomNetwork_edge_count (random : nat → Q) (n k : nat)
    (net : Network (option string)) (k' : nat) :
  unit_range random →
  generateRandomNetwork random n k = Some (net, k') →
  (n - 1 ≤ length (edges net) ≤ n + 3)%nat.
Proof.
  intros Hrange Hrun.
  assert (1 ≤ n)%nat as Hn1.
  { destruct n; [by rewrite generate_zero_none in Hrun | lia]. }
  destruct (generate_nodes _ _ _ _ _ Hrun) as [Hlen _].
  destruct (generate_parts _ _ _ _ _ Hrun)
    as (k1 & tree & k2 & k3 & _ & Htree & Hextra).
  destruct (spanning_tree_spec random Hrange (nodes net) k1)
    as (tree' & k2' & Htree' & Htl & _).
  rewrite Htree in Htree'. simplify_eq.
  destruct (Hrange k2') as [H0 H1].
  pose proof (floor_scale_range (random k2') 3 H0 H1 ltac:(lia)) as Hf.
  change (inject_Z 3) with (3 # 1)%Q in Hf.
  set (extras := Z.to_nat (Qfloor (random k2' * (3 # 1)) + 2)) in *.
  assert (extras ≤ 4)%nat as Hex by lia.
  assert (∀ m es0 k0 es1 k4,
            for_each (extra_step random (nodes net)) (seq 0 m) es0 k0
              = Some (es1, k4) →
            (length es0 ≤ length es1 ≤ length es0 + m)%nat) as Hloop.
  { intros m. generalize 0%nat as start.
    induction m as [| m IH]; intros start es0 k0 es1 k4; simpl.
    - rewrite gen_ret_eq. intros ?. simplify_eq. lia.
    - rewrite gen_bind_eq.
      destruct (extra_step random (nodes net) es0 start k0)
        as [[es2 k5] |] eqn:Hstep; [| done].
      intros Hrest. apply IH in Hrest.
      apply extra_step_cases in Hstep as [-> | (nf & nt & c & -> & _)].
      + lia.
      + rewrite length_app in Hrest. simpl in Hrest. lia. }
  apply Hloop in Hextra. lia.
Qed.

Lemma generateRandomNetwork_edge_count_witness :
  ∃ net k',
    generateRandomNetwork random_low 3 0%nat = Some (net, k') ∧
    (3 - 1 ≤ length (edges net) ≤ 3 + 3)%nat.
Proof.
  assert (unit_range random_low) as H.
  { intros k. split; [apply Qle_refl | reflexivity]. }
  destruct (generateRandomNetwork random_low 3 0%nat) as [[net k'] |] eqn:Hrun.
  - exists net, k'. split; [reflexivity |].
    exact (generateRandomNetwork_edge_count random_low 3 0%nat net k' H Hrun).
  - vm_compute in Hrun. discriminate Hrun.
Defined.

Lemma no_parallel_snoc {Id} `{EqDecision Id} (es : list (NetworkEdge Id))
    (f t : Id) (c : Z) :
  (∀ i j e e', es !! i = Some e → es !! j = Some e' →
               joins (edge_from e) (edge_to e) e' = true → i = j) →
  existsb (joins f t) es = false →
  ∀ i j e e', (es ++ [mkEdge f t c]) !! i = Some e →
              (es ++ [mkEdge f t c]) !! j = Some e' →
              joins (edge_from e) (edge_to e) e' = true → i = j.
Proof.
  intros Hnp Hex i j e e' Hi Hj Hjoin.
  assert (∀ e0, e0 ∈ es → joins f t e0 = false) as Hnone.
  { intros e0 He0. destruct (joins f t e0) eqn:Hj0; [| done].
    assert (existsb (joins f t) es = true); [| congruence].
    apply existsb_exists. exists e0. split; [by apply list_elem_of_In | done]. }
  apply lookup_app_Some in Hi as [Hi | [Hil Hi]];
    apply lookup_app_Some in Hj as [Hj | [Hjl Hj]].
  - by eapply Hnp.
  - apply list_lookup_singleton_Some in Hj as [_ <-].
    exfalso. pose proof (Hnone e (list_elem_of_lookup_2 _ _ _ Hi)) as Hn.
    apply joins_ends in Hjoin as [[Hf Ht] | [Hf Ht]]; simpl in Hf, Ht.
    + rewrite Hf, Ht, joins_self in Hn. done.
    + rewrite Hf, Ht, joins_comm, joins_self in Hn. done.
  - apply list_lookup_singleton_Some in Hi as [_ <-]. simpl in Hjoin.
    pose proof (Hnone e' (list_elem_of_lookup_2 _ _ _ Hj)). congruence.
  - apply list_lookup_singleton_Some in Hi as [Hi _].
    apply list_lookup_singleton_Some in Hj as [Hj _]. lia.
Qed.

Lemma generate_no_parallel_lemma (random : nat → Q) (n k : nat)
    (net : Network (option string)) (k' : nat) :
  unit_range random →
  generateRandomNetwork random n k = Some (net, k') →
  (n ≤ 11)%nat →
  no_parallel_edges net.
Proof.
  intros Hrange Hrun Hn.
  destruct (generate_nodes _ _ _ _ _ Hrun) as [Hlen Hids].
  destruct (generate_parts _ _ _ _ _ Hrun)
    as (k1 & tree & k2 & k3 & _ & Htree & Hextra).
  destruct (spanning_tree_spec random Hrange (nodes net) k1)
    as (tree' & k2' & Htree' & Htl & Htp).
  rewrite Htree in Htree'. simplify_eq.
  assert (∀ a e, tree' !! a = Some e →
            ∃ i j, (j < i < length (nodes net))%nat ∧ a = (i - 1)%nat ∧
                   edge_from e = labels !! i ∧ edge_to e = labels !! j)
    as Hshape.
  { intros a e Ha. pose proof (lookup_lt_Some _ _ _ Ha) as Hlt.
    destruct (Htp (S a)) as (j & c & ni & nj & Hj & Hl & Hni & Hnj & _); [lia |].
    replace (S a - 1)%nat with a in Hl by lia.
    rewrite Ha in Hl. simplify_eq. simpl.
    destruct (Hids (S a)) as (ni' & Hni' & Hidi); [lia |].
    destruct (Hids j) as (nj' & Hnj' & Hidj); [lia |].
    rewrite Hni in Hni'. rewrite Hnj in Hnj'. simplify_eq.
    exists (S a), j. split_and!; try done; lia. }
  unfold no_parallel_edges.
  eapply (for_each_pres
    (λ es : list (NetworkEdge (option string)),
       ∀ i j e e', es !! i = Some e → es !! j = Some e' →
                   joins (edge_from e) (edge_to e) e' = true → i = j));
    [| | exact Hextra].
  - intros es i0 k0 es' k4 Hnp Hstep.
    apply extra_step_cases in Hstep
      as [-> | (nf & nt & c & -> & _ & _ & _ & Hex)]; [done |].
    by apply no_parallel_snoc.
  - intros a b e e' Ha Hb Hjoin.
    destruct (Hshape a e Ha) as (i & j & Hij & -> & Hfi & Hti).
    destruct (Hshape b e' Hb) as (i' & j' & Hij' & -> & Hfi' & Hti').
    apply joins_ends in Hjoin as [[Hf Ht] | [Hf Ht]].
    + rewrite Hfi, Hfi' in Hf. apply labels_inj in Hf; lia.
    + rewrite Hfi, Hti' in Hf. rewrite Hti, Hfi' in Ht.
      apply labels_inj in Hf; [| lia | lia].
      apply labels_inj in Ht; lia.
Qed.

(** X13: with draws in [0, 1) and [nodeCount] at most 11, no two edges of a
    generated network join the same two nodes, in either direction. *)
Theorem generateRandomNetwork_no_parallel (random : nat → Q) (n k : nat)
    (net : Network (option string)) (k' : nat) :
  unit_range random →
  generateRandomNetwork random n k = Some (net, k') →
  (n ≤ 11)%nat →
  no_parallel_edges net.
Proof. apply generate_no_parallel_lemma. Qed.

Lemma generateRandomNetwork_no_parallel_witness :
  ∃ net k',
    generateRandomNetwork random_high 4 0%nat = Some (net, k') ∧
    no_parallel_edges net.
Proof.
  assert (unit_range random_high) as H.
  { intros k. split; [discriminate | reflexivity]. }
  destruct (generateRandomNetwork random_high 4 0%nat) as [[net k'] |] eqn:Hrun.
  - exists net, k'. split; [reflexivity |].
    apply (generateRandomNetwork_no_parallel random_high 4 0%nat net k' H Hrun).
    lia.
  - vm_compute in Hrun. discriminate Hrun.
Defined.

(** ** From the generator to the solver *)

Section Typed.
Context (net : Network (option string)) (tnet : Network string).
Hypothesis Htyped : typed net = Some tnet.

Lemma typed_inv :
    Forall2 (λ x y, typed_node x = Some y) (nodes net) (nodes tnet) ∧
    Forall2 (λ x y, typed_edge x = Some y) (edges net) (edges tnet).
  Proof.
    unfold typed in Htyped.
    destruct (mapM typed_node (nodes net)) as [ns |] eqn:Hns; [| done].
    destruct (mapM typed_edge (edges net)) as [es |] eqn:Hes; [| done].
    simpl in Htyped. simplify_eq. simpl.
    split; by apply mapM_Some_1.
  Qed.

Lemma typed_node_id nd tnd :
    typed_node nd = Some tnd → node_id nd = Some (node_id tnd).
  Proof.
    unfold typed_node. destruct (node_id nd), (node_label nd); try done.
    intros ?. by simplify_eq.
  Qed.

Lemma typed_edge_ends e te :
    typed_edge e = Some te →
    edge_from e = Some (edge_from te) ∧ edge_to e = Some (edge_to te) ∧
    edge_cost e = edge_cost te.
  Proof.
    unfold typed_edge. destruct (edge_from e), (edge_to e); try done.
    intros ?. by simplify_eq.
  Qed.

Lemma typed_ids : map node_id (nodes net) = map Some (ids tnet).
  Proof.
    unfold ids. destruct typed_inv as [Hn _].
    induction Hn as [| nd tnd l k Hnd Hrest IH]; simpl; [done |].
    by rewrite (typed_node_id _ _ Hnd), IH.
  Qed.

Lemma typed_is_node a : is_node tnet a ↔ is_node net (Some a).
  Proof.
    unfold is_node. rewrite typed_ids. fold (ids tnet).
    change (map Some (ids tnet)) with (Some <$> ids tnet).
    rewrite list_elem_of_fmap. split.
    - intros Ha. by exists a.
    - intros (b & ? & ?). by simplify_eq.
  Qed.

Lemma typed_is_node_some x : is_node net x → ∃ a, x = Some a.
  Proof.
    unfold is_node. rewrite typed_ids.
    change (map Some (ids tnet)) with (Some <$> ids tnet).
    rewrite list_elem_of_fmap. intros (a & -> & _). eauto.
  Qed.

Lemma typed_joins (a b : string) e te :
    typed_edge e = Some te → joins (Some a) (Some b) e = joins a b te.
  Proof.
    intros (Hf & Ht & _)%typed_edge_ends. unfold joins. rewrite Hf, Ht.
    f_equal; apply bool_decide_ext; split; intros [? ?]; split; congruence.
  Qed.

Lemma typed_hop a b e :
    hop net (Some a) (Some b) e →
    ∃ te, hop tnet a b te ∧ edge_cost te = edge_cost e.
  Proof.
    intros [He Hj]. destruct typed_inv as [_ Hes].
    apply list_elem_of_lookup in He as [i Hi].
    destruct (Forall2_lookup_l _ _ _ _ _ Hes Hi) as (te & Hte & Hty).
    exists te. split.
    - split; [by eapply list_elem_of_lookup_2 |].
      by rewrite <- (typed_joins a b e te Hty).
    - by destruct (typed_edge_ends _ _ Hty) as (_ & _ & ->).
  Qed.

Lemma typed_walk x y c :
    walk net x y c → ∀ a, x = Some a → ∃ b, y = Some b ∧ walk tnet a b c.
  Proof.
    induction 1 as [Hn | y y' e c Hw IH Hhop Hn]; intros a ->.
    - exists a. split; [done |]. constructor. by apply typed_is_node.
    - destruct (IH a eq_refl) as (b & -> & Hwb).
      destruct (typed_is_node_some _ Hn) as [b' ->].
      destruct (typed_hop _ _ _ Hhop) as (te & Hte & <-).
      exists b'. split; [done |].
      eapply walk_step; [done | done |]. by apply typed_is_node.
  Qed.

Lemma typed_connected : connected net → connected tnet.
  Proof.
    intros Hc a b Ha Hb.
    destruct (Hc (Some a) (Some b)) as [c Hw]; [by apply typed_is_node.. |].
    destruct (typed_walk _ _ _ Hw a eq_refl) as (b' & ? & Hw').
    simplify_eq. by exists c.
  Qed.

Lemma typed_no_parallel : no_parallel_edges net → no_parallel_edges tnet.
  Proof.
    intros Hnp i j te te' Hi Hj Hjoin. destruct typed_inv as [_ Hes].
    destruct (Forall2_lookup_r _ _ _ _ _ Hes Hi) as (e & Hei & Hty).
    destruct (Forall2_lookup_r _ _ _ _ _ Hes Hj) as (e' & Hej & Hty').
    apply (Hnp i j e e' Hei Hej).
    destruct (typed_edge_ends _ _ Hty) as (-> & -> & _).
    by rewrite (typed_joins _ _ e' te' Hty').
  Qed.

Lemma typed_costs (lo hi : Z) :
    (∀ e, e ∈ edges net → lo ≤ edge_cost e ≤ hi) →
    ∀ te, te ∈ edges tnet → lo ≤ edge_cost te ≤ hi.
  Proof.
    intros Hc te Hte. destruct typed_inv as [_ Hes].
    apply list_elem_of_lookup in Hte as [i Hi].
    destruct (Forall2_lookup_r _ _ _ _ _ Hes Hi) as (e & Hei & Hty).
    destruct (typed_edge_ends _ _ Hty) as (_ & _ & <-).
    apply Hc. by eapply list_elem_of_lookup_2.
  Qed.
End Typed.

Lemma generate_labels random n k net k' :
  generateRandomNetwork random n k = Some (net, k') →
  Forall (λ nd, node_label nd = node_id nd ∧ node_type nd = router) (nodes net).
Proof.
  intros Hrun.
  destruct (generate_parts _ _ _ _ _ Hrun) as (k1 & _ & _ & _ & Hplace & _).
  destruct (for_each_seq
    (λ (_ : nat) (placed : list (NetworkNode (option string))),
       Forall (λ nd, node_label nd = node_id nd ∧ node_type nd = router) placed)
    (place_node random) n 0%nat [] k)
    as (placed & k2 & Hrun' & HP).
  { constructor. }
  { intros i placed k0 _ HP.
    destruct (place_node_spec random placed i k0) as (p & a & -> & _).
    eexists _, _. split; [reflexivity |].
    apply Forall_app. split; [done |]. by repeat constructor. }
  rewrite Hplace in Hrun'. by simplify_eq.
Qed.

Lemma labels_nonempty l : l ∈ labels → l ≠ "".
Proof.
  intros Hl. apply list_elem_of_lookup in Hl as [i Hi].
  pose proof (lookup_lt_Some _ _ _ Hi) as Hlt. simpl in Hlt.
  destruct (labels_lookup i Hlt) as (l' & Hl' & Hne). congruence.
Qed.

Lemma generate_typed (random : nat → Q) (n k : nat)
    (net : Network (option string)) (k' : nat) :
  unit_range random →
  generateRandomNetwork random n k = Some (net, k') →
  (n ≤ 10)%nat →
  ∃ tnet, typed net = Some tnet ∧
    ids tnet = take n labels ∧
    connected tnet ∧ no_parallel_edges tnet ∧
    (∀ e, e ∈ edges tnet → 5 ≤ edge_cost e ≤ 19).
Proof.
  intros Hrange Hrun Hn.
  assert (1 ≤ n)%nat as Hn1.
  { destruct n; [| lia]. by rewrite generate_zero_none in Hrun. }
  destruct (generate_spec random Hrange n k Hn1)
    as (net' & k'' & tree & extra & k1 & k2 & Hrun' & Hlen & Hids & Hst & Hedges
        & Htl & Htree & Hextra).
  rewrite Hrun in Hrun'. injection Hrun' as <- <-.
  destruct (generate_ids_lemma _ _ _ _ _ Hrun) as (_ & Hid & Hmap).
  destruct (Hmap Hn) as [Hmap' Hnodup].
  pose proof (generate_labels _ _ _ _ _ Hrun) as Hlab.
  assert (∀ nd, nd ∈ nodes net → is_Some (node_id nd)) as Hsome.
  { intros nd Hnd. apply list_elem_of_lookup in Hnd as [i Hi].
    pose proof (lookup_lt_Some _ _ _ Hi) as Hlt.
    rewrite (Hid i nd Hi).
    destruct (labels_lookup i) as (l & -> & _); [lia | done]. }
  assert (∀ e, e ∈ edges net →
               is_Some (edge_from e) ∧ is_Some (edge_to e) ∧
               5 ≤ edge_cost e ≤ 19) as Hedge.
  { intros e He. rewrite Hedges in He. apply elem_of_app in He as [He | He].
    - apply list_elem_of_lookup in He as [a Ha].
      pose proof (lookup_lt_Some _ _ _ Ha) as Hlt.
      destruct (Htree (S a)) as (j & c & ni & nj & _ & Hl & Hni & Hnj & Hc);
        [lia |].
      replace (S a - 1)%nat with a in Hl by lia.
      rewrite Ha in Hl. simplify_eq. simpl.
      split_and!; [| | lia | lia]; apply Hsome; by eapply list_elem_of_lookup_2.
    - rewrite Forall_forall in Hextra.
      destruct (Hextra e He) as (nf & nt & Hnf & Hnt & -> & -> & _ & Hc).
      split_and!; [by apply Hsome | by apply Hsome | lia | lia]. }
  assert (is_Some (typed net)) as [tnet Htyped].
  { unfold typed.
    destruct (mapM_is_Some_2 typed_node (nodes net)) as [ns Hns].
    { apply Forall_forall. intros nd Hnd.
      rewrite Forall_forall in Hlab. destruct (Hlab nd Hnd) as [Hl _].
      destruct (Hsome nd Hnd) as [i Hi].
      unfold compose, typed_node. rewrite Hl, Hi. done. }
    destruct (mapM_is_Some_2 typed_edge (edges net)) as [es Hes].
    { apply Forall_forall. intros e He.
      destruct (Hedge e He) as ([f Hf] & [t Ht] & _).
      unfold compose, typed_edge. rewrite Hf, Ht. done. }
    rewrite Hns, Hes. done. }
  exists tnet. split; [done |]. split_and!.
  - pose proof (typed_ids net tnet Htyped) as Hti. rewrite Hmap' in Hti.
    change (Some <$> take n labels = Some <$> ids tnet) in Hti.
    symmetry. by apply (inj (fmap Some)).
  - apply (typed_connected net tnet Htyped).
    destruct (Hids 0%nat) as (n0 & Hn0 & _); [lia |].
    apply (tree_connects net n0 Hn0). intros i Hi.
    destruct (Htree i) as (j & c & ni & nj & Hj & Hl & Hni & Hnj & _); [lia |].
    exists j, c, ni, nj. split_and!; try done.
    rewrite Hedges. apply elem_of_app. left. by eapply list_elem_of_lookup_2.
  - apply (typed_no_parallel net tnet Htyped).
    apply (generate_no_parallel_lemma random n k net k' Hrange Hrun). lia.
  - apply (typed_costs net tnet Htyped). intros e He.
    by destruct (Hedge e He) as (_ & _ & ?).
Qed.

(** X14: with draws in [0, 1) and [nodeCount] at most 10, a generated network
    is one of the declared type (every id and label a string), and on it the
    search between any two distinct nodes returns, for every fuel above the
    number of nodes, a non-empty route from the source to the destination of
    the least total cost among all walks between them. *)
Theorem generated_network_shortest_routes (random : nat → Q) (n k : nat)
    (net : Network (option string)) (k' : nat) :
  unit_range random →
  generateRandomNetwork random n k = Some (net, k') →
  (n ≤ 10)%nat →
  ∃ tnet, typed net = Some tnet ∧
    ids tnet = take n labels ∧
    ∀ s d fuel, is_node tnet s → is_node tnet d → s ≠ d → (n < fuel)%nat →
      ∃ p, dijkstra fuel tnet s d = Some p ∧ p ≠ [] ∧
           chained p ∧ route tnet s d p ∧
           min_cost tnet s d (total_cost p).
Proof.
  intros Hrange Hrun Hn.
  destruct (generate_typed random n k net k' Hrange Hrun Hn)
    as (tnet & Htyped & Hids & Hconn & Hnp & Hcost).
  exists tnet. split; [done |]. split; [done |].
  intros s d fuel Hs Hd Hne Hfuel.
  assert (length (nodes tnet) = n) as Hlen.
  { transitivity (length (ids tnet)).
    - unfold ids. by rewrite length_map.
    - rewrite Hids, length_take. simpl. lia. }
  destruct (shortest_route_lemma tnet s d) with (fuel := fuel)
    as (p & Hrun' & Hp & _ & _ & Hch & Hroute & Hmin & _).
  - intros e He. destruct (Hcost e He). lia.
  - rewrite Hids. apply (sublist_NoDup _ labels); [| apply sublist_take].
    unfold labels. refine (bool_decide_unpack _ _). vm_compute. exact I.
  - intros a Ha. unfold is_node in Ha. fold (ids tnet) in Ha.
    rewrite Hids in Ha. apply labels_nonempty.
    eapply elem_of_sublist; [done | apply sublist_take].
  - by apply no_parallel_cheapest.
  - done.
  - done.
  - done.
  - by apply Hconn.
  - lia.
  - exists p. done.
Qed.

Lemma generated_network_shortest_routes_witness :
  ∃ net k' tnet,
    generateRandomNetwork random_low 3 0%nat = Some (net, k') ∧
    typed net = Some tnet ∧
    ids tnet = ["A"; "B"; "C"] ∧
    ∃ p, dijkstra 4 tnet "A" "C" = Some p ∧ p ≠ [] ∧
         chained p ∧ route tnet "A" "C" p ∧
         min_cost tnet "A" "C" (total_cost p).
Proof.
  destruct (generateRandomNetwork random_low 3 0%nat) as [[net k'] |] eqn:Hrun.
  - destruct (generated_network_shortest_routes random_low 3 0%nat net k'
                unit_range_low Hrun) as (tnet & Htyped & Hids & Hroutes); [lia |].
    exists net, k', tnet. split; [reflexivity |]. split; [exact Htyped |].
    split; [exact Hids |].
    apply Hroutes; [| | discriminate | lia];
      unfold is_node; fold (ids tnet); rewrite Hids; simpl.
    + apply list_elem_of_here.
    + do 2 apply list_elem_of_further. apply list_elem_of_here.
  - vm_compute in Hrun. discriminate Hrun.
Defined.

(** ** The highlight of the route *)

Lemma seg_matches_resolved net seg e :
  resolved net seg →
  seg_matches e seg =
    Some (joins (edge_from (seg_edge seg)) (edge_to (seg_edge seg)) e).
Proof.
  intros (nf & nt & Hf & Ht & _ & _ & _ & Hj).
  unfold seg_matches. rewrite Hf, Ht. cbv zeta.
  apply joins_ends in Hj as [[Ha Hb] | [Ha Hb]]; rewrite Ha, Hb; unfold joins;
    repeat match goal with
           | |- context [bool_decide ?P] => destruct (bool_decide_reflect P)
           end; simpl;
    first [ done
          | exfalso; destruct_and?;
            first [ congruence
                  | match goal with
                    | H : ¬ _ |- _ => apply H; split; congruence
                    end ] ].
Qed.

Lemma isInPath_resolved net p e :
  (∀ seg, seg ∈ p → resolved net seg) →
  isInPath p e =
    Some (existsb (λ seg, joins (edge_from (seg_edge seg))
                                (edge_to (seg_edge seg)) e) p).
Proof.
  induction p as [| seg p IH]; intros Hres; simpl; [done |].
  rewrite (seg_matches_resolved net) by (apply Hres; left).
  destruct (joins _ _ e); simpl; [done |].
  apply IH. intros seg' Hseg'. apply Hres. by right.
Qed.

Lemma dijkstra_resolved g s d fuel p :
  dijkstra fuel g s d = Some p → ∀ seg, seg ∈ p → resolved g seg.
Proof.
  intros Hp seg Hseg.
  destruct (dijkstra_returned _ _ _ _ _ Hp) as [-> | [_ Hroute]].
  - by apply elem_of_nil in Hseg.
  - by apply (route_resolved g s d p).
Qed.

(** X15: the highlight test of the renderer never throws on a path that
    [dijkstra] returned, and it holds of an edge exactly when that edge joins
    the two ends of the edge of some segment: every edge parallel to an edge
    of the route is highlighted with it. *)
Theorem isInPath_marks_parallel_edges (g : Network string) (s d : string)
    (fuel : nat) (p : list PathSegment) (e : NetworkEdge string) :
  dijkstra fuel g s d = Some p →
  ∃ b, isInPath p e = Some b ∧
       (b = true ↔
        ∃ seg, seg ∈ p ∧
               joins (edge_from (seg_edge seg)) (edge_to (seg_edge seg)) e
               = true).
Proof.
  intros Hp. eexists. split.
  - apply (isInPath_resolved g). by apply (dijkstra_resolved g s d fuel).
  - rewrite existsb_exists. split.
    + intros (seg & Hin & Hj). exists seg. by rewrite list_elem_of_In.
    + intros (seg & Hin & Hj). exists seg. by rewrite <- list_elem_of_In.
Qed.

Lemma isInPath_marks_parallel_edges_witness :
  ∃ p, dijkstra 3 parallel_network "A" "B" = Some p ∧
    ∃ b, isInPath p (mkEdge "A" "B" 1) = Some b ∧
         (b = true ↔
          ∃ seg, seg ∈ p ∧
                 joins (edge_from (seg_edge seg)) (edge_to (seg_edge seg))
                       (mkEdge "A" "B" 1) = true).
Proof.
  destruct (dijkstra 3 parallel_network "A" "B") as [p |] eqn:Hp.
  - exists p. split; [reflexivity |].
    exact (isInPath_marks_parallel_edges parallel_network "A" "B" 3 p
             (mkEdge "A" "B" 1) Hp).
  - vm_compute in Hp. discriminate Hp.
Defined.

(** X16: on a network in which no two edges join the same pair of nodes, the
    edges of the network that the renderer highlights are exactly the edges
    that the segments of the path returned by [dijkstra] carry. *)
Theorem isInPath_exact_on_simple (g : Network string) (s d : string)
    (fuel : nat) (p : list PathSegment) (e : NetworkEdge string) :
  dijkstra fuel g s d = Some p →
  no_parallel_edges g →
  e ∈ edges g →
  isInPath p e = Some (bool_decide (e ∈ seg_edge <$> p)).
Proof.
  intros Hp Hnp He.
  pose proof (dijkstra_resolved g s d fuel p Hp) as Hres.
  rewrite (isInPath_resolved g p e Hres). f_equal.
  apply eq_true_iff_eq. rewrite existsb_exists, bool_decide_eq_true.
  rewrite list_elem_of_fmap. split.
  - intros (seg & Hin & Hj). apply list_elem_of_In in Hin.
    exists seg. split; [| done].
    destruct (Hres seg Hin) as (nf & nt & _ & _ & _ & _ & Hse & _).
    apply list_elem_of_lookup in Hse as [i Hi].
    apply list_elem_of_lookup in He as [j Hj'].
    pose proof (Hnp i j _ _ Hi Hj' Hj) as ->.
    rewrite Hi in Hj'. by simplify_eq.
  - intros (seg & -> & Hin). exists seg. split.
    + by apply list_elem_of_In.
    + apply joins_self.
Qed.

Lemma isInPath_exact_on_simple_witness :
  ∃ p, dijkstra 7 getDefaultNetwork "A" "F" = Some p ∧
       isInPath p (mkEdge "C" "E" 2)
       = Some (bool_decide (mkEdge "C" "E" 2 ∈ seg_edge <$> p)).
Proof.
  destruct (dijkstra 7 getDefaultNetwork "A" "F") as [p |] eqn:Hp.
  - exists p. split; [reflexivity |].
    apply (isInPath_exact_on_simple getDefaultNetwork "A" "F" 7 p _ Hp).
    + apply default_no_parallel.
    + refine (bool_decide_unpack _ _). vm_compute. exact I.
  - vm_compute in Hp. discriminate Hp.
Defined.
